(** * fleetcomp / teamcomp: constrained team-composition enumeration

    A shallow embedding of the two programs [fleetcomp.py] and
    [teamcomp.py]: the data model (ships, players, restriction sets), the
    validator [is_valid], the backtracking generator [team_compositions],
    the drivers [generate_comps] and [count], and the dialogue of
    two programs ([Team.menu] and [comps]).

    Conventions of the embedding.
    - A Python [set]/[frozenset] is a [gset]; iterating it is iterating
      [elements]. A generator is the list of the values it yields, in
      order.
    - [Ship] and [Player] define no [__eq__], so Python compares them by
      object identity. Every object therefore carries the identity it was
      allocated with ([ship_id], [player_id]), and constructors draw it
      from a counter in the interpreter state.
    - A [RestrictionSet] is the only object whose attributes are assigned
      after construction ([with_team_size]); restriction sets live in an
      object store and are passed by reference where the source does so.
    - Raised exceptions are values of [exn]; fallible code returns a
      [result].
    - The dialogue reads its lines from a list and appends what it prints
      to a list; the string operations of Python it uses ([casefold],
      [strip], [int]) are parameters of the model. *)

From stdpp Require Import gmap strings list fin_maps sets pretty.
From Stdlib Require Import ZArith Lia.

Open Scope Z_scope.

(** ** Exceptions and results *)

Inductive exn :=
  | ConfigurationError
  | ValueError
  | KeyError
  | TypeError
  | ReferenceError.   (* a reference to no object; not raised by the
                         programs, whose references all come from
                         constructors *)

Inductive result (A : Type) :=
  | Ok (a : A)
  | Raise (e : exn).
Arguments Ok {A} a.
Arguments Raise {A} e.

#[export] Instance exn_eq_dec : EqDecision exn.
Proof. solve_decision. Defined.

(** ** Ship types (class [ShipType(StrEnum)]) *)

Inductive ShipType := SS | DD | CA | BB | CV.

#[export] Instance ShipType_eq_dec : EqDecision ShipType.
Proof. solve_decision. Defined.

Definition ShipType_index (t : ShipType) : nat :=
  match t with SS => 0 | DD => 1 | CA => 2 | BB => 3 | CV => 4 end%nat.

Definition ShipType_of_index (n : nat) : option ShipType :=
  match n with
  | 0 => Some SS | 1 => Some DD | 2 => Some CA | 3 => Some BB | 4 => Some CV
  | _ => None
  end%nat.

#[export] Instance ShipType_countable : Countable ShipType.
Proof.
  apply (inj_countable ShipType_index ShipType_of_index).
  intros []; reflexivity.
Defined.

(** The string value of a member: a [StrEnum] member hashes and compares
    as this string, which is how [ship.type in ...] finds it among JSON
    strings. *)
Definition ShipType_value (t : ShipType) : string :=
  match t with
  | SS => "SS" | DD => "DD" | CA => "CA" | BB => "BB" | CV => "CV"
  end.

(** [ShipType(s)]: lookup by value, [ValueError] for an unknown symbol. *)
Definition ShipType_of_value (s : string) : result ShipType :=
  if decide (s = "SS") then Ok SS
  else if decide (s = "DD") then Ok DD
  else if decide (s = "CA") then Ok CA
  else if decide (s = "BB") then Ok BB
  else if decide (s = "CV") then Ok CV
  else Raise ValueError.

(** ** Ships and players *)

Record Ship := mkShip {
  ship_id : positive;   (* object identity *)
  name : string;
  type : ShipType;
  player : string;
}.

#[export] Instance Ship_eq_dec : EqDecision Ship.
Proof. solve_decision. Defined.

#[export] Instance Ship_countable : Countable Ship.
Proof.
  apply (inj_countable'
           (fun s => (ship_id s, name s, type s, player s))
           (fun t => match t with (i, n, ty, p) => mkShip i n ty p end)).
  intros []; reflexivity.
Defined.

(** [a == b] on ships: [Ship] inherits [object.__eq__], identity. *)
Definition Ship_eq (a b : Ship) : bool :=
  bool_decide (ship_id a = ship_id b).

(** [Ship.__hash__]: the hash of the tuple [(class, name, type, player)].
    The tuple hash is a function of the tuple; the class component is the
    same for every ship. *)
Definition Ship_hash (tuple_hash : string * ShipType * string -> Z)
    (s : Ship) : Z :=
  tuple_hash (name s, type s, player s).

Record Player := mkPlayer {
  player_id : positive;   (* object identity *)
  pname : string;
  ships : gset Ship;      (* frozenset *)
}.

#[export] Instance Player_eq_dec : EqDecision Player.
Proof. solve_decision. Defined.

#[export] Instance Player_countable : Countable Player.
Proof.
  apply (inj_countable'
           (fun p => (player_id p, pname p, ships p))
           (fun t => match t with (i, n, s) => mkPlayer i n s end)).
  intros []; reflexivity.
Defined.

(** ** The interpreter state

    Object identities are drawn from [next_id]. [rsets] is the store of
    restriction-set objects, of type [R] (the two programs have different
    [RestrictionSet] classes); a reference is an index into it. *)

Record heap (R : Type) := mkHeap {
  next_id : positive;
  rsets : list R;
}.
Arguments mkHeap {R} _ _.
Arguments next_id {R} _.
Arguments rsets {R} _.

Definition M (R A : Type) : Type := heap R -> result (A * heap R).

#[export] Instance M_ret {R} : MRet (M R) :=
  fun A a h => Ok (a, h).

#[export] Instance M_bind {R} : MBind (M R) :=
  fun A B f m h =>
    match m h with
    | Ok (a, h') => f a h'
    | Raise e => Raise e
    end.

Definition raise {R A} (e : exn) : M R A := fun _ => Raise e.

Definition lift {R A} (r : result A) : M R A :=
  fun h => match r with Ok a => Ok (a, h) | Raise e => Raise e end.

(** A new object identity. *)
Definition fresh {R} : M R positive :=
  fun h => Ok (next_id h, mkHeap (Pos.succ (next_id h)) (rsets h)).

(** Store a new restriction-set object, return its reference. *)
Definition alloc {R} (r : R) : M R nat :=
  fun h => Ok (length (rsets h), mkHeap (next_id h) (rsets h ++ [r])).

Definition read {R} (l : nat) : M R R :=
  fun h => match rsets h !! l with
           | Some r => Ok (r, h)
           | None => Raise ReferenceError
           end.

(** Attribute assignment on a stored object: [f] is the new object value. *)
Definition update {R} (l : nat) (f : R -> R) : M R unit :=
  fun h => match rsets h !! l with
           | Some r => Ok (tt, mkHeap (next_id h) (<[l := f r]> (rsets h)))
           | None => Raise ReferenceError
           end.

(** A [for] loop with an accumulator. *)
Fixpoint foldM {R A B} (f : B -> A -> M R B) (b : B) (l : list A) : M R B :=
  match l with
  | [] => mret b
  | a :: l' => b' ← f b a; foldM f b' l'
  end.

Section Constructors.
Context {R : Type}.

(** [Ship(ship_name, ship_type, player)]; [ship_type] is a [ShipType]
    (left) or a string still to be converted (right). *)
Definition Ship_init (ship_name : string) (ship_type : ShipType + string)
    (player : string) : M R Ship :=
  i ← fresh;
  t ← lift (match ship_type with
            | inl t => Ok t
            | inr s => ShipType_of_value s
            end);
  mret (mkShip i ship_name t player).

(** [Player(name, ships)]; [ships] maps a type symbol to a list of ship
    names. [ShipType(ship_type_str)] is evaluated before the [Ship] is
    created. *)
Definition Player_init (name : string) (ships : gmap string (list string))
    : M R Player :=
  i ← fresh;
  shipset ←
    foldM (fun shipset '(ship_type_str, ship_list) =>
             foldM (fun shipset ship_name =>
                      t ← lift (ShipType_of_value ship_type_str);
                      ship ← Ship_init ship_name (inl t) name;
                      mret (shipset ∪ {[ ship ]}))
                   shipset ship_list)
          (∅ : gset Ship) (map_to_list ships);
  mret (mkPlayer i name shipset).

End Constructors.

(** ** [itertools.combinations] *)

(** The [r]-length subsequences of [pool], in lexicographic order of
    positions. *)
Fixpoint combinations {A : Type} (pool : list A) (r : nat) : list (list A) :=
  match r, pool with
  | O, _ => [[]]
  | S _, [] => []
  | S r', x :: xs => (cons x <$> combinations xs r') ++ combinations xs r
  end.

(** ** Teams (class [Team], the part common to both programs) *)

Record Team := mkTeam {
  players : gset Player;
}.

Definition Team_select (self : Team) (names : gset string) : Team :=
  mkTeam (filter (fun p => pname p ∈ names) (players self)).

(** ** Rule configuration

    The parsed JSON handed to [RestrictionSet.__init__]: a dictionary whose
    values are an integer (["TeamSize"], ["Tier"]), the ban dictionary
    (["Banned"], with optional keys ["ships"] and ["types"]) or a rule. *)

Inductive RType := Ships | Types.

#[export] Instance RType_eq_dec : EqDecision RType.
Proof. solve_decision. Defined.

(** A rule dictionary [{"rtype": rt, rt: members, "allowed": n}]. [rt] is
    ["ships"] or ["types"]: [is_valid] reads [rinfo["ships"]] for the
    former and [rinfo["types"]] for anything else, and the list is stored
    under the key [rt], so these are the two values for which that lookup
    is defined. *)
Record Rule := mkRule {
  rtype : RType;
  members : list string;
  allowed : Z;
}.

#[export] Instance Rule_eq_dec : EqDecision Rule.
Proof. solve_decision. Defined.

Inductive json :=
  | JInt (n : Z)
  | JBans (bans : gmap string (list string))
  | JRule (rule : Rule).

(** [d.pop(key, default)]: the value and the dictionary afterwards. *)
Definition dict_pop {V} (d : gmap string V) (key : string) (dflt : V)
    : V * gmap string V :=
  (default dflt (d !! key), delete key d).


(** * fleetcomp.py *)

Module Fleetcomp.

(** [Player.__bool__]: a player with no ships is falsy. *)
Definition Player_bool (self : Player) : bool :=
  bool_decide (ships self ≠ ∅).

Record RestrictionSet := mkRestrictionSet {
  size_limit : Z;
  tier : Z;
  banned_ships : gset string;
  banned_types : gset string;
  restrictions : gmap string Rule;
}.

#[export] Instance RestrictionSet_eq_dec : EqDecision RestrictionSet.
Proof. solve_decision. Defined.

(** The loop of [__init__] over [rules.items()]: each remaining entry has
    to be a rule. Subscripting an integer raises [TypeError]; a ban
    dictionary has no key ["rtype"], or has a list there, which is no
    dictionary key. *)
Fixpoint init_rules (items : list (string * json))
    (restrictions : gmap string Rule) : result (gmap string Rule) :=
  match items with
  | [] => Ok restrictions
  | (name, JRule rule) :: rest =>
      init_rules rest
        (<[name := mkRule (rtype rule) (members rule) (allowed rule)]>
           restrictions)
  | (_, JInt _) :: _ => Raise TypeError
  | (_, JBans bans) :: _ =>
      Raise (match bans !! "rtype" with
             | Some _ => TypeError
             | None => KeyError
             end)
  end.

(** [RestrictionSet.__init__(rules, team_size, tier)]. The first component
    is the caller's dictionary [rules] as the call leaves it; the pops
    happen before anything can fail. An entry of another shape than the
    attribute needs (["TeamSize"] or ["Tier"] not an integer, ["Banned"]
    not a dictionary) is reported as [TypeError]. *)
Definition RestrictionSet_init (rules : gmap string json)
    (team_size : Z) (tier : Z) : gmap string json * result RestrictionSet :=
  let '(bans, rules) := dict_pop rules "Banned" (JBans ∅) in
  let '(size_limit, rules) := dict_pop rules "TeamSize" (JInt team_size) in
  let '(tier, rules) := dict_pop rules "Tier" (JInt tier) in
  (rules,
   match bans, size_limit, tier with
   | JBans bans, JInt size_limit, JInt tier =>
       let '(ships, bans) := dict_pop bans "ships" [] in
       let '(types, bans) := dict_pop bans "types" [] in
       match init_rules (map_to_list rules) ∅ with
       | Ok restrictions =>
           Ok (mkRestrictionSet size_limit tier
                 (list_to_set ships) (list_to_set types) restrictions)
       | Raise e => Raise e
       end
   | _, _, _ => Raise TypeError
   end).

(** [copy.deepcopy(self)]: a new object with equal attribute values (the
    attributes are values of the embedding, so the copy shares nothing
    with the original). *)
Definition deepcopy (self : nat) : M RestrictionSet nat :=
  r ← read self; alloc r.

Definition with_team_size (self : nat) (n : Z) : M RestrictionSet nat :=
  new ← deepcopy self;
  _ ← update new (fun r => mkRestrictionSet n (tier r) (banned_ships r)
                             (banned_types r) (restrictions r));
  mret new.

Definition is_banned (self : RestrictionSet) (ship : Ship) : bool :=
  bool_decide (name ship ∈ banned_ships self)
  || bool_decide (ShipType_value (type ship) ∈ banned_types self).

(** [RestrictionSet.load(json_path, team_size=7)] on the parsed content of
    the file; the dictionary is built by [json.load] for this call. *)
Definition RestrictionSet_load (content : gmap string json) (team_size : Z)
    : M RestrictionSet nat :=
  r ← lift (RestrictionSet_init content team_size 10).2; alloc r.

(** The right-hand side of [rcounts[rname] += ...] for one rule and one
    ship. *)
Definition rule_hit (rinfo : Rule) (ship : Ship) : bool :=
  match rtype rinfo with
  | Ships => bool_decide (name ship ∈ members rinfo)
  | Types => bool_decide (ShipType_value (type ship) ∈ members rinfo)
  end.

(** [rcounts[rname] += b] on a [Counter]: a missing key reads as 0. *)
Definition counter_add (rcounts : gmap string Z) (rname : string) (b : bool)
    : gmap string Z :=
  <[rname := default 0 (rcounts !! rname) + Z.b2z b]> rcounts.

(** The inner loop of [is_valid], over [self.restrictions.items()]. *)
Definition count_rules (self : RestrictionSet) (ship : Ship)
    (rcounts : gmap string Z) : gmap string Z :=
  foldl (fun rc '(rname, rinfo) => counter_add rc rname (rule_hit rinfo ship))
        rcounts (map_to_list (restrictions self)).

(** The outer loop of [is_valid], over the ships of the composition;
    [None] is the early [return False] on a banned ship. *)
Fixpoint count_ships (self : RestrictionSet) (composition : list Ship)
    (rcounts : gmap string Z) : option (gmap string Z) :=
  match composition with
  | [] => Some rcounts
  | ship :: rest =>
      if is_banned self ship then None
      else count_ships self rest (count_rules self ship rcounts)
  end.

(** The last loop of [is_valid], over [rcounts.items()]. The lookup
    [self.restrictions[rule]] cannot fail: every key of [rcounts] is a key
    of [self.restrictions] (lemma [count_ships_lookup]). *)
Definition check_counts (self : RestrictionSet) (rcounts : gmap string Z)
    : bool :=
  forallb (fun '(rule, c) =>
             match restrictions self !! rule with
             | Some rinfo => negb (allowed rinfo <? c)
             | None => false
             end)
          (map_to_list rcounts).

Definition is_valid (self : RestrictionSet) (composition : gset Ship) : bool :=
  if size_limit self <? Z.of_nat (size composition) then false
  else match count_ships self (elements composition) ∅ with
       | None => false
       | Some rcounts => check_counts self rcounts
       end.

Definition is_full_team (self : RestrictionSet) (composition : gset Ship)
    : bool :=
  Z.of_nat (size composition) =? size_limit self.

Fixpoint team_compositions (self : RestrictionSet) (selected : gset Ship)
    (group : list Player) {struct group} : list (gset Ship) :=
  if is_valid self selected && is_full_team self selected then [selected]
  else match group with
       | [] => []
       | p :: rest =>
           flat_map (fun ship =>
                       team_compositions self (selected ∪ {[ ship ]}) rest)
                    (elements (ships p))
       end.

(** [Team.load(team_json, tier)] on the parsed content of the file:
    player name, then tier key, then type symbol, to ship names. *)
Definition Team_load
    (team_info : gmap string (gmap string (gmap string (list string))))
    (tier : Z) : M RestrictionSet Team :=
  let tier_key := pretty tier in
  players ←
    foldM (fun players '(name, player_info) =>
             match player_info !! tier_key with
             | Some ships =>
                 p ← Player_init name ships; mret (players ∪ {[ p ]})
             | None => raise KeyError
             end)
          (∅ : gset Player) (map_to_list team_info);
  mret (mkTeam players).

(** [Team.generate_comps]. [combinations(pool, r)] raises [ValueError] for
    a negative [r]; the call sits in the generator body, so the error
    surfaces when the first element is requested. *)
Definition generate_comps (self : Team) (restriction_set : RestrictionSet)
    : result (list (gset Ship)) :=
  if size_limit restriction_set <? 0 then Raise ValueError
  else Ok (flat_map (fun group => team_compositions restriction_set ∅ group)
             (combinations (elements (players self))
                           (Z.to_nat (size_limit restriction_set)))).

(** [count], lines 198-201: load both files, apply the override. *)
Definition count_load
    (team_data : gmap string (gmap string (gmap string (list string))))
    (restriction_data : gmap string json) (tso : option Z)
    : M RestrictionSet (Team * nat) :=
  restrictions ← RestrictionSet_load restriction_data 7;
  r ← read restrictions;
  team ← Team_load team_data (tier r);
  restrictions ← match tso with
                 | Some n => with_team_size restrictions n
                 | None => mret restrictions
                 end;
  mret (team, restrictions).

(** [count], lines 202-206: the size check, then the number of yielded
    compositions (the number printed). *)
Definition count_run (team : Team) (restrictions : nat)
    : M RestrictionSet nat :=
  r ← read restrictions;
  let x := length (filter (fun p => Player_bool p = true)
                     (elements (players team))) in
  if Z.of_nat x <? size_limit r then raise ConfigurationError
  else compgen ← lift (generate_comps team r);
       mret (length compgen).

Definition count
    (team_data : gmap string (gmap string (gmap string (list string))))
    (restriction_data : gmap string json) (tso : option Z)
    : M RestrictionSet nat :=
  '(team, restrictions) ← count_load team_data restriction_data tso;
  count_run team restrictions.

End Fleetcomp.

(** * teamcomp.py

    [Ship], [Player] (without [__bool__]) and [Team.select] read as in
    fleetcomp.py; the restriction set has no tier and no
    [with_team_size]. *)

Module Teamcomp.

Record RestrictionSet := mkRestrictionSet {
  size_limit : Z;
  banned_ships : gset string;
  banned_types : gset string;
  restrictions : gmap string Rule;
}.

#[export] Instance RestrictionSet_eq_dec : EqDecision RestrictionSet.
Proof. solve_decision. Defined.

(** [RestrictionSet.__init__(rules, team_size)]; the loop over the
    remaining entries is the one of fleetcomp.py. *)
Definition RestrictionSet_init (rules : gmap string json) (team_size : Z)
    : gmap string json * result RestrictionSet :=
  let '(bans, rules) := dict_pop rules "Banned" (JBans ∅) in
  let '(size_limit, rules) := dict_pop rules "TeamSize" (JInt team_size) in
  (rules,
   match bans, size_limit with
   | JBans bans, JInt size_limit =>
       let '(ships, bans) := dict_pop bans "ships" [] in
       let '(types, bans) := dict_pop bans "types" [] in
       match Fleetcomp.init_rules (map_to_list rules) ∅ with
       | Ok restrictions =>
           Ok (mkRestrictionSet size_limit
                 (list_to_set ships) (list_to_set types) restrictions)
       | Raise e => Raise e
       end
   | _, _ => Raise TypeError
   end).

Definition is_banned (self : RestrictionSet) (ship : Ship) : bool :=
  bool_decide (name ship ∈ banned_ships self)
  || bool_decide (ShipType_value (type ship) ∈ banned_types self).

Definition RestrictionSet_load (content : gmap string json) (team_size : Z)
    : M RestrictionSet nat :=
  r ← lift (RestrictionSet_init content team_size).2; alloc r.

Definition count_rules (self : RestrictionSet) (ship : Ship)
    (rcounts : gmap string Z) : gmap string Z :=
  foldl (fun rc '(rname, rinfo) =>
           Fleetcomp.counter_add rc rname (Fleetcomp.rule_hit rinfo ship))
        rcounts (map_to_list (restrictions self)).

Fixpoint count_ships (self : RestrictionSet) (composition : list Ship)
    (rcounts : gmap string Z) : option (gmap string Z) :=
  match composition with
  | [] => Some rcounts
  | ship :: rest =>
      if is_banned self ship then None
      else count_ships self rest (count_rules self ship rcounts)
  end.

Definition check_counts (self : RestrictionSet) (rcounts : gmap string Z)
    : bool :=
  forallb (fun '(rule, count) =>
             match restrictions self !! rule with
             | Some rinfo => negb (allowed rinfo <? count)
             | None => false
             end)
          (map_to_list rcounts).

Definition is_valid (self : RestrictionSet) (composition : gset Ship) : bool :=
  if size_limit self <? Z.of_nat (size composition) then false
  else match count_ships self (elements composition) ∅ with
       | None => false
       | Some rcounts => check_counts self rcounts
       end.

Definition is_full_team (self : RestrictionSet) (composition : gset Ship)
    : bool :=
  Z.of_nat (size composition) =? size_limit self.

Fixpoint team_compositions (self : RestrictionSet) (selected : gset Ship)
    (group : list Player) {struct group} : list (gset Ship) :=
  if is_full_team self selected && is_valid self selected then [selected]
  else match group with
       | [] => []
       | p :: rest =>
           flat_map (fun ship =>
                       team_compositions self (selected ∪ {[ ship ]}) rest)
                    (elements (ships p))
       end.

(** [Team.load(team_json)]: player name, then type symbol, to ship
    names. *)
Definition Team_load (team_info : gmap string (gmap string (list string)))
    : M RestrictionSet Team :=
  players ←
    foldM (fun players '(name, player_info) =>
             p ← Player_init name player_info; mret (players ∪ {[ p ]}))
          (∅ : gset Player) (map_to_list team_info);
  mret (mkTeam players).

(** [Team.generate_comps]: the width of the combinations is the literal
    [7]. *)
Definition generate_comps (self : Team) (restriction_set : RestrictionSet)
    : list (gset Ship) :=
  flat_map (fun group => team_compositions restriction_set ∅ group)
           (combinations (elements (players self)) 7).

Definition count (team_data : gmap string (gmap string (list string)))
    (restriction_data : gmap string json) : M RestrictionSet nat :=
  team ← Team_load team_data;
  restrictions ← RestrictionSet_load restriction_data 7;
  r ← read restrictions;
  let compgen := generate_comps team r in
  mret (length compgen).

End Teamcomp.

(** * The console: [Team.menu] and [comps] of fleetcomp.py

    Standard input is the list of the lines still to be read, standard
    output the list of what [print] has written so far. [input] at the end
    of standard input raises [EOFError]. *)

Module Console.
Import Stdlib.Strings.Ascii.
Import Fleetcomp.

(** What a [print] block writes. The lines of one composition (its header,
    one line per ship in the order of [sorted], the empty line) are one
    event; the text handed to [input] as its prompt is not recorded. *)
Inductive event :=
  | Prompt (team_size : Z) (options : list (Z * string))
  | InvalidSelection (selections : string)
  | WrongNumber (x : nat) (team_size : Z)
  | Composition (n : nat) (comp : gset Ship)
  | Expended (n : nat).

Record console := mkConsole {
  stdin : list string;
  stdout : list event;
}.

(** How a call ends: it returns, raises one of the exceptions of [exn],
    raises [Quit], or [input] finds no line. *)
Inductive outcome (A : Type) :=
  | Returns (a : A)
  | Raises (e : exn)
  | Quits
  | EndOfInput.
Arguments Returns {A} a.
Arguments Raises {A} e.
Arguments Quits {A}.
Arguments EndOfInput {A}.

(** The string operations of Python the two functions lean on. [int_strip]
    and [int_] give [None] where [int] raises [ValueError]. *)
Class Builtins := {
  casefold_contains_q : string → bool;    (* 'q' in s.casefold() *)
  casefold_startswith_q : string → bool;  (* s.casefold().startswith('q') *)
  int_strip : string → option Z;          (* int(s.strip()) *)
  int_ : string → option Z;               (* int(s) *)
  maxsize : Z;                            (* sys.maxsize *)
}.

(** [s.split(',')]: the pieces between the commas, at least one. *)
Fixpoint split_comma (s : string) : list string :=
  match s with
  | EmptyString => [EmptyString]
  | String c rest =>
      if Ascii.eqb c ","%char then EmptyString :: split_comma rest
      else match split_comma rest with
           | piece :: pieces => String c piece :: pieces
           | [] => [String c EmptyString]
           end
  end.

(** [{i: p.name for i, p in enumerate(self.players) if p}], in insertion
    order. *)
Definition menu_options (self : Team) : list (Z * string) :=
  omap (fun '(i, p) => if Player_bool p then Some (Z.of_nat i, pname p)
                       else None)
       (imap pair (elements (players self))).

Section WithBuiltins.
Context `{Builtins}.

(** [[int(s.strip()) for s in selections.split(',')]]. *)
Definition chosen_numbers (selections : string) : option (list Z) :=
  mapM int_strip (split_comma selections).

(** The [while True] loop of [menu], lines 140-157: one line of input per
    round. *)
Fixpoint menu_loop (team_size : Z) (options : list (Z * string))
    (input : list string) (output : list event)
    : outcome (list Z) * console :=
  let output := output ++ [Prompt team_size options] in
  match input with
  | [] => (EndOfInput, mkConsole [] output)
  | selections :: input =>
      if casefold_contains_q selections then (Quits, mkConsole input output)
      else
        match chosen_numbers selections with
        | None =>
            menu_loop team_size options input
                      (output ++ [InvalidSelection selections])
        | Some chosen =>
            let x := length chosen in
            if bool_decide (Z.of_nat x ≠ team_size) then
              menu_loop team_size options input
                        (output ++ [WrongNumber x team_size])
            else (Returns chosen, mkConsole input output)
        end
  end.

(** [Team.menu(team_size)]. [options[i]] for a number that is no option
    raises [KeyError]. *)
Definition menu (self : Team) (team_size : Z) (c : console)
    : outcome Team * console :=
  let options := menu_options self in
  if Z.of_nat (length options) <? team_size then (Raises ConfigurationError, c)
  else
    match menu_loop team_size options (stdin c) (stdout c) with
    | (Returns chosen, c) =>
        match mapM (fun i => (list_to_map options : gmap Z string) !! i)
                   chosen with
        | Some chosen_names =>
            (Returns (Team_select self (list_to_set chosen_names)), c)
        | None => (Raises KeyError, c)
        end
    | (Raises e, c) => (Raises e, c)
    | (Quits, c) => (Quits, c)
    | (EndOfInput, c) => (EndOfInput, c)
    end.

(** The [while True] loop of [comps], lines 177-194. [compgen] is what
    the generator has still to yield; [take(to_take, compgen)] is
    [list(islice(compgen, to_take))], and [islice] raises [ValueError] for
    a stop outside [0 .. sys.maxsize]. *)
Fixpoint comps_loop (compgen : list (gset Ship)) (n : nat) (to_take : Z)
    (input : list string) (output : list event) : outcome unit * console :=
  if bool_decide (to_take < 0 ∨ maxsize < to_take) then
    (Raises ValueError, mkConsole input output)
  else
    let comp_batch := take (Z.to_nat to_take) compgen in
    let compgen := drop (Z.to_nat to_take) compgen in
    match comp_batch with
    | [] => (Returns (), mkConsole input (output ++ [Expended n]))
    | _ :: _ =>
        let output :=
          output ++ imap (fun i comp => Composition (n + i) comp) comp_batch in
        let n := (n + length comp_batch)%nat in
        match input with
        | [] => (EndOfInput, mkConsole [] output)
        | instruction :: input =>
            if casefold_startswith_q instruction then
              (Returns (), mkConsole input output)
            else
              comps_loop compgen n (default 1 (int_ instruction)) input output
        end
    end.

(** [comps], lines 169-172: load the restrictions, apply the override,
    load the team for the tier of the restrictions. *)
Definition comps_load
    (team_data : gmap string (gmap string (gmap string (list string))))
    (restriction_data : gmap string json) (tso : option Z)
    : M RestrictionSet (Team * nat) :=
  restrictions ← RestrictionSet_load restriction_data 7;
  restrictions ← match tso with
                 | Some n => with_team_size restrictions n
                 | None => mret restrictions
                 end;
  r ← read restrictions;
  team ← Team_load team_data (tier r);
  mret (team, restrictions).

(** [comps], lines 173-194, for a loaded team and restriction set. The
    generator body starts to run at the first [take], where [combinations]
    raises for a negative width. *)
Definition comps_run (team : Team) (r : RestrictionSet) (c : console)
    : outcome unit * console :=
  match menu team (size_limit r) c with
  | (Returns division, c) =>
      match generate_comps division r with
      | Ok compgen => comps_loop compgen 1 1 (stdin c) (stdout c)
      | Raise e => (Raises e, c)
      end
  | (Raises e, c) => (Raises e, c)
  | (Quits, c) => (Quits, c)
  | (EndOfInput, c) => (EndOfInput, c)
  end.

Definition comps
    (team_data : gmap string (gmap string (gmap string (list string))))
    (restriction_data : gmap string json) (tso : option Z)
    (h : heap RestrictionSet) (c : console) : outcome unit * console :=
  match (loaded ← comps_load team_data restriction_data tso;
         r ← read loaded.2; mret (loaded.1, r)) h with
  | Ok ((team, r), _) => comps_run team r c
  | Raise e => (Raises e, c)
  end.

End WithBuiltins.

End Console.

(** * The dialogue of teamcomp.py

    [Team.menu] lists every player, makes no size check and takes the
    first line that parses; the loop of [comps] has no closing line. *)

Module TeamcompConsole.
Import Teamcomp Console.

(** [{i: p.name for i, p in enumerate(self.players)}]. *)
Definition menu_options (self : Team) : list (Z * string) :=
  imap (fun i p => (Z.of_nat i, pname p)) (elements (players self)).

Section WithBuiltins.
Context `{Builtins}.

(** The [while True] loop of [menu], lines 123-136. *)
Fixpoint menu_loop (team_size : Z) (options : list (Z * string))
    (input : list string) (output : list event)
    : outcome (list Z) * console :=
  let output := output ++ [Prompt team_size options] in
  match input with
  | [] => (EndOfInput, mkConsole [] output)
  | selections :: input =>
      if casefold_contains_q selections then (Quits, mkConsole input output)
      else
        match chosen_numbers selections with
        | Some chosen => (Returns chosen, mkConsole input output)
        | None =>
            menu_loop team_size options input
                      (output ++ [InvalidSelection selections])
        end
  end.

Definition menu (self : Team) (team_size : Z) (c : console)
    : outcome Team * console :=
  let options := menu_options self in
  match menu_loop team_size options (stdin c) (stdout c) with
  | (Returns chosen, c) =>
      match mapM (fun i => (list_to_map options : gmap Z string) !! i)
                 chosen with
      | Some chosen_names =>
          (Returns (Team_select self (list_to_set chosen_names)), c)
      | None => (Raises KeyError, c)
      end
  | (Raises e, c) => (Raises e, c)
  | (Quits, c) => (Quits, c)
  | (EndOfInput, c) => (EndOfInput, c)
  end.

(** The [while True] loop of [comps], lines 155-167: an empty batch does
    not end it. *)
Fixpoint comps_loop (compgen : list (gset Ship)) (n : nat) (to_take : Z)
    (input : list string) (output : list event) : outcome unit * console :=
  if bool_decide (to_take < 0 ∨ maxsize < to_take) then
    (Raises ValueError, mkConsole input output)
  else
    let comp_batch := take (Z.to_nat to_take) compgen in
    let compgen := drop (Z.to_nat to_take) compgen in
    let output :=
      output ++ imap (fun i comp => Composition (n + i) comp) comp_batch in
    let n := (n + length comp_batch)%nat in
    match input with
    | [] => (EndOfInput, mkConsole [] output)
    | instruction :: input =>
        if casefold_startswith_q instruction then
          (Returns (), mkConsole input output)
        else
          comps_loop compgen n (default 1 (int_ instruction)) input output
    end.

(** [comps], lines 151-167, for a loaded team and restriction set. *)
Definition comps_run (team : Team) (r : RestrictionSet) (c : console)
    : outcome unit * console :=
  match menu team (size_limit r) c with
  | (Returns division, c) =>
      comps_loop (generate_comps division r) 1 1 (stdin c) (stdout c)
  | (Raises e, c) => (Raises e, c)
  | (Quits, c) => (Quits, c)
  | (EndOfInput, c) => (EndOfInput, c)
  end.

Definition comps (team_data : gmap string (gmap string (list string)))
    (restriction_data : gmap string json)
    (h : heap RestrictionSet) (c : console) : outcome unit * console :=
  match (team ← Team_load team_data;
         restrictions ← RestrictionSet_load restriction_data 7;
         r ← read restrictions; mret (team, r)) h with
  | Ok ((team, r), _) => comps_run team r c
  | Raise e => (Raises e, c)
  end.

End WithBuiltins.

End TeamcompConsole.


(** * Vocabulary of the statements *)

(** A ship matches a rule: by name for a ["ships"] rule, by type for a
    ["types"] rule. *)
Definition matches (rinfo : Rule) (ship : Ship) : Prop :=
  match rtype rinfo with
  | Ships => name ship ∈ members rinfo
  | Types => ShipType_value (type ship) ∈ members rinfo
  end.

#[export] Instance matches_dec rinfo ship : Decision (matches rinfo ship).
Proof. unfold matches. destruct (rtype rinfo); apply _. Defined.

(** The number of ships of a composition that match a rule. *)
Definition tally (rinfo : Rule) (composition : gset Ship) : Z :=
  Z.of_nat (size (filter (matches rinfo) composition)).

(** Banned by name or by type. *)
Definition banned (names types : gset string) (ship : Ship) : Prop :=
  name ship ∈ names ∨ ShipType_value (type ship) ∈ types.

(** The bound of every counted rule is non-negative. *)
Definition allowed_nonneg (restrictions : gmap string Rule) : Prop :=
  map_Forall (fun _ rinfo => 0 ≤ allowed rinfo) restrictions.

(** The sum of the [+=] made to one rule's counter over a list of
    ships. *)
Fixpoint hits (rinfo : Rule) (l : list Ship) : Z :=
  match l with
  | [] => 0
  | ship :: rest => Z.b2z (Fleetcomp.rule_hit rinfo ship) + hits rinfo rest
  end.

(** A teamcomp restriction set read as a fleetcomp one (the tier is not
    looked at by the validator or the search). *)
Definition as_fleet (self : Teamcomp.RestrictionSet) : Fleetcomp.RestrictionSet :=
  Fleetcomp.mkRestrictionSet (Teamcomp.size_limit self) 10
    (Teamcomp.banned_ships self) (Teamcomp.banned_types self)
    (Teamcomp.restrictions self).

(** Every way of taking one ship from each player of a group, in order:
    the Cartesian product of the players' ship sets. *)
Fixpoint assignments (group : list Player) : list (list Ship) :=
  match group with
  | [] => [[]]
  | p :: rest =>
      flat_map (fun ship => cons ship <$> assignments rest)
               (elements (ships p))
  end.

(** A composition the rule set accepts as a team: valid, and of exactly
    the team size. *)
Definition accepted (self : Fleetcomp.RestrictionSet)
    (composition : gset Ship) : Prop :=
  Fleetcomp.is_valid self composition = true
  ∧ Z.of_nat (size composition) = Fleetcomp.size_limit self.

#[export] Instance accepted_dec self composition :
  Decision (accepted self composition).
Proof. unfold accepted. apply _. Defined.

(** The compositions found by hand for a group: every assignment of one
    ship per player, as a set, kept when it is accepted. *)
Definition manual_compositions (self : Fleetcomp.RestrictionSet)
    (group : list Player) : list (gset Ship) :=
  filter (accepted self) (list_to_set <$> assignments group).

(** The ships of a composition have pairwise distinct owners. *)
Definition distinct_owners (composition : gset Ship) : Prop :=
  ∀ a b, a ∈ composition → b ∈ composition → player a = player b → a = b.

(** A team as [Team.load] builds it: every ship carries the name of the
    player that holds it, and no two players share a name. *)
Definition wf_team (team : Team) : Prop :=
  set_Forall (fun p => set_Forall (fun s => player s = pname p) (ships p))
             (players team)
  ∧ set_Forall (fun p => set_Forall (fun q => pname p = pname q → p = q)
                           (players team))
               (players team).

(** The number of participating players: those with a non-empty ship
    set. *)
Definition participating (team : Team) : nat :=
  length (filter (fun p => Fleetcomp.Player_bool p = true)
            (elements (players team))).

(** A restriction set with one more banned ship name, or one more banned
    type symbol, and every other attribute unchanged. *)
Definition ban_ship (x : string) (self : Fleetcomp.RestrictionSet)
    : Fleetcomp.RestrictionSet :=
  Fleetcomp.mkRestrictionSet (Fleetcomp.size_limit self) (Fleetcomp.tier self)
    ({[ x ]} ∪ Fleetcomp.banned_ships self) (Fleetcomp.banned_types self)
    (Fleetcomp.restrictions self).

Definition ban_type (x : string) (self : Fleetcomp.RestrictionSet)
    : Fleetcomp.RestrictionSet :=
  Fleetcomp.mkRestrictionSet (Fleetcomp.size_limit self) (Fleetcomp.tier self)
    (Fleetcomp.banned_ships self) ({[ x ]} ∪ Fleetcomp.banned_types self)
    (Fleetcomp.restrictions self).

(** Two rule sets that differ only in their ban lists, the second banning
    at least what the first bans. *)
Definition bans_more (self self' : Fleetcomp.RestrictionSet) : Prop :=
  Fleetcomp.size_limit self' = Fleetcomp.size_limit self
  ∧ Fleetcomp.restrictions self' = Fleetcomp.restrictions self
  ∧ Fleetcomp.banned_ships self ⊆ Fleetcomp.banned_ships self'
  ∧ Fleetcomp.banned_types self ⊆ Fleetcomp.banned_types self'.

(** The number of compositions a run of [generate_comps] yields never
    exceeds that of another run, which fails if the first does. *)
Definition yields_at_most (r' r : result (list (gset Ship))) : Prop :=
  match r', r with
  | Ok l', Ok l => (length l' ≤ length l)%nat
  | Raise e', Raise e => e' = e
  | _, _ => False
  end.

(** ** The scenario of the specification

    Players A, B and C hold one ship each (Alpha, an SS; Bravo, a DD;
    Charlie, an SS); the rule "no double SS" allows one SS. The object
    identities are those [Team.load] hands out on [ex_team_json], starting
    from identity 1. *)

Definition ex_team_json
    : gmap string (gmap string (gmap string (list string))) :=
  {[ "A" := {[ "10" := {[ "SS" := ["Alpha"] ]} ]};
     "B" := {[ "10" := {[ "DD" := ["Bravo"] ]} ]};
     "C" := {[ "10" := {[ "SS" := ["Charlie"] ]} ]} ]}.

Definition ex_rules (team_size : Z) : gmap string json :=
  {[ "TeamSize" := JInt team_size;
     "no double SS" := JRule (mkRule Types ["SS"] 1) ]}.

Definition ex_alpha := mkShip 4 "Alpha" SS "A".
Definition ex_bravo := mkShip 6 "Bravo" DD "B".
Definition ex_charlie := mkShip 2 "Charlie" SS "C".

Definition ex_A := mkPlayer 3 "A" {[ ex_alpha ]}.
Definition ex_B := mkPlayer 5 "B" {[ ex_bravo ]}.
Definition ex_C := mkPlayer 1 "C" {[ ex_charlie ]}.

Definition ex_team : Team := mkTeam {[ ex_A; ex_B; ex_C ]}.

Definition ex_comp : gset Ship := {[ ex_alpha; ex_bravo ]}.

Definition ex_rs (team_size : Z) : Fleetcomp.RestrictionSet :=
  Fleetcomp.mkRestrictionSet team_size 10 ∅ ∅
    {[ "no double SS" := mkRule Types ["SS"] 1 ]}.

Definition ex_rs_teamcomp (team_size : Z) : Teamcomp.RestrictionSet :=
  Teamcomp.mkRestrictionSet team_size ∅ ∅
    {[ "no double SS" := mkRule Types ["SS"] 1 ]}.

(** The ships a player's dictionary lists, as pairs of type symbol and
    ship name, in the order [Player.__init__] visits them. *)
Definition listed (items : list (string * list string))
    : list (string * string) :=
  flat_map (fun '(ship_type_str, ship_list) => pair ship_type_str <$> ship_list)
           items.

(** The ships made by the loops of [Player.__init__] once the pairs [made]
    have been visited: one ship object for each, with identities handed
    out from [first] on. *)
Definition ships_made {R} (owner : string) (first : positive)
    (made : list (string * string)) (shipset : gset Ship) (h : heap R)
    : Prop :=
  size shipset = length made
  ∧ (∀ s, s ∈ shipset →
          player s = owner
          ∧ (first ≤ ship_id s < next_id h)%positive
          ∧ (ShipType_value (type s), name s) ∈ made)
  ∧ (∀ ship_type_str ship_name,
       (ship_type_str, ship_name) ∈ made →
       ∃ s, s ∈ shipset ∧ name s = ship_name
            ∧ ShipType_value (type s) = ship_type_str)
  ∧ (first ≤ next_id h)%positive.

(** The blocks [comps] prints for a list of compositions, numbered from
    [n] on. *)
Definition numbered (n : nat) (l : list (gset Ship)) : list Console.event :=
  imap (fun i comp => Console.Composition (n + i) comp) l.

(** Stand-ins for the string operations of Python that agree with them on
    the lines typed in the examples. *)
Definition ex_int (s : string) : option Z :=
  if bool_decide (s = "0") then Some 0
  else if bool_decide (s = "1") then Some 1
  else if bool_decide (s = "2") then Some 2
  else if bool_decide (s = "7") then Some 7
  else if bool_decide (s = "-1") then Some (-1)
  else None.

Definition ex_builtins : Console.Builtins := {|
  Console.casefold_contains_q s := bool_decide (s = "q" ∨ s = "Q");
  Console.casefold_startswith_q s := bool_decide (s = "q" ∨ s = "Q");
  Console.int_strip := ex_int;
  Console.int_ := ex_int;
  Console.maxsize := 2 ^ 63 - 1;
|}.

(** A computation that neither reads nor writes the stored restriction
    sets: on another store it gives the same result and leaves that store
    as it found it. *)
Definition store_untouched {R A} (m : M R A) : Prop :=
  ∀ n rs rs',
    m (mkHeap n rs')
    = match m (mkHeap n rs) with
      | Ok (a, h') => Ok (a, mkHeap (next_id h') rs')
      | Raise e => Raise e
      end.

(** * The validator *)

Section Validator.
Import Fleetcomp.

Lemma is_banned_spec (self : RestrictionSet) (ship : Ship) :
  is_banned self ship = true ↔
  banned (banned_ships self) (banned_types self) ship.
Proof.
  unfold is_banned, banned.
  rewrite orb_true_iff, !bool_decide_eq_true. reflexivity.
Qed.

Lemma rule_hit_spec (rinfo : Rule) (ship : Ship) :
  rule_hit rinfo ship = bool_decide (matches rinfo ship).
Proof.
  destruct rinfo as [[] ms n]; unfold rule_hit; simpl;
    apply bool_decide_ext; reflexivity.
Qed.

(** One pass over the rules adds, for each rule, the hit of this ship to
    the rule's counter and touches no other key. *)
Lemma foldl_counter_add_lookup (ship : Ship) (items : list (string * Rule))
    (rcounts : gmap string Z) (k : string) :
  NoDup items.*1 →
  foldl (fun rc '(rname, rinfo) => counter_add rc rname (rule_hit rinfo ship))
        rcounts items !! k
  = match (list_to_map items : gmap string Rule) !! k with
    | Some rinfo =>
        Some (default 0 (rcounts !! k) + Z.b2z (rule_hit rinfo ship))
    | None => rcounts !! k
    end.
Proof.
  revert rcounts.
  induction items as [|[rname rinfo] items IH]; intros rcounts Hnd.
  - reflexivity.
  - cbn [foldl fmap list_fmap fst list_to_map foldr uncurry] in *.
    apply NoDup_cons in Hnd as [Hfresh Hnd].
    rewrite IH by exact Hnd.
    unfold counter_add.
    destruct (decide (rname = k)) as [->|Hne].
    + rewrite lookup_insert_eq.
      rewrite (not_elem_of_list_to_map_1 (M := gmap string)) by exact Hfresh.
      rewrite lookup_insert_eq. reflexivity.
    + rewrite !lookup_insert_ne by exact Hne. reflexivity.
Qed.

Lemma count_rules_lookup (self : RestrictionSet) (ship : Ship)
    (rcounts : gmap string Z) (k : string) :
  count_rules self ship rcounts !! k
  = match restrictions self !! k with
    | Some rinfo =>
        Some (default 0 (rcounts !! k) + Z.b2z (rule_hit rinfo ship))
    | None => rcounts !! k
    end.
Proof.
  unfold count_rules.
  rewrite foldl_counter_add_lookup by apply NoDup_fst_map_to_list.
  rewrite list_to_map_to_list. reflexivity.
Qed.

Lemma hits_nonneg rinfo l : 0 ≤ hits rinfo l.
Proof. induction l as [|s l IH]; simpl; [lia|]. destruct (rule_hit _ _); simpl; lia. Qed.

Lemma hits_filter rinfo l :
  hits rinfo l = Z.of_nat (length (filter (matches rinfo) l)).
Proof.
  induction l as [|s l IH]; [reflexivity|].
  simpl hits. rewrite rule_hit_spec, filter_cons.
  destruct (decide (matches rinfo s)) as [Hm|Hm].
  - rewrite bool_decide_eq_true_2 by exact Hm.
    cbn [Z.b2z length]. rewrite IH. lia.
  - rewrite bool_decide_eq_false_2 by exact Hm.
    cbn [Z.b2z]. rewrite IH. lia.
Qed.

Lemma count_ships_None self l rcounts :
  count_ships self l rcounts = None ↔ ∃ ship, ship ∈ l ∧ is_banned self ship = true.
Proof.
  revert rcounts. induction l as [|s l IH]; intros rcounts; simpl.
  - split; [discriminate|]. intros (x & Hx & _). inversion Hx.
  - destruct (is_banned self s) eqn:Hb.
    + split; [|reflexivity]. intros _. exists s. split; [apply elem_of_cons; left; reflexivity|exact Hb].
    + rewrite IH. split.
      * intros (x & Hx & Hbx). exists x.
        split; [apply elem_of_cons; right; exact Hx|exact Hbx].
      * intros (x & Hx & Hbx). apply elem_of_cons in Hx as [->|Hx].
        -- congruence.
        -- exists x. split; assumption.
Qed.

(** After the outer loop a counter exists for every rule as soon as one
    ship was visited, and holds the hits of that rule. *)
Lemma count_ships_lookup self l rcounts rcounts' k :
  count_ships self l rcounts = Some rcounts' →
  rcounts' !! k
  = match restrictions self !! k, l with
    | Some rinfo, _ :: _ => Some (default 0 (rcounts !! k) + hits rinfo l)
    | _, _ => rcounts !! k
    end.
Proof.
  revert rcounts. induction l as [|s l IH]; intros rcounts; simpl.
  - intros [= <-]. destruct (restrictions self !! k); reflexivity.
  - destruct (is_banned self s); [discriminate|].
    intros H. rewrite (IH _ H), count_rules_lookup.
    destruct (restrictions self !! k) as [rinfo|] eqn:Hk.
    + destruct l as [|s' l]; simpl.
      * f_equal. lia.
      * f_equal. lia.
    + destruct l; reflexivity.
Qed.

Lemma check_counts_spec self (rcounts : gmap string Z) :
  check_counts self rcounts = true ↔
  ∀ k c, rcounts !! k = Some c →
         ∃ rinfo, restrictions self !! k = Some rinfo ∧ c ≤ allowed rinfo.
Proof.
  unfold check_counts. rewrite forallb_forall. split.
  - intros H k c Hk.
    specialize (H (k, c)). simpl in H.
    destruct (restrictions self !! k) as [rinfo|].
    + exists rinfo. split; [reflexivity|].
      apply negb_true_iff, Z.ltb_ge in H; [exact H|].
      apply list_elem_of_In, elem_of_map_to_list. exact Hk.
    + discriminate H. apply list_elem_of_In, elem_of_map_to_list. exact Hk.
  - intros H [k c] Hin.
    apply list_elem_of_In, elem_of_map_to_list in Hin.
    destruct (H k c Hin) as (rinfo & -> & Hle).
    apply negb_true_iff, Z.ltb_ge. exact Hle.
Qed.

Lemma forallb_false_elem {A} (f : A → bool) (l : list A) :
  forallb f l = false → ∃ x, x ∈ l ∧ f x = false.
Proof.
  induction l as [|a l IH]; simpl; [discriminate|].
  destruct (f a) eqn:Ha; simpl.
  - intros H. destruct (IH H) as (x & Hx & Hfx).
    exists x. split; [apply elem_of_cons; right; exact Hx|exact Hfx].
  - intros _. exists a. split; [apply elem_of_cons; left; reflexivity|exact Ha].
Qed.

Lemma size_filter_elements (P : Ship → Prop) `{!∀ x, Decision (P x)}
    (X : gset Ship) :
  size (filter P X) = length (filter P (elements X)).
Proof.
  unfold size, set_size. simpl.
  apply Permutation_length, NoDup_Permutation.
  - apply NoDup_elements.
  - apply NoDup_filter, NoDup_elements.
  - intros x.
    rewrite elem_of_elements, elem_of_filter, list_elem_of_filter,
      elem_of_elements.
    reflexivity.
Qed.

Lemma tally_hits rinfo (composition : gset Ship) :
  tally rinfo composition = hits rinfo (elements composition).
Proof. unfold tally. rewrite size_filter_elements, hits_filter. reflexivity. Qed.

Lemma tally_empty rinfo : tally rinfo ∅ = 0.
Proof. rewrite tally_hits, elements_empty. reflexivity. Qed.

Lemma tally_nonneg rinfo c : 0 ≤ tally rinfo c.
Proof. unfold tally. lia. Qed.

(** What [is_valid] decides. The counters exist only once a ship has been
    visited, so the bounds are not looked at for the empty composition. *)
Lemma is_valid_false_iff (self : RestrictionSet) (composition : gset Ship) :
  is_valid self composition = false ↔
  size_limit self < Z.of_nat (size composition)
  ∨ (∃ ship, ship ∈ composition
             ∧ banned (banned_ships self) (banned_types self) ship)
  ∨ (composition ≠ ∅
     ∧ ∃ rname rinfo, restrictions self !! rname = Some rinfo
                      ∧ allowed rinfo < tally rinfo composition).
Proof.
  unfold is_valid.
  destruct (size_limit self <? Z.of_nat (size composition)) eqn:Hsize.
  { apply Z.ltb_lt in Hsize. split; [intros _; left; exact Hsize|reflexivity]. }
  apply Z.ltb_ge in Hsize.
  destruct (count_ships self (elements composition) ∅) as [rcounts|] eqn:Hc.
  - assert (Hnb : ∀ ship, ship ∈ composition → is_banned self ship = false).
    { intros ship Hin. apply not_true_iff_false. intros Hb.
      assert (count_ships self (elements composition) ∅ = None) as Hn.
      { apply count_ships_None. exists ship.
        split; [apply elem_of_elements; exact Hin|exact Hb]. }
      congruence. }
    pose proof (fun k => count_ships_lookup _ _ _ _ k Hc) as Hlook.
    split.
    + intros Hf. right. right.
      apply forallb_false_elem in Hf as ([k c] & Hin & Hf).
      apply elem_of_map_to_list in Hin.
      rewrite Hlook, lookup_empty in Hin.
      destruct (restrictions self !! k) as [rinfo|] eqn:Hk; [|discriminate].
      destruct (elements composition) as [|s l] eqn:He; [discriminate|].
      injection Hin as <-. simpl default in Hf.
      split.
      * intros ->. rewrite elements_empty in He. discriminate.
      * exists k, rinfo. split; [exact Hk|].
        rewrite tally_hits, He.
        apply negb_false_iff, Z.ltb_lt in Hf. cbn [hits]. lia.
    + intros [Hlt|[(ship & Hin & Hb)|(Hne & k & rinfo & Hk & Hlt)]].
      * lia.
      * apply is_banned_spec in Hb. rewrite (Hnb ship Hin) in Hb. discriminate.
      * apply not_true_iff_false. intros Hchk.
        destruct (elements composition) as [|s l] eqn:He.
        { apply elements_empty_inv in He. apply leibniz_equiv in He.
          contradiction. }
        rewrite check_counts_spec in Hchk.
        specialize (Hlook k). rewrite Hk, lookup_empty in Hlook.
        destruct (Hchk _ _ Hlook) as (rinfo' & Hk' & Hle).
        rewrite Hk in Hk'. injection Hk' as <-.
        rewrite tally_hits, He in Hlt. cbn [default hits] in Hle, Hlt. lia.
  - apply count_ships_None in Hc as (ship & Hin & Hb).
    split; [|reflexivity]. intros _. right. left.
    exists ship. split; [apply elem_of_elements; exact Hin|].
    apply is_banned_spec. exact Hb.
Qed.

Lemma is_valid_true_iff (self : RestrictionSet) (composition : gset Ship) :
  is_valid self composition = true ↔
  Z.of_nat (size composition) ≤ size_limit self
  ∧ (∀ ship, ship ∈ composition →
             ¬ banned (banned_ships self) (banned_types self) ship)
  ∧ (composition ≠ ∅ →
     ∀ rname rinfo, restrictions self !! rname = Some rinfo →
                    tally rinfo composition ≤ allowed rinfo).
Proof.
  rewrite <- not_false_iff_true, is_valid_false_iff. split.
  - intros H. split; [|split].
    + destruct (Z_lt_le_dec (size_limit self) (Z.of_nat (size composition)));
        [exfalso; apply H; left; assumption|assumption].
    + intros ship Hin Hb. apply H. right. left. exists ship. split; assumption.
    + intros Hne k rinfo Hk.
      destruct (Z_lt_le_dec (allowed rinfo) (tally rinfo composition));
        [exfalso|assumption].
      apply H. right. right. split; [exact Hne|]. exists k, rinfo.
      split; assumption.
  - intros (Hsz & Hnb & Hcnt) [Hlt|[(ship & Hin & Hb)|(Hne & k & rinfo & Hk & Hlt)]].
    + lia.
    + exact (Hnb ship Hin Hb).
    + specialize (Hcnt Hne k rinfo Hk). lia.
Qed.

End Validator.


(** * Claims about the validator *)

Section ValidatorClaims.
Import Fleetcomp.

(** C5. For a rule set whose bounds are non-negative, [is_valid] returns
    false exactly when the composition is larger than the team size, or
    holds a banned ship, or some counted rule is matched by more ships
    than it allows; otherwise it returns true. [is_banned] is true exactly
    for a ship whose name is a banned name or whose type is a banned
    type. *)
Theorem validator_contract (self : RestrictionSet) (composition : gset Ship) :
  allowed_nonneg (restrictions self) →
  (is_valid self composition = false ↔
     size_limit self < Z.of_nat (size composition)
     ∨ (∃ ship, ship ∈ composition
                ∧ banned (banned_ships self) (banned_types self) ship)
     ∨ (∃ rname rinfo, restrictions self !! rname = Some rinfo
                       ∧ allowed rinfo < tally rinfo composition))
  ∧ (is_valid self composition = true ↔
       Z.of_nat (size composition) ≤ size_limit self
       ∧ (∀ ship, ship ∈ composition →
                  ¬ banned (banned_ships self) (banned_types self) ship)
       ∧ (∀ rname rinfo, restrictions self !! rname = Some rinfo →
                         tally rinfo composition ≤ allowed rinfo))
  ∧ (∀ ship, is_banned self ship = true ↔
             banned (banned_ships self) (banned_types self) ship).
Proof.
  intros Hnn.
  assert (Hempty : ∀ rname rinfo, restrictions self !! rname = Some rinfo →
                                  tally rinfo ∅ ≤ allowed rinfo).
  { intros rname rinfo Hk. rewrite tally_empty. exact (Hnn rname rinfo Hk). }
  split; [|split].
  - rewrite is_valid_false_iff. split.
    + intros [H|[H|(_ & H)]]; [left|right; left|right; right]; exact H.
    + intros [H|[H|(rname & rinfo & Hk & Hlt)]]; [left; exact H|right; left; exact H|].
      right. right. split; [|exists rname, rinfo; split; assumption].
      intros ->. specialize (Hempty rname rinfo Hk). lia.
  - rewrite is_valid_true_iff. split.
    + intros (Hsz & Hnb & Hcnt). split; [exact Hsz|split; [exact Hnb|]].
      intros rname rinfo Hk.
      destruct (decide (composition = ∅)) as [->|Hne].
      * exact (Hempty rname rinfo Hk).
      * exact (Hcnt Hne rname rinfo Hk).
    + intros (Hsz & Hnb & Hcnt). split; [exact Hsz|split; [exact Hnb|]].
      intros _. exact Hcnt.
  - intros ship. apply is_banned_spec.
Qed.

Lemma validator_contract_witness :
  allowed_nonneg (restrictions (ex_rs 2))
  ∧ (is_valid (ex_rs 2) ex_comp = true ↔
       Z.of_nat (size ex_comp) ≤ size_limit (ex_rs 2)
       ∧ (∀ ship, ship ∈ ex_comp →
                  ¬ banned (banned_ships (ex_rs 2)) (banned_types (ex_rs 2))
                      ship)
       ∧ (∀ rname rinfo, restrictions (ex_rs 2) !! rname = Some rinfo →
                         tally rinfo ex_comp ≤ allowed rinfo)).
Proof.
  assert (H : allowed_nonneg (restrictions (ex_rs 2))).
  { unfold allowed_nonneg. apply (bool_decide_unpack _). vm_compute. exact I. }
  split; [exact H|].
  exact (proj1 (proj2 (validator_contract (ex_rs 2) ex_comp H))).
Defined.

End ValidatorClaims.

(** * The search *)

Section ListFacts.
Context {A B : Type}.

Lemma flat_map_nil_all (f : A → list B) (l : list A) :
  (∀ x, x ∈ l → f x = []) → flat_map f l = [].
Proof.
  induction l as [|a l IH]; intros H; simpl; [reflexivity|].
  rewrite (H a) by (apply elem_of_cons; left; reflexivity).
  apply IH. intros x Hx. apply H, elem_of_cons. right. exact Hx.
Qed.

Lemma flat_map_ext_elem (f g : A → list B) (l : list A) :
  (∀ x, x ∈ l → f x = g x) → flat_map f l = flat_map g l.
Proof.
  induction l as [|a l IH]; intros H; simpl; [reflexivity|].
  rewrite (H a) by (apply elem_of_cons; left; reflexivity).
  f_equal. apply IH. intros x Hx. apply H, elem_of_cons. right. exact Hx.
Qed.

Lemma flat_map_sublist (f g : A → list B) (l : list A) :
  (∀ x, f x `sublist_of` g x) → flat_map f l `sublist_of` flat_map g l.
Proof.
  intros H. induction l as [|a l IH]; simpl; [constructor|].
  apply sublist_app; [apply H|exact IH].
Qed.

Lemma filter_flat_map (P : B → Prop) `{!∀ x, Decision (P x)}
    (f : A → list B) (l : list A) :
  filter P (flat_map f l) = flat_map (fun x => filter P (f x)) l.
Proof.
  induction l as [|a l IH]; simpl; [reflexivity|].
  rewrite filter_app, IH. reflexivity.
Qed.

Lemma fmap_flat_map {C} (g : B → C) (f : A → list B) (l : list A) :
  g <$> flat_map f l = flat_map (fun x => g <$> f x) l.
Proof.
  induction l as [|a l IH]; simpl; [reflexivity|].
  rewrite fmap_app, IH. reflexivity.
Qed.

Lemma elem_of_flat_map (f : A → list B) (l : list A) (y : B) :
  y ∈ flat_map f l ↔ ∃ x, x ∈ l ∧ y ∈ f x.
Proof.
  rewrite list_elem_of_In, in_flat_map. split.
  - intros (x & Hx & Hy). exists x. rewrite !list_elem_of_In. split; assumption.
  - intros (x & Hx & Hy). exists x. rewrite <- !list_elem_of_In. split; assumption.
Qed.

End ListFacts.

Section Combinations.
Context {A : Type}.

Lemma combinations_spec (pool : list A) (r : nat) (group : list A) :
  group ∈ combinations pool r → group `sublist_of` pool ∧ length group = r.
Proof.
  revert r group. induction pool as [|x xs IH]; intros [|r] group; simpl.
  - intros ->%list_elem_of_singleton. split; [constructor|reflexivity].
  - intros H. inversion H.
  - intros ->%list_elem_of_singleton. split; [apply sublist_nil_l|reflexivity].
  - rewrite elem_of_app, list_elem_of_fmap.
    intros [(g & -> & Hg)|Hg].
    + destruct (IH _ _ Hg) as [Hs Hl]. split; [apply sublist_skip, Hs|simpl; lia].
    + destruct (IH _ _ Hg) as [Hs Hl]. split; [apply sublist_cons, Hs|exact Hl].
Qed.

Lemma combinations_too_wide (pool : list A) (r : nat) :
  (length pool < r)%nat → combinations pool r = [].
Proof.
  revert r. induction pool as [|x xs IH]; intros [|r] H; simpl in *;
    try lia; [reflexivity|].
  rewrite (IH r), (IH (S r)) by lia. reflexivity.
Qed.

Lemma combinations_all (pool : list A) :
  combinations pool (length pool) = [pool].
Proof.
  induction pool as [|x xs IH]; simpl; [reflexivity|].
  rewrite IH, combinations_too_wide by lia. reflexivity.
Qed.

End Combinations.

Section Search.
Import Fleetcomp.

Lemma accepted_test (self : RestrictionSet) (c : gset Ship) :
  is_valid self c && is_full_team self c = true ↔ accepted self c.
Proof.
  unfold accepted, is_full_team. rewrite andb_true_iff, Z.eqb_eq. reflexivity.
Qed.

Lemma size_union_singleton_le (X : gset Ship) (s : Ship) :
  (size (X ∪ {[ s ]}) ≤ S (size X))%nat.
Proof.
  destruct (decide (s ∈ X)) as [Hin|Hout].
  - rewrite (comm_L (∪)), (subseteq_union_1_L {[ s ]} X).
    + lia.
    + apply singleton_subseteq_l. exact Hin.
  - rewrite size_union by set_solver. rewrite size_singleton. lia.
Qed.

Lemma size_union_singleton_ge (X : gset Ship) (s : Ship) :
  (size X ≤ size (X ∪ {[ s ]}))%nat.
Proof. apply subseteq_size. set_solver. Qed.

(** One step of the search. *)
Lemma team_compositions_unfold self selected group :
  team_compositions self selected group
  = if is_valid self selected && is_full_team self selected then [selected]
    else match group with
         | [] => []
         | p :: rest =>
             flat_map (fun ship =>
                         team_compositions self (selected ∪ {[ ship ]}) rest)
                      (elements (ships p))
         end.
Proof. destruct group; reflexivity. Qed.

(** While the selection cannot be full before the group is used up, the
    search is the filter of the leaves. *)
Lemma team_compositions_leaves self selected group :
  Z.of_nat (size selected) + Z.of_nat (length group) ≤ size_limit self →
  team_compositions self selected group
  = filter (accepted self)
      ((fun picks => selected ∪ list_to_set picks) <$> assignments group).
Proof.
  revert selected. induction group as [|p rest IH]; intros selected Hsz.
  - simpl. rewrite filter_cons, filter_nil.
    rewrite (right_id_L ∅ (∪)).
    destruct (decide (accepted self selected)) as [Ha|Ha].
    + apply accepted_test in Ha. rewrite Ha. reflexivity.
    + destruct (is_valid self selected && is_full_team self selected) eqn:Ht;
        [|reflexivity].
      apply accepted_test in Ht. contradiction.
  - rewrite team_compositions_unfold.
    assert (is_full_team self selected = false) as ->.
    { unfold is_full_team. apply Z.eqb_neq. simpl length in Hsz. lia. }
    rewrite andb_false_r. cbn [assignments].
    rewrite fmap_flat_map, filter_flat_map.
    apply flat_map_ext_elem. intros ship _.
    rewrite IH.
    + rewrite <- list_fmap_compose. f_equal.
      apply list_fmap_ext. intros _ picks _. simpl.
      rewrite (assoc_L (∪)). reflexivity.
    + pose proof (size_union_singleton_le selected ship).
      simpl length in Hsz. lia.
Qed.

End Search.

(** * teamcomp.py against fleetcomp.py

    The validator and the search of teamcomp.py compute what those of
    fleetcomp.py compute on the same attributes. *)

Section Bridge.

Lemma teamcomp_count_ships self l rcounts :
  Teamcomp.count_ships self l rcounts
  = Fleetcomp.count_ships (as_fleet self) l rcounts.
Proof.
  revert rcounts. induction l as [|s l IH]; intros rcounts; simpl;
    [reflexivity|].
  change (Teamcomp.is_banned self s) with (Fleetcomp.is_banned (as_fleet self) s).
  destruct (Fleetcomp.is_banned (as_fleet self) s); [reflexivity|].
  apply IH.
Qed.

Lemma teamcomp_is_valid self composition :
  Teamcomp.is_valid self composition
  = Fleetcomp.is_valid (as_fleet self) composition.
Proof.
  unfold Teamcomp.is_valid, Fleetcomp.is_valid.
  rewrite teamcomp_count_ships. reflexivity.
Qed.

Lemma teamcomp_is_full_team self composition :
  Teamcomp.is_full_team self composition
  = Fleetcomp.is_full_team (as_fleet self) composition.
Proof. reflexivity. Qed.

Lemma teamcomp_team_compositions self selected group :
  Teamcomp.team_compositions self selected group
  = Fleetcomp.team_compositions (as_fleet self) selected group.
Proof.
  revert selected. induction group as [|p rest IH]; intros selected; simpl;
    rewrite teamcomp_is_valid, teamcomp_is_full_team, andb_comm;
    destruct (_ && _); try reflexivity.
  apply flat_map_ext_elem. intros ship _. apply IH.
Qed.

End Bridge.

(** * Claims about the search *)

Section SearchClaims.

(** C1. For a group of exactly [size_limit] players, the compositions
    yielded by [team_compositions] from the empty selection are, order
    aside and counted with multiplicity, the assignments of one ship per
    player of the group that [is_valid] accepts and that have [size_limit]
    ships. This holds for the generator of fleetcomp.py and for the one of
    teamcomp.py. *)
Theorem enumerator_complete
    (self : Fleetcomp.RestrictionSet) (self' : Teamcomp.RestrictionSet)
    (group group' : list Player) :
  Z.of_nat (length group) = Fleetcomp.size_limit self →
  Z.of_nat (length group') = Teamcomp.size_limit self' →
  Fleetcomp.team_compositions self ∅ group ≡ₚ manual_compositions self group
  ∧ Teamcomp.team_compositions self' ∅ group'
    ≡ₚ manual_compositions (as_fleet self') group'.
Proof.
  intros Hlen Hlen'.
  assert (Hleaves : ∀ rs g, Z.of_nat (length g) = Fleetcomp.size_limit rs →
            Fleetcomp.team_compositions rs ∅ g = manual_compositions rs g).
  { intros rs g Hg. rewrite team_compositions_leaves.
    - unfold manual_compositions. f_equal.
      apply list_fmap_ext. intros _ picks _. apply (left_id_L ∅ (∪)).
    - rewrite size_empty. lia. }
  split.
  - rewrite Hleaves by exact Hlen. reflexivity.
  - rewrite teamcomp_team_compositions, Hleaves by exact Hlen'. reflexivity.
Qed.

Lemma enumerator_complete_witness :
  Z.of_nat (length [ex_A; ex_B; ex_C]) = Fleetcomp.size_limit (ex_rs 3)
  ∧ Z.of_nat (length [ex_A; ex_B]) = Teamcomp.size_limit (ex_rs_teamcomp 2)
  ∧ Fleetcomp.team_compositions (ex_rs 3) ∅ [ex_A; ex_B; ex_C]
    ≡ₚ manual_compositions (ex_rs 3) [ex_A; ex_B; ex_C]
  ∧ Teamcomp.team_compositions (ex_rs_teamcomp 2) ∅ [ex_A; ex_B]
    ≡ₚ manual_compositions (as_fleet (ex_rs_teamcomp 2)) [ex_A; ex_B].
Proof.
  split; [reflexivity|split; [reflexivity|]].
  apply (enumerator_complete (ex_rs 3) (ex_rs_teamcomp 2)); reflexivity.
Defined.

(** C10. With a non-negative team size the empty composition is valid;
    with team size 0 the search yields the empty composition at once, for
    any group. *)
Theorem empty_composition (self : Fleetcomp.RestrictionSet) :
  0 ≤ Fleetcomp.size_limit self →
  Fleetcomp.is_valid self ∅ = true
  ∧ (Fleetcomp.size_limit self = 0 →
     ∀ group, Fleetcomp.team_compositions self ∅ group = [∅]).
Proof.
  intros Hnn.
  assert (Hv : Fleetcomp.is_valid self ∅ = true).
  { apply is_valid_true_iff. rewrite size_empty. split; [lia|split].
    - intros ship Hin. exfalso. exact (not_elem_of_empty ship Hin).
    - intros Hne. contradiction. }
  split; [exact Hv|].
  intros H0 group. rewrite team_compositions_unfold, Hv.
  unfold Fleetcomp.is_full_team. rewrite size_empty, H0. reflexivity.
Qed.

Lemma empty_composition_witness :
  0 ≤ Fleetcomp.size_limit (ex_rs 0)
  ∧ Fleetcomp.is_valid (ex_rs 0) ∅ = true
  ∧ Fleetcomp.team_compositions (ex_rs 0) ∅ [ex_A; ex_B; ex_C] = [∅].
Proof.
  assert (H : 0 ≤ Fleetcomp.size_limit (ex_rs 0)) by (simpl; lia).
  destruct (empty_composition (ex_rs 0) H) as [Hv Hs].
  split; [exact H|split; [exact Hv|]]. apply Hs. reflexivity.
Defined.

End SearchClaims.

(** * Monotonicity in the ban lists *)

Section Monotone.
Import Fleetcomp.

(** A selection larger than the team size yields nothing. *)
Lemma team_compositions_over self selected group :
  size_limit self < Z.of_nat (size selected) →
  team_compositions self selected group = [].
Proof.
  revert selected. induction group as [|p rest IH]; intros selected Hsz;
    rewrite team_compositions_unfold;
    (assert (is_full_team self selected = false) as ->
       by (unfold is_full_team; apply Z.eqb_neq; lia));
    rewrite andb_false_r; [reflexivity|].
  apply flat_map_nil_all. intros ship _. apply IH.
  pose proof (size_union_singleton_ge selected ship). lia.
Qed.

(** A full selection that is not valid yields nothing either: adding a
    ship leaves it as it is or makes it too large. *)
Lemma team_compositions_full_invalid self selected group :
  is_full_team self selected = true →
  is_valid self selected = false →
  team_compositions self selected group = [].
Proof.
  intros Hfull Hinv.
  induction group as [|p rest IH];
    rewrite team_compositions_unfold, Hinv; simpl; [reflexivity|].
  apply flat_map_nil_all. intros ship _.
  destruct (decide (ship ∈ selected)) as [Hin|Hout].
  - rewrite (comm_L (∪)), (subseteq_union_1_L {[ ship ]} selected).
    + exact IH.
    + apply singleton_subseteq_l. exact Hin.
  - apply team_compositions_over.
    unfold is_full_team in Hfull. apply Z.eqb_eq in Hfull.
    rewrite size_union, size_singleton by set_solver. lia.
Qed.

Lemma is_valid_bans_more self self' composition :
  bans_more self self' →
  is_valid self' composition = true → is_valid self composition = true.
Proof.
  intros (Hsz & Hr & Hs & Ht).
  rewrite !is_valid_true_iff, Hsz, Hr.
  intros (H1 & H2 & H3). split; [exact H1|split; [|exact H3]].
  intros ship Hin [Hb|Hb]; apply (H2 ship Hin); [left|right]; set_solver.
Qed.

Lemma team_compositions_bans_more self self' selected group :
  bans_more self self' →
  team_compositions self' selected group
  `sublist_of` team_compositions self selected group.
Proof.
  intros Hmore.
  assert (Hfull : ∀ sel, is_full_team self' sel = is_full_team self sel).
  { intros sel. unfold is_full_team. destruct Hmore as [-> _]. reflexivity. }
  revert selected. induction group as [|p rest IH]; intros selected.
  all: rewrite (team_compositions_unfold self), (team_compositions_unfold self').
  all: destruct (is_valid self' selected && is_full_team self' selected) eqn:Ht'.
  1,3: apply andb_true_iff in Ht' as [Hv' Hf'];
       rewrite (is_valid_bans_more _ _ _ Hmore Hv'), <- Hfull, Hf'; reflexivity.
  all: destruct (is_valid self selected && is_full_team self selected) eqn:Ht.
  2: constructor.
  3: apply flat_map_sublist; intros ship; apply IH.
  all: apply andb_true_iff in Ht as [Hv Hf]; rewrite <- Hfull in Hf.
  all: rewrite Hf, andb_true_r in Ht'.
  - apply sublist_nil_l.
  - pose proof (team_compositions_full_invalid self' selected (p :: rest) Hf Ht')
      as Hnil.
    rewrite team_compositions_unfold, Ht' in Hnil. simpl in Hnil.
    rewrite Hnil. apply sublist_nil_l.
Qed.

End Monotone.

Section MonotoneClaims.
Import Fleetcomp.

Lemma ban_ship_more x self : bans_more self (ban_ship x self).
Proof. unfold bans_more, ban_ship; simpl. repeat split; set_solver. Qed.

Lemma ban_type_more x self : bans_more self (ban_type x self).
Proof. unfold bans_more, ban_type; simpl. repeat split; set_solver. Qed.

Lemma generate_comps_bans_more team self self' :
  bans_more self self' →
  yields_at_most (generate_comps team self') (generate_comps team self).
Proof.
  intros Hmore. unfold generate_comps, yields_at_most.
  destruct Hmore as (Hsz & Hrest). rewrite Hsz.
  destruct (size_limit self <? 0); [reflexivity|].
  apply sublist_length, flat_map_sublist. intros group.
  apply team_compositions_bans_more. split; assumption.
Qed.

(** C7. A rule set with one more banned name, or one more banned type,
    and otherwise the same: every composition valid under it is valid
    under the original, and for any team [generate_comps] yields no more
    compositions than under the original (and fails exactly when the
    original fails). *)
Theorem ban_monotonicity (self : RestrictionSet) (x : string) (team : Team) :
  (∀ c, is_valid (ban_ship x self) c = true → is_valid self c = true)
  ∧ (∀ c, is_valid (ban_type x self) c = true → is_valid self c = true)
  ∧ yields_at_most (generate_comps team (ban_ship x self))
                   (generate_comps team self)
  ∧ yields_at_most (generate_comps team (ban_type x self))
                   (generate_comps team self).
Proof.
  split; [|split; [|split]].
  - intros c. apply is_valid_bans_more, ban_ship_more.
  - intros c. apply is_valid_bans_more, ban_type_more.
  - apply generate_comps_bans_more, ban_ship_more.
  - apply generate_comps_bans_more, ban_type_more.
Qed.

Lemma ban_monotonicity_witness :
  is_valid (ban_ship "Charlie" (ex_rs 2)) ex_comp = true
  ∧ is_valid (ex_rs 2) ex_comp = true.
Proof.
  assert (H : is_valid (ban_ship "Charlie" (ex_rs 2)) ex_comp = true)
    by (vm_compute; reflexivity).
  split; [exact H|].
  exact (proj1 (ban_monotonicity (ex_rs 2) "Charlie" ex_team) ex_comp H).
Defined.

End MonotoneClaims.

(** * Exactness *)

Section Exact.
Import Fleetcomp.

(** A yielded composition is accepted, and is the selection plus one ship
    from each player of a prefix of the group. *)
Lemma team_compositions_picks self selected group c :
  c ∈ team_compositions self selected group →
  accepted self c
  ∧ ∃ picks, c = selected ∪ list_to_set picks
             ∧ Forall2 (fun s p => s ∈ ships p) picks
                       (take (length picks) group).
Proof.
  revert selected. induction group as [|p rest IH]; intros selected;
    rewrite team_compositions_unfold;
    destruct (is_valid self selected && is_full_team self selected) eqn:Ht.
  1,3: intros ->%list_elem_of_singleton; split; [apply accepted_test, Ht|];
       exists []; split; [simpl; rewrite (right_id_L ∅ (∪)); reflexivity
                         |constructor].
  - intros H. inversion H.
  - intros (ship & Hship & Hc)%elem_of_flat_map.
    destruct (IH _ Hc) as (Hacc & picks & -> & Hpicks).
    split; [exact Hacc|]. exists (ship :: picks). split.
    + simpl. rewrite (assoc_L (∪)). reflexivity.
    + simpl. constructor; [apply elem_of_elements, Hship|exact Hpicks].
Qed.

Lemma picks_owners (picks : list Ship) (ps : list Player) :
  Forall2 (fun s p => s ∈ ships p) picks ps →
  (∀ p s, p ∈ ps → s ∈ ships p → player s = pname p) →
  player <$> picks = pname <$> ps.
Proof.
  induction 1 as [|s p picks ps Hs _ IH]; intros Hown; simpl; [reflexivity|].
  f_equal.
  - apply Hown; [apply elem_of_cons; left; reflexivity|exact Hs].
  - apply IH. intros q t Hq. apply Hown, elem_of_cons. right. exact Hq.
Qed.

Lemma NoDup_fmap_eq {A B} (f : A → B) (l : list A) (a b : A) :
  NoDup (f <$> l) → a ∈ l → b ∈ l → f a = f b → a = b.
Proof.
  induction l as [|x l IH]; simpl; intros Hnd Ha Hb Hab; [inversion Ha|].
  apply NoDup_cons in Hnd as [Hx Hnd].
  apply elem_of_cons in Ha as [->|Ha]; apply elem_of_cons in Hb as [->|Hb].
  - reflexivity.
  - exfalso. apply Hx. rewrite Hab. apply list_elem_of_fmap_2. exact Hb.
  - exfalso. apply Hx. rewrite <- Hab. apply list_elem_of_fmap_2. exact Ha.
  - apply IH; assumption.
Qed.

(** The search from the empty selection over players with distinct names,
    each holding ships that carry its name. *)
Lemma team_compositions_exact self group c :
  (∀ p s, p ∈ group → s ∈ ships p → player s = pname p) →
  NoDup (pname <$> group) →
  c ∈ team_compositions self ∅ group →
  Z.of_nat (size c) = size_limit self
  ∧ distinct_owners c
  ∧ is_valid self c = true.
Proof.
  intros Hown Hnd Hc.
  destruct (team_compositions_picks _ _ _ _ Hc)
    as ((Hv & Hsz) & picks & -> & Hpicks).
  split; [exact Hsz|split; [|exact Hv]].
  assert (Hnd' : NoDup (player <$> picks)).
  { rewrite (picks_owners _ _ Hpicks).
    - apply (sublist_NoDup _ (pname <$> group)); [exact Hnd|].
      apply fmap_sublist, sublist_take.
    - intros p s Hp. apply Hown.
      apply (sublist_subseteq _ _ (sublist_take group (length picks))), Hp. }
  intros a b Ha Hb Hab.
  rewrite (left_id_L ∅ (∪)) in Ha, Hb.
  apply elem_of_list_to_set in Ha, Hb.
  exact (NoDup_fmap_eq player picks a b Hnd' Ha Hb Hab).
Qed.

Lemma wf_team_group team group :
  wf_team team →
  group `sublist_of` elements (players team) →
  (∀ p s, p ∈ group → s ∈ ships p → player s = pname p)
  ∧ NoDup (pname <$> group).
Proof.
  intros [Hown Hnames] Hsub. split.
  - intros p s Hp Hs. apply (Hown p); [|exact Hs].
    apply elem_of_elements, (sublist_subseteq _ _ Hsub), Hp.
  - apply (sublist_NoDup _ (pname <$> elements (players team)));
      [|apply fmap_sublist, Hsub].
    apply NoDup_fmap_2_strong; [|apply NoDup_elements].
    intros p q Hp Hq. apply Hnames; apply elem_of_elements; assumption.
Qed.

(** C2. Every composition that [generate_comps] yields for a team as
    [Team.load] builds it has exactly [size_limit] ships, no two of them
    of the same owner, and is valid. *)
Theorem enumerator_exact (team : Team) (self : RestrictionSet)
    (comps : list (gset Ship)) (c : gset Ship) :
  wf_team team →
  generate_comps team self = Ok comps →
  c ∈ comps →
  Z.of_nat (size c) = size_limit self
  ∧ distinct_owners c
  ∧ is_valid self c = true.
Proof.
  intros Hwf Hgen Hc. unfold generate_comps in Hgen.
  destruct (size_limit self <? 0); [discriminate|].
  injection Hgen as <-.
  apply elem_of_flat_map in Hc as (group & Hgroup & Hc).
  apply combinations_spec in Hgroup as [Hsub _].
  destruct (wf_team_group _ _ Hwf Hsub) as [Hown Hnd].
  exact (team_compositions_exact self group c Hown Hnd Hc).
Qed.

End Exact.

Lemma enumerator_exact_witness :
  wf_team ex_team
  ∧ Fleetcomp.generate_comps ex_team (ex_rs 2)
    = Ok [ ex_comp; {[ ex_charlie; ex_bravo ]} ]
  ∧ ex_comp ∈ [ ex_comp; {[ ex_charlie; ex_bravo ]} ]
  ∧ Z.of_nat (size ex_comp) = Fleetcomp.size_limit (ex_rs 2)
  ∧ distinct_owners ex_comp
  ∧ Fleetcomp.is_valid (ex_rs 2) ex_comp = true.
Proof.
  assert (Hwf : wf_team ex_team).
  { split; apply (bool_decide_unpack _); vm_compute; exact I. }
  assert (Hgen : Fleetcomp.generate_comps ex_team (ex_rs 2)
                 = Ok [ ex_comp; {[ ex_charlie; ex_bravo ]} ])
    by reflexivity.
  assert (Hin : ex_comp ∈ [ ex_comp; ({[ ex_charlie; ex_bravo ]} : gset Ship) ]).
  { apply elem_of_cons. left. reflexivity. }
  split; [exact Hwf|split; [exact Hgen|split; [exact Hin|]]].
  exact (enumerator_exact ex_team (ex_rs 2) _ ex_comp Hwf Hgen Hin).
Defined.

Lemma ex_team_loaded :
  Fleetcomp.Team_load ex_team_json 10 (mkHeap 1 []) = Ok (ex_team, mkHeap 7 []).
Proof.
  vm_cast_no_check
    (eq_refl (Fleetcomp.Team_load ex_team_json 10 (mkHeap 1 []))).
Qed.

(** * Objects: copies and identity *)

Section Objects.
Import Fleetcomp.

Lemma with_team_size_spec (h : heap RestrictionSet) (self : nat)
    (r : RestrictionSet) (n : Z) :
  rsets h !! self = Some r →
  with_team_size self n h
  = Ok (length (rsets h),
        mkHeap (next_id h)
          (rsets h ++ [mkRestrictionSet n (tier r) (banned_ships r)
                         (banned_types r) (restrictions r)])).
Proof.
  intros Hself.
  unfold with_team_size, deepcopy, read, alloc, update, mbind, M_bind, mret,
    M_ret.
  rewrite Hself. simpl.
  rewrite lookup_app_r, Nat.sub_diag by lia. simpl.
  rewrite insert_app_r_alt, Nat.sub_diag by lia. reflexivity.
Qed.

(** C6. [with_team_size] returns a new restriction set whose team size is
    [n] and whose other attributes are those of the original; the
    original, and every other stored object, is as before the call. A
    second call on the same original, with another size, again leaves the
    original and the first result as they are. *)
Theorem with_team_size_pure (h : heap RestrictionSet) (self : nat)
    (r : RestrictionSet) (n m : Z) :
  rsets h !! self = Some r →
  ∃ new h',
    with_team_size self n h = Ok (new, h')
    ∧ new ≠ self
    ∧ rsets h' !! new
      = Some (mkRestrictionSet n (tier r) (banned_ships r) (banned_types r)
                (restrictions r))
    ∧ rsets h' !! self = Some r
    ∧ (∀ l, l ≠ new → rsets h' !! l = rsets h !! l)
    ∧ ∃ new' h'',
        with_team_size self m h' = Ok (new', h'')
        ∧ new' ≠ new ∧ new' ≠ self
        ∧ rsets h'' !! new'
          = Some (mkRestrictionSet m (tier r) (banned_ships r)
                    (banned_types r) (restrictions r))
        ∧ rsets h'' !! new = rsets h' !! new
        ∧ rsets h'' !! self = Some r.
Proof.
  intros Hself.
  pose proof (lookup_lt_Some _ _ _ Hself) as Hlt.
  eexists _, _. split; [apply (with_team_size_spec h self r n Hself)|].
  simpl.
  assert (Hself' : (rsets h ++ [mkRestrictionSet n (tier r) (banned_ships r)
                                  (banned_types r) (restrictions r)]) !! self
                   = Some r)
    by (rewrite lookup_app_l by exact Hlt; exact Hself).
  split; [lia|split; [|split; [exact Hself'|split]]].
  - rewrite lookup_app_r, Nat.sub_diag by lia. reflexivity.
  - intros l Hl. destruct (decide (l < length (rsets h))%nat) as [Hin|Hout].
    + rewrite lookup_app_l by exact Hin. reflexivity.
    + rewrite !lookup_ge_None_2; [reflexivity|lia|].
      rewrite length_app. simpl. lia.
  - eexists _, _. split.
    + apply (with_team_size_spec _ self r m). exact Hself'.
    + simpl. rewrite length_app. simpl.
      split; [lia|split; [lia|split; [|split]]].
      * rewrite lookup_app_r; rewrite length_app; simpl; [|lia].
        replace (length (rsets h) + 1 - (length (rsets h) + 1))%nat with 0%nat
          by lia.
        reflexivity.
      * rewrite (lookup_app_l (_ ++ _)); [reflexivity|].
        rewrite length_app. simpl. lia.
      * rewrite lookup_app_l; [exact Hself'|].
        rewrite length_app. simpl. lia.
Qed.

Lemma with_team_size_pure_witness :
  ∃ new h',
    with_team_size 0 3 (mkHeap 7 [ex_rs 4]) = Ok (new, h')
    ∧ rsets h' !! 0%nat = Some (ex_rs 4)
    ∧ rsets h' !! new = Some (ex_rs 3).
Proof.
  destruct (with_team_size_pure (mkHeap 7 [ex_rs 4]) 0 (ex_rs 4) 3 2 eq_refl)
    as (new & h' & Hcall & _ & Hnew & Hself & _).
  exists new, h'. split; [exact Hcall|split; [exact Hself|exact Hnew]].
Defined.

End Objects.

Section Identity.

(** C8 (what the code does). Two ships constructed one after the other
    from the same name, type and player have equal attribute tuples and
    equal hashes, yet [==] is false on them and a set holds both: [Ship]
    defines [__hash__] on the tuple and no [__eq__]. So a player whose
    list names a ship twice holds two ships. *)
Theorem ship_equality_is_identity
    (h : heap Fleetcomp.RestrictionSet) (ship_name : string) (t : ShipType)
    (owner : string) (tuple_hash : string * ShipType * string → Z) :
  (∃ a b h',
     (a ← Ship_init ship_name (inl t) owner;
      b ← Ship_init ship_name (inl t) owner;
      mret (a, b)) h = Ok ((a, b), h')
     ∧ (name a, type a, player a) = (name b, type b, player b)
     ∧ Ship_hash tuple_hash a = Ship_hash tuple_hash b
     ∧ Ship_eq a b = false
     ∧ size ({[ a ]} ∪ {[ b ]} : gset Ship) = 2%nat)
  ∧ match Player_init "A" {[ "SS" := ["Alpha"; "Alpha"] ]}
            (mkHeap 1 ([] : list Fleetcomp.RestrictionSet)) with
    | Ok (p, _) => size (ships p) = 2%nat
    | Raise _ => False
    end.
Proof.
  split.
  - eexists _, _, _. split; [reflexivity|].
    split; [reflexivity|split; [reflexivity|split]].
    + unfold Ship_eq. cbn [ship_id next_id].
      apply bool_decide_eq_false. lia.
    + rewrite size_union, !size_singleton; [reflexivity|].
      apply disjoint_singleton_l. rewrite elem_of_singleton.
      cbn [next_id]. intros [= H]. lia.
  - vm_compute. reflexivity.
Qed.

End Identity.

(** * The constructor and the caller's dictionary *)

Section Constructor.

Lemma popped_lookup (rules : gmap string json) :
  let rules' := delete "Tier" (delete "TeamSize" (delete "Banned" rules)) in
  rules' !! "Banned" = None ∧ rules' !! "TeamSize" = None
  ∧ rules' !! "Tier" = None.
Proof.
  simpl. split; [|split].
  - rewrite !lookup_delete_ne by discriminate. apply lookup_delete_eq.
  - rewrite lookup_delete_ne by discriminate. apply lookup_delete_eq.
  - apply lookup_delete_eq.
Qed.

Lemma fleetcomp_init_again rules team_size tier r1 :
  (Fleetcomp.RestrictionSet_init rules team_size tier).2 = Ok r1 →
  (Fleetcomp.RestrictionSet_init
     (Fleetcomp.RestrictionSet_init rules team_size tier).1 team_size tier).2
  = Ok (Fleetcomp.mkRestrictionSet team_size tier ∅ ∅
          (Fleetcomp.restrictions r1)).
Proof.
  destruct (popped_lookup rules) as (Hb & Hs & Ht).
  unfold Fleetcomp.RestrictionSet_init, dict_pop. cbn [fst snd].
  rewrite Hb, (delete_id _ _ Hb), Hs, (delete_id _ _ Hs), Ht,
    (delete_id _ _ Ht).
  cbn [default]. rewrite lookup_empty. cbn [default].
  destruct (default (JBans ∅) (rules !! "Banned"));
    destruct (default (JInt team_size) (delete "Banned" rules !! "TeamSize"));
    destruct (default (JInt tier)
                (delete "TeamSize" (delete "Banned" rules) !! "Tier"));
    try discriminate.
  destruct (Fleetcomp.init_rules _ ∅) as [rr|e]; [|discriminate].
  intros [= <-]. reflexivity.
Qed.

Lemma teamcomp_init_again rules team_size r1 :
  (Teamcomp.RestrictionSet_init rules team_size).2 = Ok r1 →
  (Teamcomp.RestrictionSet_init
     (Teamcomp.RestrictionSet_init rules team_size).1 team_size).2
  = Ok (Teamcomp.mkRestrictionSet team_size ∅ ∅ (Teamcomp.restrictions r1)).
Proof.
  assert (Hb : delete "TeamSize" (delete "Banned" rules) !! "Banned" = None)
    by (rewrite lookup_delete_ne by discriminate; apply lookup_delete_eq).
  assert (Hs : delete "TeamSize" (delete "Banned" rules) !! "TeamSize" = None)
    by apply lookup_delete_eq.
  unfold Teamcomp.RestrictionSet_init, dict_pop. cbn [fst snd].
  rewrite Hb, (delete_id _ _ Hb), Hs, (delete_id _ _ Hs).
  cbn [default]. rewrite lookup_empty. cbn [default].
  destruct (default (JBans ∅) (rules !! "Banned"));
    destruct (default (JInt team_size) (delete "Banned" rules !! "TeamSize"));
    try discriminate.
  destruct (Fleetcomp.init_rules _ ∅) as [rr|e]; [|discriminate].
  intros [= <-]. reflexivity.
Qed.

End Constructor.

Section ConstructorClaims.

(** C9. [RestrictionSet.__init__] leaves the caller's dictionary without
    its ["Banned"] and ["TeamSize"] entries (and, in fleetcomp.py, without
    ["Tier"]). A second restriction set constructed from the same
    dictionary therefore gets the default team size and tier and empty ban
    lists, with the same counted rules: it differs from the first as soon
    as the dictionary gave another team size or tier, or banned
    anything. *)
Theorem init_consumes_rules (rules : gmap string json) (team_size tier : Z) :
  (Fleetcomp.RestrictionSet_init rules team_size tier).1
  = delete "Tier" (delete "TeamSize" (delete "Banned" rules))
  ∧ (Teamcomp.RestrictionSet_init rules team_size).1
    = delete "TeamSize" (delete "Banned" rules)
  ∧ (∀ r1,
       (Fleetcomp.RestrictionSet_init rules team_size tier).2 = Ok r1 →
       ∃ r2,
         (Fleetcomp.RestrictionSet_init
            (Fleetcomp.RestrictionSet_init rules team_size tier).1
            team_size tier).2 = Ok r2
         ∧ r2 = Fleetcomp.mkRestrictionSet team_size tier ∅ ∅
                  (Fleetcomp.restrictions r1)
         ∧ (Fleetcomp.size_limit r1 ≠ team_size ∨ Fleetcomp.tier r1 ≠ tier
            ∨ Fleetcomp.banned_ships r1 ≠ ∅ ∨ Fleetcomp.banned_types r1 ≠ ∅ →
            r2 ≠ r1))
  ∧ (∀ r1,
       (Teamcomp.RestrictionSet_init rules team_size).2 = Ok r1 →
       ∃ r2,
         (Teamcomp.RestrictionSet_init
            (Teamcomp.RestrictionSet_init rules team_size).1 team_size).2
         = Ok r2
         ∧ r2 = Teamcomp.mkRestrictionSet team_size ∅ ∅
                  (Teamcomp.restrictions r1)
         ∧ (Teamcomp.size_limit r1 ≠ team_size
            ∨ Teamcomp.banned_ships r1 ≠ ∅ ∨ Teamcomp.banned_types r1 ≠ ∅ →
            r2 ≠ r1)).
Proof.
  split; [reflexivity|split; [reflexivity|split]].
  - intros r1 H1. eexists. split; [apply fleetcomp_init_again, H1|].
    split; [reflexivity|].
    intros Hdiff Heq. rewrite <- Heq in Hdiff. simpl in Hdiff.
    destruct Hdiff as [H|[H|[H|H]]]; apply H; reflexivity.
  - intros r1 H1. eexists. split; [apply teamcomp_init_again, H1|].
    split; [reflexivity|].
    intros Hdiff Heq. rewrite <- Heq in Hdiff. simpl in Hdiff.
    destruct Hdiff as [H|[H|H]]; apply H; reflexivity.
Qed.

Lemma init_consumes_rules_witness :
  (Fleetcomp.RestrictionSet_init (ex_rules 2) 7 10).2 = Ok (ex_rs 2)
  ∧ ∃ r2,
      (Fleetcomp.RestrictionSet_init
         (Fleetcomp.RestrictionSet_init (ex_rules 2) 7 10).1 7 10).2 = Ok r2
      ∧ r2 ≠ ex_rs 2.
Proof.
  assert (H1 : (Fleetcomp.RestrictionSet_init (ex_rules 2) 7 10).2
               = Ok (ex_rs 2)) by reflexivity.
  split; [exact H1|].
  destruct (proj1 (proj2 (proj2 (init_consumes_rules (ex_rules 2) 7 10)))
              (ex_rs 2) H1) as (r2 & H2 & _ & Hne).
  exists r2. split; [exact H2|].
  apply Hne. left. simpl. lia.
Defined.

End ConstructorClaims.

(** * The size check and the width of the combinations *)

Section Drivers.
Import Fleetcomp.

Lemma filter_sublist_mono {A} (P : A → Prop) `{!∀ x, Decision (P x)}
    (l1 l2 : list A) :
  l1 `sublist_of` l2 → filter P l1 `sublist_of` filter P l2.
Proof.
  induction 1 as [|x l1 l2 _ IH|x l1 l2 _ IH].
  - constructor.
  - rewrite !filter_cons. destruct (decide (P x));
      [apply sublist_skip|]; exact IH.
  - rewrite filter_cons. destruct (decide (P x));
      [apply sublist_cons|]; exact IH.
Qed.

(** A group wider than the number of participating players holds a player
    without ships. *)
Lemma group_has_idle_player team (group : list Player) :
  group `sublist_of` elements (players team) →
  (participating team < length group)%nat →
  ∃ p, p ∈ group ∧ ships p = ∅.
Proof.
  intros Hsub Hlen.
  destruct (decide (Forall (fun p => Player_bool p = true) group))
    as [Hall|Hnot].
  - exfalso.
    pose proof (sublist_length _ _
      (filter_sublist_mono (fun p => Player_bool p = true) _ _ Hsub)) as Hle.
    assert (Hid : filter (fun p => Player_bool p = true) group = group).
    { clear -Hall. induction Hall as [|p l Hp _ IH]; [reflexivity|].
      rewrite filter_cons_True by exact Hp. rewrite IH. reflexivity. }
    rewrite Hid in Hle. unfold participating in Hlen. lia.
  - apply not_Forall_Exists in Hnot; [|intros p; apply _].
    apply Exists_exists in Hnot as (p & Hp & Hb).
    exists p. split; [exact Hp|].
    unfold Player_bool in Hb. apply not_true_is_false in Hb.
    apply bool_decide_eq_false in Hb.
    destruct (decide (ships p = ∅)) as [He|Hne]; [exact He|].
    exfalso. exact (Hb Hne).
Qed.

Lemma assignments_idle_player (group : list Player) (p : Player) :
  p ∈ group → ships p = ∅ → assignments group = [].
Proof.
  intros Hp He. induction group as [|q rest IH]; [inversion Hp|].
  simpl. apply elem_of_cons in Hp as [<-|Hp].
  - rewrite He, elements_empty. reflexivity.
  - rewrite (IH Hp). apply flat_map_nil_all. intros ship _. reflexivity.
Qed.

(** [generate_comps] makes no size check of its own: with a team size
    above the number of participating players it yields nothing. *)
Lemma generate_comps_silent (team : Team) (self : RestrictionSet) :
  Z.of_nat (participating team) < size_limit self →
  generate_comps team self = Ok [].
Proof.
  intros Hlt. unfold generate_comps.
  destruct (size_limit self <? 0) eqn:Hneg; [apply Z.ltb_lt in Hneg; lia|].
  f_equal. apply flat_map_nil_all. intros group Hgroup.
  apply combinations_spec in Hgroup as [Hsub Hlen].
  rewrite team_compositions_leaves by (rewrite size_empty; lia).
  destruct (group_has_idle_player team group Hsub) as (p & Hp & He); [lia|].
  rewrite (assignments_idle_player group p Hp He). reflexivity.
Qed.

Lemma count_run_guard (team : Team) (ref : nat) (r : RestrictionSet)
    (h : heap RestrictionSet) :
  rsets h !! ref = Some r →
  Z.of_nat (participating team) < size_limit r →
  count_run team ref h = Raise ConfigurationError.
Proof.
  intros Href Hlt.
  unfold count_run, read, mbind, M_bind. rewrite Href.
  fold (participating team).
  apply Z.ltb_lt in Hlt. rewrite Hlt. reflexivity.
Qed.

End Drivers.

Section DriverClaims.
Import Fleetcomp.

(** C3 as stated fails: [generate_comps], the entry point of the
    enumeration, reports nothing for team size 4 and three participating
    players; it yields the empty sequence. *)
Lemma error_before_search_counterexample :
  Z.of_nat (participating ex_team) < size_limit (ex_rs 4)
  ∧ generate_comps ex_team (ex_rs 4) = Ok []
  ∧ generate_comps ex_team (ex_rs 4) ≠ Raise ConfigurationError.
Proof.
  assert (Hlt : Z.of_nat (participating ex_team) < size_limit (ex_rs 4))
    by (vm_compute; reflexivity).
  split; [exact Hlt|].
  rewrite (generate_comps_silent _ _ Hlt). split; [reflexivity|discriminate].
Qed.

(** C3, amended. In fleetcomp.py the size check is made by [count], the
    caller of the enumeration: when the team size exceeds the number of
    participating players, [count] raises [ConfigurationError] before
    [generate_comps] is called. [generate_comps] itself would have yielded
    nothing. *)
Theorem count_reports_before_search
    (team_data : gmap string (gmap string (gmap string (list string))))
    (restriction_data : gmap string json) (tso : option Z)
    (h h1 : heap RestrictionSet) (team : Team) (ref : nat)
    (r : RestrictionSet) :
  count_load team_data restriction_data tso h = Ok ((team, ref), h1) →
  rsets h1 !! ref = Some r →
  Z.of_nat (participating team) < size_limit r →
  count team_data restriction_data tso h = Raise ConfigurationError
  ∧ generate_comps team r = Ok [].
Proof.
  intros Hload Href Hlt. split.
  - unfold count, mbind, M_bind. rewrite Hload.
    apply (count_run_guard team ref r h1 Href Hlt).
  - apply generate_comps_silent, Hlt.
Qed.

Lemma ex_count_load :
  count_load ex_team_json (ex_rules 4) None (mkHeap 1 [])
  = Ok ((ex_team, 0%nat), mkHeap 7 [ex_rs 4]).
Proof.
  vm_cast_no_check
    (eq_refl (count_load ex_team_json (ex_rules 4) None (mkHeap 1 []))).
Qed.

Lemma count_reports_before_search_witness :
  count_load ex_team_json (ex_rules 4) None (mkHeap 1 [])
  = Ok ((ex_team, 0%nat), mkHeap 7 [ex_rs 4])
  ∧ Z.of_nat (participating ex_team) < size_limit (ex_rs 4)
  ∧ count ex_team_json (ex_rules 4) None (mkHeap 1 [])
    = Raise ConfigurationError
  ∧ generate_comps ex_team (ex_rs 4) = Ok [].
Proof.
  assert (Hlt : Z.of_nat (participating ex_team) < size_limit (ex_rs 4))
    by (vm_compute; reflexivity).
  split; [exact ex_count_load|split; [exact Hlt|]].
  exact (count_reports_before_search _ _ _ _ _ _ _ _ ex_count_load eq_refl Hlt).
Defined.

(** In fleetcomp.py the width of the combinations is the team size: a team
    of exactly that many players is searched in one pass. *)
Lemma fleetcomp_single_pass (team : Team) (self : RestrictionSet) :
  Z.of_nat (size (players team)) = size_limit self →
  generate_comps team self
  = Ok (team_compositions self ∅ (elements (players team))).
Proof.
  intros Hsz. unfold generate_comps.
  destruct (size_limit self <? 0) eqn:Hneg; [apply Z.ltb_lt in Hneg; lia|].
  rewrite <- Hsz, Nat2Z.id.
  change (size (players team)) with (length (elements (players team))).
  rewrite combinations_all. simpl. rewrite app_nil_r. reflexivity.
Qed.

(** C4 (what the code does). In teamcomp.py the width of the combinations
    is 7 whatever the team size: a team of fewer than seven players yields
    nothing. On the scenario of the specification (three players, team
    size 2) [generate_comps] yields no composition, where combinations of
    width [size_limit] give the two expected ones, as fleetcomp.py
    does. *)
Theorem teamcomp_width_is_seven :
  (∀ team self, (size (players team) < 7)%nat →
                Teamcomp.generate_comps team self = [])
  ∧ Teamcomp.generate_comps ex_team (ex_rs_teamcomp 2) = []
  ∧ flat_map (Teamcomp.team_compositions (ex_rs_teamcomp 2) ∅)
      (combinations (elements (players ex_team))
         (Z.to_nat (Teamcomp.size_limit (ex_rs_teamcomp 2))))
    = [ ex_comp; {[ ex_charlie; ex_bravo ]} ]
  ∧ generate_comps ex_team (ex_rs 2) = Ok [ ex_comp; {[ ex_charlie; ex_bravo ]} ].
Proof.
  assert (Hwide : ∀ team self, (size (players team) < 7)%nat →
                               Teamcomp.generate_comps team self = []).
  { intros team self Hsz. unfold Teamcomp.generate_comps.
    rewrite combinations_too_wide; [reflexivity|exact Hsz]. }
  split; [exact Hwide|split; [|split]].
  - apply Hwide. vm_compute. lia.
  - reflexivity.
  - reflexivity.
Qed.

End DriverClaims.

(** * Loaded teams are well formed *)

Section Loading.
Context {R : Type}.

Lemma bind_Ok {A B} (m : M R A) (f : A → M R B) h b h' :
  (m ≫= f) h = Ok (b, h') →
  ∃ a h1, m h = Ok (a, h1) ∧ f a h1 = Ok (b, h').
Proof.
  unfold mbind, M_bind. destruct (m h) as [[a h1]|e]; [|discriminate].
  intros H. exists a, h1. split; [reflexivity|exact H].
Qed.

(** An invariant of a loop: it may depend on the items visited so far. *)
Lemma foldM_invariant {A B} (I : list A → B → Prop) (f : B → A → M R B)
    (l : list A) (b0 : B) :
  I [] b0 →
  (∀ pre a post b h b' h',
     l = pre ++ a :: post → I pre b → f b a h = Ok (b', h') →
     I (pre ++ [a]) b') →
  ∀ h b' h', foldM f b0 l h = Ok (b', h') → I l b'.
Proof.
  intros H0 Hstep.
  assert (Hgen : ∀ post pre b, l = pre ++ post → I pre b →
            ∀ h b' h', foldM f b post h = Ok (b', h') → I l b').
  { induction post as [|a post IH]; intros pre b Hl Hb h b' h' Hrun.
    - simpl in Hrun. injection Hrun as <- <-.
      rewrite Hl, app_nil_r. exact Hb.
    - simpl in Hrun. apply bind_Ok in Hrun as (b1 & h1 & Hf & Hrun).
      apply (IH (pre ++ [a]) b1) with (h := h1) (h' := h'); [| |exact Hrun].
      + rewrite <- app_assoc. exact Hl.
      + exact (Hstep pre a post b h b1 h1 Hl Hb Hf). }
  intros h b' h'. apply (Hgen l [] b0); [reflexivity|exact H0].
Qed.

Lemma Player_init_owner (name : string) (ships_info : gmap string (list string))
    (h h' : heap R) (p : Player) :
  Player_init name ships_info h = Ok (p, h') →
  pname p = name ∧ ∀ s, s ∈ ships p → player s = name.
Proof.
  unfold Player_init. intros Hrun.
  apply bind_Ok in Hrun as (i & h1 & _ & Hrun).
  apply bind_Ok in Hrun as (shipset & h2 & Hfold & Hret).
  injection Hret as <- <-. simpl. split; [reflexivity|].
  revert Hfold.
  apply (foldM_invariant
           (fun _ (shipset : gset Ship) => ∀ s, s ∈ shipset → player s = name)).
  - intros s Hs. exfalso. exact (not_elem_of_empty s Hs).
  - intros pre [ship_type_str ship_list] post b h3 b' h4 _ Hb.
    apply (foldM_invariant
             (fun _ (shipset : gset Ship) =>
                ∀ s, s ∈ shipset → player s = name)); [exact Hb|].
    intros pre' ship_name post' c h5 c' h6 _ Hc Hstep.
    apply bind_Ok in Hstep as (t & h7 & _ & Hstep).
    apply bind_Ok in Hstep as (ship & h8 & Hship & Hret).
    injection Hret as <- <-.
    unfold Ship_init in Hship.
    apply bind_Ok in Hship as (j & h9 & _ & Hship).
    apply bind_Ok in Hship as (t' & h10 & _ & Hret).
    injection Hret as <- _.
    intros s [Hs|Hs]%elem_of_union; [exact (Hc s Hs)|].
    apply elem_of_singleton in Hs as ->. reflexivity.
Qed.

End Loading.

(** [Team.load] builds well-formed teams: the hypothesis of C2 holds of
    every team the program enumerates. *)
Lemma Team_load_wf
    (team_info : gmap string (gmap string (gmap string (list string))))
    (tier : Z) (h h' : heap Fleetcomp.RestrictionSet) (team : Team) :
  Fleetcomp.Team_load team_info tier h = Ok (team, h') → wf_team team.
Proof.
  unfold Fleetcomp.Team_load. intros Hrun.
  apply bind_Ok in Hrun as (ps & h1 & Hfold & Hret).
  injection Hret as <- <-.
  assert (Hinv : (∀ p, p ∈ ps →
                    pname p ∈ (map_to_list team_info).*1
                    ∧ ∀ s, s ∈ ships p → player s = pname p)
                 ∧ ∀ p q, p ∈ ps → q ∈ ps → pname p = pname q → p = q).
  { revert Hfold.
    apply (foldM_invariant
             (fun pre (ps : gset Player) =>
                (∀ p, p ∈ ps →
                   pname p ∈ pre.*1
                   ∧ ∀ s, s ∈ ships p → player s = pname p)
                ∧ ∀ p q, p ∈ ps → q ∈ ps → pname p = pname q → p = q)).
    - split; [intros p Hp|intros p q Hp]; exfalso;
        exact (not_elem_of_empty p Hp).
    - intros pre [name info] post b h2 b' h3 Hl [Hold Hinj] Hstep.
      destruct (info !! pretty tier) as [ships_info|]; [|discriminate].
      apply bind_Ok in Hstep as (p & h4 & Hp & Hret).
      injection Hret as <- <-.
      apply Player_init_owner in Hp as [Hname Hown].
      assert (Hfresh : name ∉ pre.*1).
      { pose proof (NoDup_fst_map_to_list team_info) as Hnd.
        rewrite Hl, fmap_app, fmap_cons in Hnd. simpl in Hnd.
        apply NoDup_app in Hnd as (_ & Hdisj & _).
        intros Hin. apply (Hdisj name Hin), elem_of_cons. left. reflexivity. }
      split.
      + intros q [Hq|Hq]%elem_of_union.
        * destruct (Hold q Hq) as [Hqn Hqo]. split; [|exact Hqo].
          rewrite fmap_app. apply elem_of_app. left. exact Hqn.
        * apply elem_of_singleton in Hq as ->. split.
          -- rewrite fmap_app, Hname. apply elem_of_app. right.
             apply elem_of_cons. left. reflexivity.
          -- intros s Hs. rewrite Hname. exact (Hown s Hs).
      + intros q1 q2 [H1|H1]%elem_of_union [H2|H2]%elem_of_union Heq.
        * exact (Hinj q1 q2 H1 H2 Heq).
        * apply elem_of_singleton in H2 as ->. exfalso. apply Hfresh.
          rewrite <- Hname, <- Heq. exact (proj1 (Hold q1 H1)).
        * apply elem_of_singleton in H1 as ->. exfalso. apply Hfresh.
          rewrite <- Hname, Heq. exact (proj1 (Hold q2 H2)).
        * apply elem_of_singleton in H1, H2. congruence. }
  destruct Hinv as [Hold Hinj]. split.
  - intros p Hp s Hs. exact (proj2 (Hold p Hp) s Hs).
  - intros p Hp q Hq. exact (Hinj p q Hp Hq).
Qed.

(** [Team.select] keeps a team well formed. *)
Lemma Team_select_wf (team : Team) (names : gset string) :
  wf_team team → wf_team (Team_select team names).
Proof.
  intros [Hown Hinj]. unfold Team_select. split.
  - intros p [_ Hp]%elem_of_filter. exact (Hown p Hp).
  - intros p [_ Hp]%elem_of_filter q [_ Hq]%elem_of_filter.
    exact (Hinj p Hp q Hq).
Qed.

(** The compositions teamcomp.py yields are exact as well: its search is
    the one of fleetcomp.py, over combinations that are subsequences of
    the players all the same. *)
Lemma teamcomp_enumerator_exact (team : Team) (self : Teamcomp.RestrictionSet)
    (c : gset Ship) :
  wf_team team →
  c ∈ Teamcomp.generate_comps team self →
  Z.of_nat (size c) = Teamcomp.size_limit self
  ∧ distinct_owners c
  ∧ Teamcomp.is_valid self c = true.
Proof.
  intros Hwf Hc. unfold Teamcomp.generate_comps in Hc.
  apply elem_of_flat_map in Hc as (group & Hgroup & Hc).
  apply combinations_spec in Hgroup as [Hsub _].
  destruct (wf_team_group _ _ Hwf Hsub) as [Hown Hnd].
  rewrite teamcomp_team_compositions in Hc.
  rewrite teamcomp_is_valid.
  exact (team_compositions_exact (as_fleet self) group c Hown Hnd Hc).
Qed.

(** * Further properties of the validator and the drivers *)

Section ValidatorMore.
Import Fleetcomp.

Lemma tally_mono rinfo (c c' : gset Ship) :
  c ⊆ c' → tally rinfo c ≤ tally rinfo c'.
Proof.
  intros Hsub. unfold tally. apply inj_le, subseteq_size.
  intros s [Hm Hs]%elem_of_filter. apply elem_of_filter.
  split; [exact Hm|apply Hsub, Hs].
Qed.

(** X1. Validity is inherited by every part of a composition: removing ships
    never makes a valid composition invalid. (This is what makes pruning
    the search at the first invalid selection safe.) *)
Theorem is_valid_subset (self : RestrictionSet) (c c' : gset Ship) :
  c ⊆ c' → is_valid self c' = true → is_valid self c = true.
Proof.
  intros Hsub. rewrite !is_valid_true_iff.
  intros (Hsz & Hnb & Hcnt). split; [|split].
  - pose proof (subseteq_size c c' Hsub). lia.
  - intros ship Hin. apply Hnb, Hsub, Hin.
  - intros Hne rname rinfo Hk.
    assert (Hne' : c' ≠ ∅).
    { intros ->. apply Hne. apply leibniz_equiv.
      apply equiv_empty. exact Hsub. }
    pose proof (tally_mono rinfo c c' Hsub).
    pose proof (Hcnt Hne' rname rinfo Hk). lia.
Qed.

Lemma is_valid_subset_witness :
  ({[ ex_alpha ]} : gset Ship) ⊆ ex_comp
  ∧ is_valid (ex_rs 2) ex_comp = true
  ∧ is_valid (ex_rs 2) {[ ex_alpha ]} = true.
Proof.
  assert (Hsub : ({[ ex_alpha ]} : gset Ship) ⊆ ex_comp).
  { unfold ex_comp. apply union_subseteq_l. }
  assert (Hv : is_valid (ex_rs 2) ex_comp = true) by (vm_compute; reflexivity).
  split; [exact Hsub|split; [exact Hv|]].
  exact (is_valid_subset (ex_rs 2) _ _ Hsub Hv).
Defined.

End ValidatorMore.

Section DriversMore.
Import Fleetcomp.

(** A group too short to fill the team yields nothing. *)
Lemma team_compositions_short self selected group :
  Z.of_nat (size selected) + Z.of_nat (length group) < size_limit self →
  team_compositions self selected group = [].
Proof.
  revert selected. induction group as [|p rest IH]; intros selected Hsz;
    rewrite team_compositions_unfold;
    (assert (is_full_team self selected = false) as ->
       by (unfold is_full_team; apply Z.eqb_neq; simpl length in Hsz; lia));
    rewrite andb_false_r; [reflexivity|].
  apply flat_map_nil_all. intros ship _. apply IH.
  pose proof (size_union_singleton_le selected ship).
  simpl length in Hsz. lia.
Qed.

Lemma generate_comps_manual (team : Team) (self : RestrictionSet) :
  0 ≤ size_limit self →
  generate_comps team self
  = Ok (flat_map (manual_compositions self)
          (combinations (elements (players team))
                        (Z.to_nat (size_limit self)))).
Proof.
  intros Hnn. unfold generate_comps.
  destruct (size_limit self <? 0) eqn:Hneg; [apply Z.ltb_lt in Hneg; lia|].
  f_equal. apply flat_map_ext_elem. intros group Hgroup.
  apply combinations_spec in Hgroup as [_ Hlen].
  rewrite team_compositions_leaves by (rewrite size_empty; lia).
  unfold manual_compositions. f_equal.
  apply list_fmap_ext. intros _ picks _. apply (left_id_L ∅ (∪)).
Qed.

(** X2. For a non-negative team size [generate_comps] is the concatenation,
    over the combinations of [size_limit] players in the order of
    [itertools.combinations], of the accepted assignments of one ship per
    player of the combination. *)
Theorem generate_comps_by_groups (team : Team) (self : RestrictionSet) :
  0 ≤ size_limit self →
  generate_comps team self
  = Ok (flat_map (manual_compositions self)
          (combinations (elements (players team))
                        (Z.to_nat (size_limit self)))).
Proof. apply generate_comps_manual. Qed.

Lemma generate_comps_by_groups_witness :
  0 ≤ size_limit (ex_rs 2)
  ∧ generate_comps ex_team (ex_rs 2)
    = Ok (flat_map (manual_compositions (ex_rs 2))
            (combinations (elements (players ex_team))
                          (Z.to_nat (size_limit (ex_rs 2))))).
Proof.
  assert (H : 0 ≤ size_limit (ex_rs 2)) by (simpl; lia).
  split; [exact H|]. exact (generate_comps_by_groups ex_team (ex_rs 2) H).
Defined.

(** X3. The three outcomes of the second half of [count]: too few
    participating players is a [ConfigurationError]; a negative team size
    passes the size check and fails in [combinations] with [ValueError];
    otherwise the number of yielded compositions is returned and no stored
    object is touched. *)
Theorem count_run_outcomes (team : Team) (ref : nat) (r : RestrictionSet)
    (h : heap RestrictionSet) :
  rsets h !! ref = Some r →
  (Z.of_nat (participating team) < size_limit r →
   count_run team ref h = Raise ConfigurationError)
  ∧ (size_limit r < 0 → count_run team ref h = Raise ValueError)
  ∧ (0 ≤ size_limit r ≤ Z.of_nat (participating team) →
     count_run team ref h
     = Ok (length (flat_map (manual_compositions r)
                     (combinations (elements (players team))
                                   (Z.to_nat (size_limit r)))), h)).
Proof.
  intros Href. split; [apply count_run_guard, Href|].
  unfold count_run, read, mbind, M_bind. rewrite Href.
  fold (participating team). split.
  - intros Hneg.
    destruct (Z.of_nat (participating team) <? size_limit r) eqn:Hg;
      [apply Z.ltb_lt in Hg; lia|].
    unfold generate_comps, lift.
    apply Z.ltb_lt in Hneg. rewrite Hneg. reflexivity.
  - intros [Hnn Hle].
    destruct (Z.of_nat (participating team) <? size_limit r) eqn:Hg;
      [apply Z.ltb_lt in Hg; lia|].
    rewrite (generate_comps_manual team r Hnn). reflexivity.
Qed.

Lemma count_run_outcomes_witness :
  rsets (mkHeap 7 [ex_rs (-1)]) !! 0%nat = Some (ex_rs (-1))
  ∧ size_limit (ex_rs (-1)) < 0
  ∧ count_run ex_team 0 (mkHeap 7 [ex_rs (-1)]) = Raise ValueError.
Proof.
  assert (Hneg : size_limit (ex_rs (-1)) < 0) by (simpl; lia).
  split; [reflexivity|split; [exact Hneg|]].
  exact (proj1 (proj2 (count_run_outcomes ex_team 0 (ex_rs (-1))
                         (mkHeap 7 [ex_rs (-1)]) eq_refl)) Hneg).
Defined.

(** X4. Teamcomp.py yields a composition only for a team of at least seven
    players and a team size of at most seven: its groups always have seven
    players. *)
Theorem teamcomp_yields_only_if (team : Team) (self : Teamcomp.RestrictionSet) :
  (size (players team) < 7)%nat ∨ 7 < Teamcomp.size_limit self →
  Teamcomp.generate_comps team self = [].
Proof.
  intros Hcase. unfold Teamcomp.generate_comps.
  apply flat_map_nil_all. intros group Hgroup.
  apply combinations_spec in Hgroup as [Hsub Hlen].
  destruct Hcase as [Hfew|Hbig].
  - apply sublist_length in Hsub.
    change (length (elements (players team))) with (size (players team)) in Hsub.
    lia.
  - rewrite teamcomp_team_compositions.
    apply team_compositions_short. rewrite size_empty, Hlen. simpl. lia.
Qed.

Lemma teamcomp_yields_only_if_witness :
  7 < Teamcomp.size_limit (ex_rs_teamcomp 8)
  ∧ Teamcomp.generate_comps ex_team (ex_rs_teamcomp 8) = [].
Proof.
  assert (H : 7 < Teamcomp.size_limit (ex_rs_teamcomp 8)) by (simpl; lia).
  split; [exact H|].
  exact (teamcomp_yields_only_if ex_team (ex_rs_teamcomp 8) (or_intror H)).
Defined.

End DriversMore.

(** * What the enumeration reaches *)

Section Reach.
Import Fleetcomp.

Lemma combinations_complete {A} (pool group : list A) :
  group `sublist_of` pool → group ∈ combinations pool (length group).
Proof.
  induction 1 as [|x g pool _ IH|x g pool Hsub IH].
  - simpl. apply list_elem_of_singleton. reflexivity.
  - simpl. apply elem_of_app. left. apply list_elem_of_fmap_2. exact IH.
  - destruct g as [|y g]; simpl.
    + apply list_elem_of_singleton. reflexivity.
    + apply elem_of_app. right. exact IH.
Qed.


(** A set of ships held by players of a list, no two by the same player,
    is an assignment for a subsequence of the list. *)
Lemma owners_cover (l : list Player) (c : gset Ship) :
  (∀ p s, p ∈ l → s ∈ ships p → player s = pname p) →
  distinct_owners c →
  (∀ s, s ∈ c → ∃ p, p ∈ l ∧ s ∈ ships p) →
  ∃ group picks,
    group `sublist_of` l ∧ picks ∈ assignments group
    ∧ list_to_set picks = c ∧ length group = size c.
Proof.
  revert c. induction l as [|p l IH]; intros c Hown Hdist Hheld.
  - exists [], []. split; [constructor|split; [|split]].
    + simpl. apply list_elem_of_singleton. reflexivity.
    + simpl. symmetry. apply leibniz_equiv, equiv_empty.
      intros s Hs. destruct (Hheld s Hs) as (q & Hq & _). inversion Hq.
    + assert (c = ∅) as ->; [|rewrite size_empty; reflexivity].
      apply leibniz_equiv, equiv_empty.
      intros s Hs. destruct (Hheld s Hs) as (q & Hq & _). inversion Hq.
  - assert (Hown' : ∀ q s, q ∈ l → s ∈ ships q → player s = pname q).
    { intros q s Hq. apply Hown, elem_of_cons. right. exact Hq. }
    destruct (elements (c ∩ ships p)) as [|s rest] eqn:He.
    + apply elements_empty_inv in He.
      destruct (IH c Hown' Hdist) as (group & picks & Hsub & Hpicks & Hc & Hlen).
      { intros s Hs. destruct (Hheld s Hs) as (q & Hq & Hsq).
        apply elem_of_cons in Hq as [->|Hq]; [|exists q; split; assumption].
        exfalso. apply (not_elem_of_empty (C := gset Ship) s), He.
        apply elem_of_intersection. split; assumption. }
      exists group, picks.
      split; [apply sublist_cons, Hsub|split; [|split; assumption]].
      exact Hpicks.
    + assert (Hs : s ∈ c ∩ ships p).
      { apply elem_of_elements. rewrite He. apply elem_of_cons. left.
        reflexivity. }
      apply elem_of_intersection in Hs as [Hsc Hsp].
      destruct (IH (c ∖ {[ s ]}) Hown')
        as (group & picks & Hsub & Hpicks & Hc & Hlen).
      { intros a b [Ha _]%elem_of_difference [Hb _]%elem_of_difference.
        exact (Hdist a b Ha Hb). }
      { intros s' Hs'. apply elem_of_difference in Hs' as [Hs'c Hne].
        destruct (Hheld s' Hs'c) as (q & Hq & Hsq).
        apply elem_of_cons in Hq as [->|Hq]; [|exists q; split; assumption].
        exfalso. apply Hne, elem_of_singleton.
        apply Hdist; [exact Hs'c|exact Hsc|].
        rewrite (Hown p s'), (Hown p s);
          [reflexivity| | | |]; try (apply elem_of_cons; left; reflexivity);
          assumption. }
      exists (p :: group), (s :: picks).
      split; [apply sublist_skip, Hsub|split; [|split]].
      * simpl. apply elem_of_flat_map. exists s.
        split; [apply elem_of_elements, Hsp|].
        apply list_elem_of_fmap_2. exact Hpicks.
      * simpl. rewrite Hc. symmetry. apply union_difference_L.
        apply singleton_subseteq_l. exact Hsc.
      * simpl. rewrite Hlen.
        rewrite size_difference by (apply singleton_subseteq_l; exact Hsc).
        rewrite size_singleton.
        assert (size c ≠ 0)%nat; [|lia].
        intros Hz. apply size_empty_inv in Hz.
        apply (not_elem_of_empty (C := gset Ship) s), Hz, Hsc.
Qed.

End Reach.

Section ReachClaims.
Import Fleetcomp.

Lemma picks_held (picks : list Ship) (ps : list Player) (s : Ship) :
  Forall2 (fun s p => s ∈ ships p) picks ps →
  s ∈ picks → ∃ p, p ∈ ps ∧ s ∈ ships p.
Proof.
  induction 1 as [|s' p picks ps Hs' _ IH]; intros Hs; [inversion Hs|].
  apply elem_of_cons in Hs as [->|Hs].
  - exists p. split; [apply elem_of_cons; left; reflexivity|exact Hs'].
  - destruct (IH Hs) as (q & Hq & Hsq). exists q.
    split; [apply elem_of_cons; right; exact Hq|exact Hsq].
Qed.

(** X5. For a well-formed team, [generate_comps] yields exactly the valid
    sets of [size_limit] ships of the team's players that take at most
    one ship from each player. *)
Theorem generate_comps_member (team : Team) (self : RestrictionSet)
    (comps : list (gset Ship)) (c : gset Ship) :
  wf_team team →
  generate_comps team self = Ok comps →
  c ∈ comps ↔
  is_valid self c = true
  ∧ Z.of_nat (size c) = size_limit self
  ∧ distinct_owners c
  ∧ ∀ s, s ∈ c → ∃ p, p ∈ players team ∧ s ∈ ships p.
Proof.
  intros Hwf Hgen. unfold generate_comps in Hgen.
  destruct (size_limit self <? 0) eqn:Hneg; [discriminate|].
  apply Z.ltb_ge in Hneg. injection Hgen as <-.
  rewrite elem_of_flat_map. split.
  - intros (group & Hgroup & Hc).
    apply combinations_spec in Hgroup as [Hsub _].
    destruct (wf_team_group _ _ Hwf Hsub) as [Hown Hnd].
    destruct (team_compositions_exact self group c Hown Hnd Hc)
      as (Hsz & Hdist & Hv).
    split; [exact Hv|split; [exact Hsz|split; [exact Hdist|]]].
    destruct (team_compositions_picks _ _ _ _ Hc) as (_ & picks & -> & Hpicks).
    intros s Hs. rewrite (left_id_L ∅ (∪)) in Hs.
    apply elem_of_list_to_set in Hs.
    destruct (picks_held _ _ s Hpicks Hs) as (p & Hp & Hsp).
    exists p. split; [|exact Hsp].
    apply elem_of_elements, (sublist_subseteq _ _ Hsub).
    apply (sublist_subseteq _ _ (sublist_take group (length picks))), Hp.
  - intros (Hv & Hsz & Hdist & Hheld).
    destruct (wf_team_group team (elements (players team)) Hwf)
      as [Hown _]; [reflexivity|].
    destruct (owners_cover (elements (players team)) c Hown Hdist)
      as (group & picks & Hsub & Hpicks & Hc & Hlen).
    { intros s Hs. destruct (Hheld s Hs) as (p & Hp & Hsp).
      exists p. split; [apply elem_of_elements, Hp|exact Hsp]. }
    exists group. split.
    + replace (Z.to_nat (size_limit self)) with (length group) by lia.
      apply combinations_complete, Hsub.
    + rewrite team_compositions_leaves by (rewrite size_empty; lia).
      apply list_elem_of_filter. split; [split; assumption|].
      apply list_elem_of_fmap. exists picks.
      split; [rewrite (left_id_L ∅ (∪)), Hc; reflexivity|exact Hpicks].
Qed.

Lemma generate_comps_member_witness :
  wf_team ex_team
  ∧ generate_comps ex_team (ex_rs 2)
    = Ok [ ex_comp; {[ ex_charlie; ex_bravo ]} ]
  ∧ (ex_comp ∈ [ ex_comp; ({[ ex_charlie; ex_bravo ]} : gset Ship) ] ↔
     is_valid (ex_rs 2) ex_comp = true
     ∧ Z.of_nat (size ex_comp) = size_limit (ex_rs 2)
     ∧ distinct_owners ex_comp
     ∧ ∀ s, s ∈ ex_comp → ∃ p, p ∈ players ex_team ∧ s ∈ ships p).
Proof.
  assert (Hwf : wf_team ex_team).
  { split; apply (bool_decide_unpack _); vm_compute; exact I. }
  assert (Hgen : generate_comps ex_team (ex_rs 2)
                 = Ok [ ex_comp; {[ ex_charlie; ex_bravo ]} ])
    by reflexivity.
  split; [exact Hwf|split; [exact Hgen|]].
  exact (generate_comps_member ex_team (ex_rs 2) _ ex_comp Hwf Hgen).
Defined.

End ReachClaims.

(** * No composition is yielded twice *)

Section Once.
Import Fleetcomp.





End Once.

Section OnceClaims.
Import Fleetcomp.






End OnceClaims.

(** * Selecting players *)

Section Select.
Import Fleetcomp.

(** Every ship of a yielded composition is held by a player of the team
    that was enumerated. *)
Lemma generate_comps_held (team : Team) (self : RestrictionSet)
    (comps : list (gset Ship)) (c : gset Ship) (s : Ship) :
  generate_comps team self = Ok comps → c ∈ comps → s ∈ c →
  ∃ p, p ∈ players team ∧ s ∈ ships p.
Proof.
  intros Hgen Hc Hs. unfold generate_comps in Hgen.
  destruct (size_limit self <? 0); [discriminate|]. injection Hgen as <-.
  apply elem_of_flat_map in Hc as (group & Hgroup & Hc).
  apply combinations_spec in Hgroup as [Hsub _].
  destruct (team_compositions_picks _ _ _ _ Hc) as (_ & picks & -> & Hpicks).
  rewrite (left_id_L ∅ (∪)) in Hs. apply elem_of_list_to_set in Hs.
  destruct (picks_held _ _ s Hpicks Hs) as (p & Hp & Hsp).
  exists p. split; [|exact Hsp].
  apply elem_of_elements, (sublist_subseteq _ _ Hsub).
  apply (sublist_subseteq _ _ (sublist_take group (length picks))), Hp.
Qed.

(** X7. Enumerating a selection of a well-formed team only uses ships of the
    selected players: every ship of a yielded composition is held by a
    player of the original team whose name was selected, and carries that
    name. *)
Theorem select_then_generate (team : Team) (names : gset string)
    (self : RestrictionSet) (comps : list (gset Ship)) (c : gset Ship)
    (s : Ship) :
  wf_team team →
  generate_comps (Team_select team names) self = Ok comps →
  c ∈ comps → s ∈ c →
  player s ∈ names ∧ ∃ p, p ∈ players team ∧ s ∈ ships p ∧ pname p = player s.
Proof.
  intros [Hown _] Hgen Hc Hs.
  destruct (generate_comps_held _ _ _ _ _ Hgen Hc Hs) as (p & Hp & Hsp).
  unfold Team_select in Hp. simpl in Hp.
  apply elem_of_filter in Hp as [Hname Hp].
  pose proof (Hown p Hp s Hsp) as Heq. simpl in Heq.
  split; [rewrite Heq; exact Hname|].
  exists p. split; [exact Hp|split; [exact Hsp|symmetry; exact Heq]].
Qed.

Lemma select_then_generate_witness :
  wf_team ex_team
  ∧ generate_comps (Team_select ex_team {[ "A"; "B" ]}) (ex_rs 2)
    = Ok [ ex_comp ]
  ∧ player ex_alpha ∈ ({[ "A"; "B" ]} : gset string)
  ∧ ∃ p, p ∈ players ex_team ∧ ex_alpha ∈ ships p ∧ pname p = player ex_alpha.
Proof.
  assert (Hwf : wf_team ex_team).
  { split; apply (bool_decide_unpack _); vm_compute; exact I. }
  assert (Hgen : generate_comps (Team_select ex_team {[ "A"; "B" ]}) (ex_rs 2)
                 = Ok [ ex_comp ]) by reflexivity.
  split; [exact Hwf|split; [exact Hgen|]].
  apply (select_then_generate ex_team _ (ex_rs 2) [ex_comp] ex_comp ex_alpha
           Hwf Hgen).
  - apply elem_of_cons. left. reflexivity.
  - unfold ex_comp. apply elem_of_union. left. apply elem_of_singleton.
    reflexivity.
Defined.

End Select.

(** * Loading: when it succeeds and what it builds *)

Section Loops.
Context {R : Type}.

Lemma bind_run {A B} (m : M R A) (f : A → M R B) h a h1 :
  m h = Ok (a, h1) → (m ≫= f) h = f a h1.
Proof. intros H. unfold mbind, M_bind. rewrite H. reflexivity. Qed.

(** A loop whose steps succeed or fail by the item alone succeeds exactly
    when every item does. *)
Lemma foldM_Ok_iff {A B} (f : B → A → M R B) (ok : A → Prop) (l : list A) :
  (∀ a b h, a ∈ l → (∃ r, f b a h = Ok r) ↔ ok a) →
  ∀ b h, (∃ r, foldM f b l h = Ok r) ↔ Forall ok l.
Proof.
  induction l as [|a l IH]; intros Hstep b h.
  - simpl. split; [intros _; constructor|intros _; eexists; reflexivity].
  - assert (Hstep' : ∀ a' b' h', a' ∈ l → (∃ r, f b' a' h' = Ok r) ↔ ok a').
    { intros a' b' h' Ha'. apply Hstep, elem_of_cons. right. exact Ha'. }
    assert (Ha : ∀ b' h', (∃ r, f b' a h' = Ok r) ↔ ok a).
    { intros b' h'. apply Hstep, elem_of_cons. left. reflexivity. }
    simpl. split.
    + intros [[b2 h2] Hrun]. apply bind_Ok in Hrun as (b1 & h1 & Hf & Hrun).
      constructor.
      * apply (Ha b h). eexists. exact Hf.
      * apply (IH Hstep' b1 h1). eexists. exact Hrun.
    + intros Hall. apply Forall_cons in Hall as [Hoka Hall].
      apply (Ha b h) in Hoka as [[b1 h1] Hf].
      apply (IH Hstep' b1 h1) in Hall as [r Hrun].
      exists r. unfold mbind, M_bind. rewrite Hf. exact Hrun.
Qed.

(** Every exception of a loop is an exception of one of its steps. *)
Lemma foldM_Raise {A B} (f : B → A → M R B) (P : exn → Prop) (l : list A) :
  (∀ a b h e, a ∈ l → f b a h = Raise e → P e) →
  ∀ b h e, foldM f b l h = Raise e → P e.
Proof.
  induction l as [|a l IH]; intros Hstep b h e; simpl; [discriminate|].
  unfold mbind, M_bind. destruct (f b a h) as [[b1 h1]|e1] eqn:Hf.
  - apply IH. intros a' b' h' e' Ha'. apply Hstep, elem_of_cons. right.
    exact Ha'.
  - intros [= <-]. apply (Hstep a b h e1); [|exact Hf].
    apply elem_of_cons. left. reflexivity.
Qed.

Lemma ShipType_of_value_Ok (s : string) :
  (∃ t, ShipType_of_value s = Ok t) ↔ s ∈ ["SS"; "DD"; "CA"; "BB"; "CV"].
Proof.
  unfold ShipType_of_value. rewrite list_elem_of_In. simpl.
  repeat (destruct (decide _) as [->|?]);
    try (split; [intros _; auto 10|intros _; eexists; reflexivity]).
  split; [intros [t Ht]; discriminate|].
  intros [H|[H|[H|[H|[H|[]]]]]]; congruence.
Qed.

(** The steps of [Player.__init__]. *)
Lemma Player_init_step_Ok (name ship_type_str ship_name : string)
    (shipset : gset Ship) (h : heap R) :
  (∃ r, (t ← lift (ShipType_of_value ship_type_str);
         ship ← Ship_init ship_name (inl t) name;
         mret (shipset ∪ {[ ship ]})) h = Ok r)
  ↔ ∃ t, ShipType_of_value ship_type_str = Ok t.
Proof.
  unfold mbind, M_bind, lift, Ship_init, fresh, mret, M_ret.
  destruct (ShipType_of_value ship_type_str) as [t|e]; simpl.
  - split; [intros _; eexists; reflexivity|intros _; eexists; reflexivity].
  - split; [intros [r Hr]; discriminate|intros [t Ht]; discriminate].
Qed.

Lemma Player_init_Ok (name : string) (ships_info : gmap string (list string))
    (h : heap R) :
  (∃ r, Player_init name ships_info h = Ok r)
  ↔ ∀ ship_type_str ship_list,
      ships_info !! ship_type_str = Some ship_list → ship_list ≠ [] →
      ship_type_str ∈ ["SS"; "DD"; "CA"; "BB"; "CV"].
Proof.
  unfold Player_init.
  set (inner := fun ship_type_str =>
                  fun (shipset : gset Ship) (ship_name : string) =>
                    t ← lift (ShipType_of_value ship_type_str);
                    ship ← Ship_init (R := R) ship_name (inl t) name;
                    mret (shipset ∪ {[ ship ]})).
  set (outer := fun (shipset : gset Ship) '(ship_type_str, ship_list) =>
                  foldM (inner ship_type_str) shipset ship_list).
  assert (Houter : ∀ b h0,
            (∃ r, foldM outer b (map_to_list ships_info) h0 = Ok r)
            ↔ Forall (fun '(t, l) =>
                        l ≠ [] → t ∈ ["SS"; "DD"; "CA"; "BB"; "CV"])
                     (map_to_list ships_info)).
  { apply foldM_Ok_iff. intros [t l] b h0 _. unfold outer.
    rewrite (foldM_Ok_iff (inner t)
               (fun _ => t ∈ ["SS"; "DD"; "CA"; "BB"; "CV"])).
    - split.
      + intros Hall Hne. destruct l as [|x l]; [contradiction|].
        apply Forall_cons in Hall as [Hx _]. exact Hx.
      + intros Hne. destruct l as [|x l]; [constructor|].
        apply Forall_forall. intros _ _. apply Hne. discriminate.
    - intros ship_name b' h' _. unfold inner.
      rewrite Player_init_step_Ok. apply ShipType_of_value_Ok. }
  split.
  - intros [[p h'] Hrun].
    apply bind_Ok in Hrun as (i & h1 & _ & Hrun).
    apply bind_Ok in Hrun as (shipset & h2 & Hfold & _).
    assert (Hall := proj1 (Houter ∅ h1) (ex_intro _ _ Hfold)).
    intros t l Hl Hne. rewrite Forall_forall in Hall.
    apply (Hall (t, l)); [|exact Hne].
    apply elem_of_map_to_list. exact Hl.
  - intros Hvalid.
    assert (Hall : Forall (fun '(t, l) =>
                             l ≠ [] → t ∈ ["SS"; "DD"; "CA"; "BB"; "CV"])
                          (map_to_list ships_info)).
    { apply Forall_forall. intros [t l] Hin.
      apply elem_of_map_to_list in Hin. exact (Hvalid t l Hin). }
    apply (Houter ∅ (mkHeap (Pos.succ (next_id h)) (rsets h))) in Hall
      as [[shipset h2] Hfold].
    exists (mkPlayer (next_id h) name shipset, h2).
    rewrite (bind_run fresh _ h (next_id h)
               (mkHeap (Pos.succ (next_id h)) (rsets h))) by reflexivity.
    fold inner. fold outer.
    rewrite (bind_run _ _ _ _ _ Hfold). reflexivity.
Qed.

Lemma Player_init_Raise (name : string) (ships_info : gmap string (list string))
    (h : heap R) (e : exn) :
  Player_init name ships_info h = Raise e → e = ValueError.
Proof.
  unfold Player_init, mbind, M_bind, fresh at 1.
  destruct (foldM _ _ _ _) as [[shipset h2]|e'] eqn:Hfold; [discriminate|].
  intros [= <-]. revert Hfold.
  apply (foldM_Raise _ (fun e => e = ValueError)).
  intros [t l] b h0 e0 _.
  apply (foldM_Raise _ (fun e => e = ValueError)).
  intros ship_name b' h' e1 _.
  unfold mbind, M_bind, lift, Ship_init, fresh, mret, M_ret.
  unfold ShipType_of_value.
  repeat (destruct (decide _)); simpl; try discriminate.
  intros [= <-]. reflexivity.
Qed.

End Loops.

Section LoadingClaims.
Import Fleetcomp.

(** X8. [Team.load] succeeds exactly when every player of the file has an
    entry for the tier and every type symbol that lists at least one ship
    is one of the five of [ShipType]; otherwise it raises [KeyError] (no
    entry for the tier) or [ValueError] (unknown type symbol). A type
    symbol with an empty list is never looked at. *)
Theorem Team_load_succeeds
    (team_info : gmap string (gmap string (gmap string (list string))))
    (tier : Z) (h : heap RestrictionSet) :
  ((∃ r, Team_load team_info tier h = Ok r) ↔
   ∀ name player_info,
     team_info !! name = Some player_info →
     ∃ ships_info,
       player_info !! pretty tier = Some ships_info
       ∧ ∀ ship_type_str ship_list,
           ships_info !! ship_type_str = Some ship_list → ship_list ≠ [] →
           ship_type_str ∈ ["SS"; "DD"; "CA"; "BB"; "CV"])
  ∧ ∀ e, Team_load team_info tier h = Raise e →
         e = KeyError ∨ e = ValueError.
Proof.
  unfold Team_load.
  set (step := fun (players : gset Player)
                   '((name, player_info) :
                       string * gmap string (gmap string (list string))) =>
                 match player_info !! pretty tier with
                 | Some ships =>
                     p ← Player_init (R := RestrictionSet) name ships;
                     mret (players ∪ {[ p ]})
                 | None => raise KeyError
                 end).
  set (ok := fun '((name, player_info) :
                     string * gmap string (gmap string (list string))) =>
               ∃ ships_info,
                 player_info !! pretty tier = Some ships_info
                 ∧ ∀ ship_type_str ship_list,
                     ships_info !! ship_type_str = Some ship_list →
                     ship_list ≠ [] →
                     ship_type_str ∈ ["SS"; "DD"; "CA"; "BB"; "CV"]).
  assert (Hstep : ∀ a b h0, (∃ r, step b a h0 = Ok r) ↔ ok a).
  { intros [name info] b h0. unfold step, ok.
    destruct (info !! pretty tier) as [ships_info|].
    - split.
      + intros [[ps h1] Hrun]. exists ships_info. split; [reflexivity|].
        apply bind_Ok in Hrun as (p & h2 & Hp & _).
        apply (Player_init_Ok name ships_info h0). eexists. exact Hp.
      + intros (ships_info' & [= <-] & Hvalid).
        apply (Player_init_Ok name ships_info h0) in Hvalid as [[p h1] Hp].
        eexists. rewrite (bind_run _ _ _ _ _ Hp). reflexivity.
    - split; [intros [r Hr]; discriminate|].
      intros (ships_info & Hnone & _). discriminate. }
  split.
  - transitivity (Forall ok (map_to_list team_info)).
    + rewrite <- (foldM_Ok_iff step ok (map_to_list team_info)
                   (fun a b h0 _ => Hstep a b h0) ∅ h).
      split.
      * intros [[team h'] Hrun].
        apply bind_Ok in Hrun as (ps & h1 & Hfold & _).
        eexists. exact Hfold.
      * intros [[ps h1] Hfold]. eexists.
        rewrite (bind_run _ _ _ _ _ Hfold). reflexivity.
    + rewrite Forall_forall. split.
      * intros Hall name info Hl.
        apply (Hall (name, info)), elem_of_map_to_list, Hl.
      * intros Hall [name info] Hin. apply elem_of_map_to_list in Hin.
        exact (Hall name info Hin).
  - intros e. unfold mbind, M_bind.
    destruct (foldM step ∅ (map_to_list team_info) h) as [[ps h1]|e'] eqn:Hfold;
      [discriminate|].
    intros [= <-]. revert Hfold.
    apply (foldM_Raise step (fun e => e = KeyError ∨ e = ValueError)).
    intros [name info] b h0 e0 _. unfold step.
    destruct (info !! pretty tier) as [ships_info|].
    + unfold mbind, M_bind.
      destruct (Player_init name ships_info h0) as [[p h2]|e1] eqn:Hp;
        [discriminate|].
      intros [= <-]. right. exact (Player_init_Raise _ _ _ _ Hp).
    + intros [= <-]. left. reflexivity.
Qed.

(** X9. A loaded team has exactly one player for each entry of the file,
    named by the entry's key, and is well formed. *)
Theorem Team_load_players
    (team_info : gmap string (gmap string (gmap string (list string))))
    (tier : Z) (h h' : heap RestrictionSet) (team : Team) :
  Team_load team_info tier h = Ok (team, h') →
  wf_team team
  ∧ (∀ name, (∃ p, p ∈ players team ∧ pname p = name)
             ↔ is_Some (team_info !! name))
  ∧ size (players team) = size team_info.
Proof.
  intros Hload. split; [exact (Team_load_wf _ _ _ _ _ Hload)|].
  unfold Team_load in Hload.
  apply bind_Ok in Hload as (ps & h1 & Hfold & Hret).
  injection Hret as <- <-. simpl.
  assert (Hinv : (∀ name, (∃ p, p ∈ ps ∧ pname p = name)
                          ↔ name ∈ (map_to_list team_info).*1)
                 ∧ size ps = length (map_to_list team_info)).
  { revert Hfold.
    apply (foldM_invariant
             (fun pre (ps : gset Player) =>
                (∀ name, (∃ p, p ∈ ps ∧ pname p = name) ↔ name ∈ pre.*1)
                ∧ size ps = length pre)).
    - split; [|rewrite size_empty; reflexivity].
      intros name. split.
      + intros (p & Hp & _). exfalso. exact (not_elem_of_empty p Hp).
      + intros Hin. inversion Hin.
    - intros pre [name info] post b h2 b' h3 Hl [Hnames Hsize] Hstep.
      destruct (info !! pretty tier) as [ships_info|]; [|discriminate].
      apply bind_Ok in Hstep as (p & h4 & Hp & Hret).
      injection Hret as <- <-.
      apply Player_init_owner in Hp as [Hname _].
      assert (Hfresh : name ∉ pre.*1).
      { pose proof (NoDup_fst_map_to_list team_info) as Hnd.
        rewrite Hl, fmap_app, fmap_cons in Hnd. simpl in Hnd.
        apply NoDup_app in Hnd as (_ & Hdisj & _).
        intros Hin. apply (Hdisj name Hin), elem_of_cons. left. reflexivity. }
      assert (Hnew : p ∉ b).
      { intros Hin. apply Hfresh, Hnames. exists p. split; assumption. }
      split.
      + intros n. rewrite fmap_app, elem_of_app. simpl.
        rewrite list_elem_of_singleton, <- Hnames. split.
        * intros (q & [Hq|Hq]%elem_of_union & Hqn).
          -- left. exists q. split; assumption.
          -- right. apply elem_of_singleton in Hq as ->. congruence.
        * intros [(q & Hq & Hqn)| ->].
          -- exists q. split; [apply elem_of_union; left; exact Hq|exact Hqn].
          -- exists p. split; [|exact Hname].
             apply elem_of_union. right. apply elem_of_singleton. reflexivity.
      + rewrite size_union, size_singleton, length_app, Hsize; [simpl; lia|].
        apply disjoint_singleton_r. exact Hnew. }
  destruct Hinv as [Hnames Hsize]. split.
  - intros name. rewrite Hnames. split.
    + intros ([n info] & Heq & Hin)%list_elem_of_fmap. simpl in Heq. subst n.
      apply elem_of_map_to_list in Hin. eexists. exact Hin.
    + intros [info Hl]. apply list_elem_of_fmap. exists (name, info).
      split; [reflexivity|apply elem_of_map_to_list, Hl].
  - rewrite Hsize. apply length_map_to_list.
Qed.

Lemma Team_load_players_witness :
  Team_load ex_team_json 10 (mkHeap 1 []) = Ok (ex_team, mkHeap 7 [])
  ∧ wf_team ex_team
  ∧ (∀ name, (∃ p, p ∈ players ex_team ∧ pname p = name)
             ↔ is_Some (ex_team_json !! name))
  ∧ size (players ex_team) = size ex_team_json.
Proof.
  split; [exact ex_team_loaded|].
  exact (Team_load_players _ _ _ _ _ ex_team_loaded).
Defined.

End LoadingClaims.

(** * What [Player.__init__] builds *)

Section PlayerShips.
Context {R : Type}.

Lemma foldM_invariant_heap {A B} (I : list A → B → heap R → Prop)
    (f : B → A → M R B) (l : list A) (b0 : B) (h0 : heap R) :
  I [] b0 h0 →
  (∀ pre a post b h b' h',
     l = pre ++ a :: post → I pre b h → f b a h = Ok (b', h') →
     I (pre ++ [a]) b' h') →
  ∀ b' h', foldM f b0 l h0 = Ok (b', h') → I l b' h'.
Proof.
  intros H0 Hstep.
  assert (Hgen : ∀ post pre b h, l = pre ++ post → I pre b h →
            ∀ b' h', foldM f b post h = Ok (b', h') → I l b' h').
  { induction post as [|a post IH]; intros pre b h Hl Hb b' h' Hrun.
    - simpl in Hrun. injection Hrun as <- <-.
      rewrite Hl, app_nil_r. exact Hb.
    - simpl in Hrun. apply bind_Ok in Hrun as (b1 & h1 & Hf & Hrun).
      apply (IH (pre ++ [a]) b1 h1); [| |exact Hrun].
      + rewrite <- app_assoc. exact Hl.
      + exact (Hstep pre a post b h b1 h1 Hl Hb Hf). }
  intros b' h'. apply (Hgen l [] b0 h0); [reflexivity|exact H0].
Qed.

Lemma ShipType_of_value_inv (s : string) (t : ShipType) :
  ShipType_of_value s = Ok t → ShipType_value t = s.
Proof.
  unfold ShipType_of_value.
  repeat (destruct (decide _) as [->|?]); intros [= <-]; reflexivity.
Qed.

Lemma ShipType_value_roundtrip (t : ShipType) :
  ShipType_of_value (ShipType_value t) = Ok t.
Proof. destruct t; reflexivity. Qed.

End PlayerShips.

Section PlayerShipsProofs.
Context {R : Type}.

Lemma ships_made_step (owner : string) (first : positive)
    (made : list (string * string)) (shipset : gset Ship) (h : heap R)
    (ship_type_str ship_name : string) (shipset' : gset Ship) (h' : heap R) :
  ships_made owner first made shipset h →
  (t ← lift (ShipType_of_value ship_type_str);
   ship ← Ship_init ship_name (inl t) owner;
   mret (shipset ∪ {[ ship ]})) h = Ok (shipset', h') →
  ships_made owner first (made ++ [(ship_type_str, ship_name)]) shipset' h'.
Proof.
  intros (Hsize & Hsound & Hcompl & Hfirst) Hrun.
  apply bind_Ok in Hrun as (t & h1 & Ht & Hrun).
  unfold lift in Ht.
  destruct (ShipType_of_value ship_type_str) as [t'|] eqn:Hty; [|discriminate].
  injection Ht as -> <-. apply ShipType_of_value_inv in Hty.
  apply bind_Ok in Hrun as (ship & h2 & Hship & Hret).
  injection Hret as <- <-.
  unfold Ship_init in Hship.
  apply bind_Ok in Hship as (i & h3 & Hi & Hship).
  injection Hi as <- <-.
  apply bind_Ok in Hship as (t2 & h4 & Ht2 & Hret).
  injection Ht2 as <- <-. injection Hret as <- <-.
  set (ship := mkShip (next_id h) ship_name t owner).
  assert (Hnew : ship ∉ shipset).
  { intros Hin. destruct (Hsound ship Hin) as (_ & [_ Hlt] & _).
    simpl in Hlt. lia. }
  split; [|split; [|split]].
  - rewrite size_union, size_singleton, length_app, Hsize; [simpl; lia|].
    apply disjoint_singleton_r. exact Hnew.
  - intros s [Hs|Hs]%elem_of_union.
    + destruct (Hsound s Hs) as (Hp & [Hlo Hhi] & Hm).
      split; [exact Hp|split; [simpl; lia|]].
      apply elem_of_app. left. exact Hm.
    + apply elem_of_singleton in Hs as ->. simpl.
      split; [reflexivity|split; [lia|]].
      apply elem_of_app. right. rewrite Hty. apply list_elem_of_singleton.
      reflexivity.
  - intros ts n [Hin|Hin]%elem_of_app.
    + destruct (Hcompl ts n Hin) as (s & Hs & Hn & Hts).
      exists s. split; [apply elem_of_union; left; exact Hs|split; assumption].
    + apply list_elem_of_singleton in Hin as [= -> ->].
      exists ship. split; [|split; [reflexivity|exact Hty]].
      apply elem_of_union. right. apply elem_of_singleton. reflexivity.
  - simpl. lia.
Qed.

Lemma elem_of_listed (m : gmap string (list string))
    (ship_type_str ship_name : string) :
  (ship_type_str, ship_name) ∈ listed (map_to_list m)
  ↔ ∃ ship_list, m !! ship_type_str = Some ship_list ∧ ship_name ∈ ship_list.
Proof.
  unfold listed. rewrite elem_of_flat_map. split.
  - intros ([ts l] & Hin & Hpair).
    apply list_elem_of_fmap in Hpair as (n & [= -> ->] & Hn).
    apply elem_of_map_to_list in Hin. exists l. split; assumption.
  - intros (l & Hl & Hn). exists (ship_type_str, l).
    split; [apply elem_of_map_to_list, Hl|].
    apply list_elem_of_fmap_2. exact Hn.
Qed.

Lemma Player_init_made (owner : string)
    (ships_info : gmap string (list string)) (h h' : heap R) (p : Player) :
  Player_init owner ships_info h = Ok (p, h') →
  player_id p = next_id h ∧ pname p = owner
  ∧ ships_made owner (Pos.succ (next_id h)) (listed (map_to_list ships_info))
      (ships p) h'.
Proof.
  unfold Player_init. intros Hrun.
  apply bind_Ok in Hrun as (i & h1 & Hi & Hrun). injection Hi as <- <-.
  apply bind_Ok in Hrun as (shipset & h2 & Hfold & Hret).
  injection Hret as <- <-. simpl.
  split; [reflexivity|split; [reflexivity|]].
  revert Hfold.
  apply (foldM_invariant_heap
           (fun pre b h0 =>
              ships_made owner (Pos.succ (next_id h)) (listed pre) b h0)).
  - split; [rewrite size_empty; reflexivity|split; [|split]].
    + intros s Hs. exfalso. exact (not_elem_of_empty s Hs).
    + intros ts n Hin. inversion Hin.
    + simpl. lia.
  - intros pre [ts l] post b h3 b' h4 _ Hb.
    assert (Hlisted : listed (pre ++ [(ts, l)]) = listed pre ++ (pair ts <$> l)).
    { unfold listed. rewrite flat_map_app. simpl. rewrite app_nil_r.
      reflexivity. }
    rewrite Hlisted.
    apply (foldM_invariant_heap
             (fun pre' b0 h0 =>
                ships_made owner (Pos.succ (next_id h))
                  (listed pre ++ (pair ts <$> pre')) b0 h0)).
    + simpl. rewrite app_nil_r. exact Hb.
    + intros pre' n post' c h5 c' h6 _ Hc Hstep.
      rewrite fmap_app, app_assoc. simpl.
      exact (ships_made_step _ _ _ _ _ _ _ _ _ Hc Hstep).
Qed.

End PlayerShipsProofs.

(** X10. [Player(name, ships)] holds one ship object for every ship name
    listed, repeated names included: as many ships as names are listed,
    each carrying the player's name, the listed name and the type of its
    list, and every listed name is there. The identities of the player and
    of its ships are new. *)
Theorem Player_init_ships (owner : string)
    (ships_info : gmap string (list string))
    (h h' : heap Fleetcomp.RestrictionSet) (p : Player) :
  Player_init owner ships_info h = Ok (p, h') →
  pname p = owner
  ∧ size (ships p) = length (listed (map_to_list ships_info))
  ∧ (∀ s, s ∈ ships p →
          player s = owner
          ∧ (player_id p < ship_id s < next_id h')%positive
          ∧ ∃ ship_list,
              ships_info !! ShipType_value (type s) = Some ship_list
              ∧ name s ∈ ship_list)
  ∧ (∀ ship_type_str ship_list ship_name,
       ships_info !! ship_type_str = Some ship_list →
       ship_name ∈ ship_list →
       ∃ s, s ∈ ships p ∧ name s = ship_name
            ∧ ShipType_value (type s) = ship_type_str).
Proof.
  intros Hrun.
  destruct (Player_init_made _ _ _ _ _ Hrun)
    as (Hid & Hname & Hsize & Hsound & Hcompl & _).
  split; [exact Hname|split; [exact Hsize|split]].
  - intros s Hs. destruct (Hsound s Hs) as (Hp & Hrange & Hm).
    split; [exact Hp|split; [rewrite Hid; lia|]].
    apply elem_of_listed. exact Hm.
  - intros ts l n Hl Hn. apply Hcompl, elem_of_listed.
    exists l. split; assumption.
Qed.

Lemma Player_init_ships_witness :
  ∃ p h',
    Player_init "A" {[ "SS" := ["Alpha"; "Alpha"] ]}
      (mkHeap 1 ([] : list Fleetcomp.RestrictionSet)) = Ok (p, h')
    ∧ size (ships p) = 2%nat.
Proof.
  eexists _, _. split; [reflexivity|].
  match goal with
  | |- size (ships ?p) = _ =>
      exact (proj1 (proj2 (Player_init_ships "A" {[ "SS" := ["Alpha"; "Alpha"] ]}
                             (mkHeap 1 []) _ p eq_refl)))
  end.
Defined.

(** * What the constructor of a restriction set builds *)

Section InitAttributes.

Lemma init_rules_lookup (items : list (string * json))
    (acc rr : gmap string Rule) :
  NoDup items.*1 →
  Fleetcomp.init_rules items acc = Ok rr →
  ∀ k rule, rr !! k = Some rule
            ↔ (k, JRule rule) ∈ items ∨ ((k ∉ items.*1) ∧ acc !! k = Some rule).
Proof.
  revert acc. induction items as [|[n v] items IH]; intros acc Hnd Hrun k rule.
  - simpl in Hrun. injection Hrun as <-. split.
    + intros H. right. split; [intros Hin; inversion Hin|exact H].
    + intros [H|[_ H]]; [inversion H|exact H].
  - simpl in Hnd. apply NoDup_cons in Hnd as [Hfresh Hnd].
    simpl in Hrun. destruct v as [z|bans|r]; try discriminate.
    rewrite (IH _ Hnd Hrun k rule). simpl.
    rewrite !elem_of_cons. destruct r as [rt ms al]. simpl.
    destruct (decide (k = n)) as [->|Hne].
    + rewrite lookup_insert_eq. split.
      * intros [Hin|[_ [= <-]]]; [|left; left; reflexivity].
        exfalso. apply Hfresh.
        apply list_elem_of_fmap. exists (n, JRule rule). split; [reflexivity|exact Hin].
      * intros [[[= <-]|Hin]|[Hnot _]].
        -- right. split; [exact Hfresh|reflexivity].
        -- left. exact Hin.
        -- exfalso. apply Hnot. left. reflexivity.
    + rewrite lookup_insert_ne by congruence. split.
      * intros [Hin|[Hnot Hacc]]; [left; right; exact Hin|].
        right. split; [|exact Hacc]. intros [Heq|Hin]; [congruence|contradiction].
      * intros [[[= Heq _]|Hin]|[Hnot Hacc]]; [congruence|left; exact Hin|].
        right. split; [|exact Hacc]. intros Hin. apply Hnot. right. exact Hin.
Qed.

Lemma init_rules_Raise (items : list (string * json)) (acc : gmap string Rule)
    (k : string) (v : json) :
  (k, v) ∈ items → (∀ rule, v ≠ JRule rule) →
  ∃ e, Fleetcomp.init_rules items acc = Raise e
       ∧ (e = TypeError ∨ e = KeyError).
Proof.
  revert acc. induction items as [|[n w] items IH]; intros acc Hin Hv;
    [inversion Hin|].
  simpl. destruct w as [z|bans|r].
  - eexists. split; [reflexivity|left; reflexivity].
  - eexists. split; [reflexivity|].
    destruct (bans !! "rtype"); [left|right]; reflexivity.
  - apply elem_of_cons in Hin as [[= -> ->]|Hin].
    + exfalso. exact (Hv r eq_refl).
    + apply IH; assumption.
Qed.

Lemma popped_rules_lookup (rules : gmap string json) (k : string) (v : json) :
  delete "Tier" (delete "TeamSize" (delete "Banned" rules)) !! k = Some v
  ↔ (k ∉ ["Banned"; "TeamSize"; "Tier"]) ∧ rules !! k = Some v.
Proof.
  rewrite !lookup_delete_Some, !elem_of_cons, elem_of_nil. split.
  - intros (H1 & H2 & H3 & H4). split; [|exact H4].
    intros [->|[->|[->|[]]]]; congruence.
  - intros [Hk Hl]. repeat split; try exact Hl; intros <-; apply Hk; auto.
Qed.

(** The parts a successful [__init__] is made of. *)
Lemma fleetcomp_init_Ok (rules : gmap string json) (team_size tier : Z)
    (r : Fleetcomp.RestrictionSet) :
  (Fleetcomp.RestrictionSet_init rules team_size tier).2 = Ok r →
  ∃ bans n m rr,
    default (JBans ∅) (rules !! "Banned") = JBans bans
    ∧ default (JInt team_size) (rules !! "TeamSize") = JInt n
    ∧ default (JInt tier) (rules !! "Tier") = JInt m
    ∧ Fleetcomp.init_rules
        (map_to_list (delete "Tier" (delete "TeamSize" (delete "Banned" rules))))
        ∅ = Ok rr
    ∧ r = Fleetcomp.mkRestrictionSet n m
            (list_to_set (default [] (bans !! "ships")))
            (list_to_set (default [] (bans !! "types"))) rr.
Proof.
  unfold Fleetcomp.RestrictionSet_init, dict_pop. cbn [fst snd].
  rewrite !lookup_delete_ne by discriminate.
  destruct (default (JBans ∅) (rules !! "Banned")) as [?|bans|?] eqn:Hb;
    try discriminate.
  destruct (default (JInt team_size) (rules !! "TeamSize")) as [n|?|?] eqn:Hs;
    try discriminate.
  destruct (default (JInt tier) (rules !! "Tier")) as [m|?|?] eqn:Ht;
    try discriminate.
  destruct (Fleetcomp.init_rules _ ∅) as [rr|e] eqn:Hrr; [|discriminate].
  intros [= <-]. exists bans, n, m, rr.
  rewrite (lookup_delete_ne bans) by discriminate.
  repeat split; reflexivity.
Qed.

(** X11. A restriction set that [__init__] builds has as team size and tier
    what [rules.pop] gives for ["TeamSize"] and ["Tier"]: the entry, or the
    argument when there is no entry; it bans the names and types listed under
    ["Banned"]; and its counted rules are the other entries of the
    dictionary, each under its own key and as it was given. *)
Theorem init_attributes (rules : gmap string json) (team_size tier : Z)
    (r : Fleetcomp.RestrictionSet) :
  (Fleetcomp.RestrictionSet_init rules team_size tier).2 = Ok r →
  default (JInt team_size) (rules !! "TeamSize")
  = JInt (Fleetcomp.size_limit r)
  ∧ default (JInt tier) (rules !! "Tier") = JInt (Fleetcomp.tier r)
  ∧ (∀ x, x ∈ Fleetcomp.banned_ships r ↔
          ∃ bans l, rules !! "Banned" = Some (JBans bans)
                    ∧ bans !! "ships" = Some l ∧ x ∈ l)
  ∧ (∀ x, x ∈ Fleetcomp.banned_types r ↔
          ∃ bans l, rules !! "Banned" = Some (JBans bans)
                    ∧ bans !! "types" = Some l ∧ x ∈ l)
  ∧ (∀ k rule, Fleetcomp.restrictions r !! k = Some rule ↔
               (k ∉ ["Banned"; "TeamSize"; "Tier"])
               ∧ rules !! k = Some (JRule rule)).
Proof.
  intros Hinit.
  destruct (fleetcomp_init_Ok _ _ _ _ Hinit)
    as (bans & n & m & rr & Hb & Hs & Ht & Hrr & ->).
  cbn [Fleetcomp.size_limit Fleetcomp.tier Fleetcomp.banned_ships
       Fleetcomp.banned_types Fleetcomp.restrictions].
  assert (Hban : ∀ key x,
            x ∈ (list_to_set (default [] (bans !! key)) : gset string) ↔
            ∃ bans' l, rules !! "Banned" = Some (JBans bans')
                       ∧ bans' !! key = Some l ∧ x ∈ l).
  { intros key x. rewrite elem_of_list_to_set. split.
    - intros Hx. destruct (bans !! key) as [l|] eqn:Hl;
        [|inversion Hx].
      destruct (rules !! "Banned") as [v|] eqn:Hrb; simpl in Hb.
      + subst v. exists bans, l. repeat split; assumption.
      + injection Hb as <-. rewrite lookup_empty in Hl. discriminate.
    - intros (bans' & l & Hrb & Hl & Hx). rewrite Hrb in Hb. simpl in Hb.
      injection Hb as <-. rewrite Hl. exact Hx. }
  split; [|split; [|split; [apply Hban|split; [apply Hban|]]]].
  - exact Hs.
  - exact Ht.
  - intros k rule.
    rewrite (init_rules_lookup _ ∅ rr (NoDup_fst_map_to_list _) Hrr k rule).
    rewrite elem_of_map_to_list, lookup_empty, popped_rules_lookup.
    split; [intros [H|[_ [=]]]; exact H|intros H; left; exact H].
Qed.

Lemma init_attributes_witness :
  (Fleetcomp.RestrictionSet_init (ex_rules 2) 7 10).2 = Ok (ex_rs 2)
  ∧ default (JInt 7) (ex_rules 2 !! "TeamSize")
    = JInt (Fleetcomp.size_limit (ex_rs 2))
  ∧ default (JInt 10) (ex_rules 2 !! "Tier")
    = JInt (Fleetcomp.tier (ex_rs 2)).
Proof.
  assert (H : (Fleetcomp.RestrictionSet_init (ex_rules 2) 7 10).2
              = Ok (ex_rs 2)) by reflexivity.
  destruct (init_attributes (ex_rules 2) 7 10 (ex_rs 2) H)
    as (Hs & Ht & _).
  split; [exact H|split; [exact Hs|exact Ht]].
Defined.

(** X12. An entry under any other key that is not a rule (a misspelt
    ["Teamsize"], say) makes the constructor fail, with [TypeError] or
    [KeyError]. (An integer under ["Banned"] fails earlier, at [bans.pop],
    and is left aside.) *)
Theorem init_leftover_entry (rules : gmap string json) (team_size tier : Z)
    (k : string) (v : json) :
  (k ∉ ["Banned"; "TeamSize"; "Tier"]) →
  rules !! k = Some v →
  (∀ rule, v ≠ JRule rule) →
  (∀ n, rules !! "Banned" ≠ Some (JInt n)) →
  ∃ e, (Fleetcomp.RestrictionSet_init rules team_size tier).2 = Raise e
       ∧ (e = TypeError ∨ e = KeyError).
Proof.
  intros Hk Hl Hv _.
  unfold Fleetcomp.RestrictionSet_init, dict_pop. cbn [fst snd].
  destruct (default (JBans ∅) (rules !! "Banned"));
    destruct (default (JInt team_size) (delete "Banned" rules !! "TeamSize"));
    destruct (default (JInt tier)
                (delete "TeamSize" (delete "Banned" rules) !! "Tier"));
    try (eexists; split; [reflexivity|left; reflexivity]).
  destruct (init_rules_Raise
              (map_to_list (delete "Tier" (delete "TeamSize"
                                             (delete "Banned" rules))))
              ∅ k v) as (e & -> & He); [|exact Hv|].
  - apply elem_of_map_to_list, popped_rules_lookup. split; assumption.
  - exists e. split; [reflexivity|exact He].
Qed.

Lemma init_leftover_entry_witness :
  ∃ e, (Fleetcomp.RestrictionSet_init {[ "Teamsize" := JInt 3 ]} 7 10).2
       = Raise e
       ∧ (e = TypeError ∨ e = KeyError).
Proof.
  apply (init_leftover_entry {[ "Teamsize" := JInt 3 ]} 7 10 "Teamsize"
           (JInt 3)).
  - rewrite !elem_of_cons, elem_of_nil. intros [H|[H|[H|[]]]]; discriminate.
  - reflexivity.
  - intros rule. discriminate.
  - intros n. discriminate.
Defined.

End InitAttributes.

(** * The dialogue: [Team.menu] *)

Section ConsoleFacts.
Import Fleetcomp Console.

(** The options are the participating players under their positions. *)
Lemma options_at (l : list Player) (k : nat) (i : Z) (nm : string) :
  (i, nm) ∈ omap (fun '(i, p) => if Player_bool p
                                  then Some (Z.of_nat i, pname p) else None)
                 (imap (fun j p => ((k + j)%nat, p)) l)
  ↔ ∃ j p, i = Z.of_nat (k + j) ∧ l !! j = Some p
           ∧ Player_bool p = true ∧ pname p = nm.
Proof.
  rewrite list_elem_of_omap. split.
  - intros ([j' p] & Hin & Hsome).
    apply elem_of_lookup_imap in Hin as (j & q & [= -> ->] & Hl).
    destruct (Player_bool q) eqn:Hb; [|discriminate].
    injection Hsome as <- <-. exists j, q. auto.
  - intros (j & p & -> & Hl & Hb & <-). exists ((k + j)%nat, p). split.
    + apply elem_of_lookup_imap. exists j, p. auto.
    + rewrite Hb. reflexivity.
Qed.

Lemma options_length (l : list Player) (f : nat → nat) :
  length (omap (fun '(i, p) => if Player_bool p
                               then Some (Z.of_nat i, pname p) else None)
               (imap (fun j p => (f j, p)) l))
  = length (filter (fun p => Player_bool p = true) l).
Proof.
  revert f. induction l as [|p l IH]; intros f; [reflexivity|].
  rewrite filter_cons. specialize (IH (f ∘ S)).
  cbn [imap omap list_omap]. fold (@omap list _).
  destruct (Player_bool p) eqn:Hb.
  - rewrite decide_True by reflexivity. cbn [length]. f_equal. exact IH.
  - rewrite decide_False by discriminate. exact IH.
Qed.

Lemma options_keys (l : list Player) (k : nat) :
  NoDup (omap (fun '(i, p) => if Player_bool p
                              then Some (Z.of_nat i, pname p) else None)
              (imap (fun j p => ((k + j)%nat, p)) l)).*1.
Proof.
  revert k. induction l as [|p l IH]; intros k; [constructor|].
  cbn [imap omap list_omap]. fold (@omap list _).
  assert (Hrest : ∀ j (q : Player), ((k + S j)%nat, q) = ((S k + j)%nat, q))
    by (intros; f_equal; lia).
  assert (Heq : imap ((fun j p0 => ((k + j)%nat, p0)) ∘ S) l
                = imap (fun j p0 => ((S k + j)%nat, p0)) l).
  { apply imap_ext. intros j q _. apply Hrest. }
  rewrite Heq.
  destruct (Player_bool p); [|apply IH].
  cbn [fmap list_fmap fst]. constructor; [|apply IH].
  intros Hin. apply list_elem_of_fmap in Hin as ([i nm] & Hi & Hin).
  simpl in Hi. subst i.
  apply options_at in Hin as (j & q & Hj & _). lia.
Qed.

Lemma menu_options_length (self : Team) :
  length (menu_options self) = participating self.
Proof. apply (options_length _ id). Qed.

Lemma menu_options_lookup (self : Team) (i : Z) (nm : string) :
  (list_to_map (menu_options self) : gmap Z string) !! i = Some nm
  ↔ ∃ j p, i = Z.of_nat j ∧ elements (players self) !! j = Some p
           ∧ Player_bool p = true ∧ pname p = nm.
Proof.
  rewrite <- elem_of_list_to_map by apply (options_keys _ 0).
  apply (options_at _ 0).
Qed.

Lemma split_comma_cons (s : string) :
  ∃ piece pieces, split_comma s = piece :: pieces.
Proof.
  induction s as [|c s (piece & pieces & IH)]; simpl; [eauto|].
  destruct (Ascii.eqb c _); [eauto|]. rewrite IH. eauto.
Qed.

Context `{Builtins}.

Lemma chosen_numbers_cons (selections : string) (chosen : list Z) :
  chosen_numbers selections = Some chosen → (0 < length chosen)%nat.
Proof.
  unfold chosen_numbers. intros Hm.
  apply length_mapM in Hm. rewrite <- Hm.
  destruct (split_comma_cons selections) as (p & ps & ->). simpl. lia.
Qed.

(** What the loop of [menu] can end in: never an exception of its own
    other than [Quit] and the end of input; a returned list has
    [team_size] numbers and was parsed from a line of the input without
    [q]. It reads lines from the front and only adds output. *)
Lemma menu_loop_ends (team_size : Z) (options : list (Z * string))
    (input : list string) (output : list event)
    (out : outcome (list Z)) (c' : console) :
  menu_loop team_size options input output = (out, c') →
  (∀ e, out ≠ Raises e)
  ∧ (∀ chosen, out = Returns chosen →
       Z.of_nat (length chosen) = team_size
       ∧ ∃ before selections,
           input = before ++ selections :: stdin c'
           ∧ casefold_contains_q selections = false
           ∧ chosen_numbers selections = Some chosen)
  ∧ stdin c' `suffix_of` input
  ∧ (output ++ [Prompt team_size options]) `prefix_of` stdout c'.
Proof.
  revert output. induction input as [|selections input IH]; intros output.
  - simpl. intros [= <- <-]. simpl.
    split; [discriminate|split; [discriminate|split; reflexivity]].
  - cbn [menu_loop].
    assert (Hstep : ∀ o,
      menu_loop team_size options input o = (out, c') →
      (output ++ [Prompt team_size options]) `prefix_of` o →
      (∀ e, out ≠ Raises e)
      ∧ (∀ chosen, out = Returns chosen →
           Z.of_nat (length chosen) = team_size
           ∧ ∃ before selections0,
               selections :: input = before ++ selections0 :: stdin c'
               ∧ casefold_contains_q selections0 = false
               ∧ chosen_numbers selections0 = Some chosen)
      ∧ stdin c' `suffix_of` (selections :: input)
      ∧ (output ++ [Prompt team_size options]) `prefix_of` stdout c').
    { intros o Hrun Hpre.
      destruct (IH o Hrun) as (Hne & Hret & Hsuf & Hout).
      split; [exact Hne|split; [|split]].
      - intros chosen Hc.
        destruct (Hret chosen Hc) as (Hlen & before & sel & Hin & Hq & Hp).
        split; [exact Hlen|]. exists (selections :: before), sel.
        rewrite Hin. auto.
      - apply suffix_cons_r. exact Hsuf.
      - etrans; [exact Hpre|]. etrans; [|exact Hout].
        apply prefix_app_r. reflexivity. }
    destruct (casefold_contains_q selections) eqn:Hq.
    { intros [= <- <-]. simpl.
      split; [discriminate|split; [discriminate|split]].
      - apply suffix_cons_r. reflexivity.
      - reflexivity. }
    destruct (chosen_numbers selections) as [chosen|] eqn:Hp.
    + case_bool_decide as Hlen.
      * intros Hrun. apply (Hstep _ Hrun). apply prefix_app_r. reflexivity.
      * intros [= <- <-]. simpl.
        split; [discriminate|split; [|split]].
        -- intros ch [= <-]. split; [lia|].
           exists [], selections. auto.
        -- apply suffix_cons_r. reflexivity.
        -- reflexivity.
    + intros Hrun. apply (Hstep _ Hrun). apply prefix_app_r. reflexivity.
Qed.

End ConsoleFacts.

Section Menu.
Import Fleetcomp Console.

Lemma size_list_to_set_le (l : list string) :
  (size (list_to_set l : gset string) ≤ length l)%nat.
Proof.
  unfold size, set_size. simpl. apply submseteq_length, NoDup_submseteq.
  - apply NoDup_elements.
  - intros x Hx. apply elem_of_elements, elem_of_list_to_set in Hx. exact Hx.
Qed.

Lemma size_list_to_set_lt (l : list string) :
  ¬ NoDup l → (size (list_to_set l : gset string) < length l)%nat.
Proof.
  induction l as [|x l IH]; intros Hnd; [destruct Hnd; constructor|].
  cbn [list_to_set foldr length].
  destruct (decide (x ∈ l)) as [Hx|Hx].
  - pose proof (size_list_to_set_le l) as Hle.
    assert (Hsub : ({[ x ]} ∪ list_to_set l : gset string) ⊆ list_to_set l).
    { apply union_subseteq. split; [|reflexivity].
      apply singleton_subseteq_l, elem_of_list_to_set, Hx. }
    apply subseteq_size in Hsub. lia.
  - assert (Hl : ¬ NoDup l).
    { intros Hl. apply Hnd. constructor; assumption. }
    specialize (IH Hl).
    rewrite size_union_alt, size_singleton.
    assert (Hsub : (list_to_set l ∖ {[ x ]} : gset string) ⊆ list_to_set l).
    { intros y Hy. apply elem_of_difference in Hy as [Hy _]. exact Hy. }
    apply subseteq_size in Hsub. lia.
Qed.

(** Selecting by name from a team with distinct names gives at most as
    many players as names. *)
Lemma select_size (team : Team) (names : gset string) :
  wf_team team →
  (size (players (Team_select team names)) ≤ size names)%nat.
Proof.
  intros [_ Hinj]. unfold size at 1 2, set_size. simpl.
  rewrite <- (length_fmap pname).
  apply submseteq_length, NoDup_submseteq.
  - apply NoDup_fmap_2_strong; [|apply NoDup_elements].
    intros p q Hp Hq Hpq.
    apply elem_of_elements, elem_of_filter in Hp as [_ Hp].
    apply elem_of_elements, elem_of_filter in Hq as [_ Hq].
    exact (Hinj p Hp q Hq Hpq).
  - intros nm Hnm. apply list_elem_of_fmap in Hnm as (p & -> & Hp).
    apply elem_of_elements, elem_of_filter in Hp as [Hp _].
    apply elem_of_elements. exact Hp.
Qed.

Lemma participating_le_size (team : Team) :
  (participating team ≤ size (players team))%nat.
Proof.
  unfold participating, size, set_size. simpl. apply length_filter.
Qed.

Lemma Player_bool_true (p : Player) : Player_bool p = true ↔ ships p ≠ ∅.
Proof. unfold Player_bool. apply bool_decide_eq_true. Qed.

Context `{Builtins}.

(** The names [menu] looks up for a list of numbers. *)
Lemma chosen_names_spec (self : Team) (chosen : list Z) (names : list string) :
  mapM (fun i => (list_to_map (menu_options self) : gmap Z string) !! i)
       chosen = Some names →
  names = (fun i => default "" ((list_to_map (menu_options self)
                                   : gmap Z string) !! i)) <$> chosen.
Proof.
  intros Hm. apply mapM_Some in Hm.
  induction Hm as [|i nm chosen names Hi _ IH]; [reflexivity|].
  cbn [fmap list_fmap]. rewrite Hi. simpl. f_equal. exact IH.
Qed.

(** The result of [menu] once the loop has returned a list of numbers. *)
Lemma menu_once (self : Team) (team_size : Z) (selections : string)
    (chosen : list Z) (input : list string) (output : list event) :
  team_size ≤ Z.of_nat (participating self) →
  casefold_contains_q selections = false →
  chosen_numbers selections = Some chosen →
  Z.of_nat (length chosen) = team_size →
  menu self team_size (mkConsole (selections :: input) output)
  = let c := mkConsole input
               (output ++ [Prompt team_size (menu_options self)]) in
    match mapM (fun i => (list_to_map (menu_options self)
                            : gmap Z string) !! i) chosen with
    | Some chosen_names =>
        (Returns (Team_select self (list_to_set chosen_names)), c)
    | None => (Raises KeyError, c)
    end.
Proof.
  intros Hle Hq Hp Hlen. unfold menu. rewrite menu_options_length.
  destruct (Z.of_nat (participating self) <? team_size) eqn:Hg;
    [apply Z.ltb_lt in Hg; lia|].
  cbn [stdin stdout menu_loop]. rewrite Hq, Hp.
  rewrite bool_decide_eq_false_2 by (intros Hne; apply Hne, Hlen).
  reflexivity.
Qed.

(** [menu] raises [ConfigurationError] exactly for a team size above the
    number of players with ships. *)
Lemma menu_refuses_iff (self : Team) (team_size : Z) (c : console) :
  (menu self team_size c).1 = Raises ConfigurationError
  ↔ Z.of_nat (participating self) < team_size.
Proof.
  unfold menu. rewrite menu_options_length.
  destruct (Z.of_nat (participating self) <? team_size) eqn:Hg.
  - apply Z.ltb_lt in Hg. simpl. split; auto.
  - apply Z.ltb_ge in Hg.
    destruct (menu_loop _ _ _ _) as [out c'] eqn:Hloop.
    destruct (menu_loop_ends _ _ _ _ _ _ Hloop) as (Hne & _).
    split; [|lia]. destruct out as [chosen|e| |]; simpl; try discriminate.
    + destruct (mapM _ chosen); simpl; discriminate.
    + destruct (Hne e eq_refl).
Qed.

(** So does the second half of [count]. *)
Lemma count_run_refuses_iff (team : Team) (ref : nat) (r : RestrictionSet)
    (h : heap RestrictionSet) :
  rsets h !! ref = Some r →
  count_run team ref h = Raise ConfigurationError
  ↔ Z.of_nat (participating team) < size_limit r.
Proof.
  intros Href. unfold count_run, read, mbind, M_bind. rewrite Href.
  fold (participating team).
  destruct (Z.of_nat (participating team) <? size_limit r) eqn:Hg.
  - apply Z.ltb_lt in Hg. split; auto.
  - apply Z.ltb_ge in Hg. split; [|lia].
    unfold lift. destruct (generate_comps team r) as [l|e] eqn:Hgen;
      [discriminate|].
    unfold generate_comps in Hgen.
    destruct (size_limit r <? 0); [|discriminate].
    injection Hgen as <-. discriminate.
Qed.

End Menu.

Section MenuClaims.
Import Fleetcomp Console.
Context `{Builtins}.

(** X13. [menu] raises [ConfigurationError] exactly when fewer players have
    ships than the team size asks for, and then before anything is
    printed or read; in every other case it starts by printing the
    options. *)
Theorem menu_refuses (self : Team) (team_size : Z) (c : console) :
  ((menu self team_size c).1 = Raises ConfigurationError
   ↔ Z.of_nat (participating self) < team_size)
  ∧ ((menu self team_size c).1 = Raises ConfigurationError →
     (menu self team_size c).2 = c)
  ∧ ((menu self team_size c).1 ≠ Raises ConfigurationError →
     (stdout c ++ [Prompt team_size (menu_options self)])
       `prefix_of` stdout (menu self team_size c).2).
Proof.
  split; [apply menu_refuses_iff|].
  pose proof (menu_refuses_iff self team_size c) as Hiff. revert Hiff.
  unfold menu. rewrite menu_options_length.
  destruct (Z.of_nat (participating self) <? team_size) eqn:Hg.
  - simpl. intros _. split; [reflexivity|]. intros Hne. destruct Hne.
    reflexivity.
  - destruct (menu_loop team_size (menu_options self) (stdin c) (stdout c))
      as [out c'] eqn:Hloop.
    destruct (menu_loop_ends _ _ _ _ _ _ Hloop) as (_ & _ & _ & Hpre).
    apply Z.ltb_ge in Hg. intros Hiff. split.
    + intros Hr. apply Hiff in Hr. lia.
    + intros _. destruct out as [chosen|e| |];
        [destruct (mapM _ chosen)|..]; exact Hpre.
Qed.

(** X14. A team that [menu] returns was chosen by a line of the input
    without [q] that parsed to exactly [team_size] numbers; its players
    are the players with ships at these positions of the team, so there
    are at most [team_size] of them. *)
Theorem menu_returns (self : Team) (team_size : Z) (c c' : console)
    (division : Team) :
  wf_team self →
  menu self team_size c = (Returns division, c') →
  (∃ before selections chosen,
      stdin c = before ++ selections :: stdin c'
      ∧ casefold_contains_q selections = false
      ∧ chosen_numbers selections = Some chosen
      ∧ Z.of_nat (length chosen) = team_size
      ∧ ∀ p, p ∈ players division ↔
             ∃ j, Z.of_nat j ∈ chosen
                  ∧ elements (players self) !! j = Some p ∧ ships p ≠ ∅)
  ∧ players division ⊆ players self
  ∧ Z.of_nat (size (players division)) ≤ team_size.
Proof.
  intros Hwf. unfold menu.
  destruct (Z.of_nat (length (menu_options self)) <? team_size);
    [discriminate|].
  destruct (menu_loop team_size (menu_options self) (stdin c) (stdout c))
    as [out c1] eqn:Hloop.
  destruct (menu_loop_ends _ _ _ _ _ _ Hloop) as (_ & Hret & _).
  destruct out as [chosen|e| |]; try discriminate.
  destruct (Hret chosen eq_refl) as (Hlen & before & selections & Hin & Hq & Hp).
  destruct (mapM _ chosen) as [names|] eqn:Hnames; [|discriminate].
  intros [= <- <-].
  pose proof (chosen_names_spec _ _ _ Hnames) as Hn.
  apply mapM_Some in Hnames.
  split; [|split].
  - exists before, selections, chosen.
    split; [exact Hin|split; [exact Hq|split; [exact Hp|split; [exact Hlen|]]]].
    intros p. unfold Team_select. cbn [players].
    rewrite elem_of_filter, elem_of_list_to_set. split.
    + intros [Hnm Hpl].
      apply list_elem_of_lookup in Hnm as [k Hk].
      destruct (Forall2_lookup_r _ _ _ k _ Hnames Hk) as (i & Hi & Hlook).
      apply menu_options_lookup in Hlook as (j & q & -> & Hj & Hb & Hpq).
      assert (q = p) as ->.
      { destruct Hwf as [_ Hinj]. apply (Hinj q); [|exact Hpl|exact Hpq].
        apply elem_of_elements, list_elem_of_lookup. eauto. }
      exists j. split; [|split; [exact Hj|apply Player_bool_true, Hb]].
      apply list_elem_of_lookup. eauto.
    + intros (j & Hj & Hel & Hs).
      assert (Hlook : (list_to_map (menu_options self) : gmap Z string)
                      !! Z.of_nat j = Some (pname p)).
      { apply menu_options_lookup. exists j, p.
        split; [reflexivity|split; [exact Hel|split; [|reflexivity]]].
        apply Player_bool_true, Hs. }
      split.
      * rewrite Hn. apply list_elem_of_fmap. exists (Z.of_nat j).
        rewrite Hlook. split; [reflexivity|exact Hj].
      * apply elem_of_elements, list_elem_of_lookup. eauto.
  - intros p Hp'. apply elem_of_filter in Hp' as [_ Hp']. exact Hp'.
  - pose proof (select_size self (list_to_set names) Hwf) as Hsz.
    pose proof (size_list_to_set_le names) as Hle.
    apply Forall2_length in Hnames. lia.
Qed.

(** X15. With a team size of zero or less [menu] never returns a team: a
    line always gives at least one number, so no line has the number of
    numbers asked for; the call ends with [Quit] or at the end of the
    input. *)
Theorem menu_needs_positive_size (self : Team) (team_size : Z) (c : console) :
  team_size ≤ 0 →
  (menu self team_size c).1 = Quits ∨ (menu self team_size c).1 = EndOfInput.
Proof.
  intros Hts. unfold menu.
  destruct (Z.of_nat (length (menu_options self)) <? team_size) eqn:Hg;
    [apply Z.ltb_lt in Hg; lia|].
  destruct (menu_loop team_size (menu_options self) (stdin c) (stdout c))
    as [out c1] eqn:Hloop.
  destruct (menu_loop_ends _ _ _ _ _ _ Hloop) as (Hne & Hret & _).
  destruct out as [chosen|e| |]; simpl; auto.
  - destruct (Hret chosen eq_refl) as (Hlen & _ & selections & _ & _ & Hp).
    apply chosen_numbers_cons in Hp. lia.
  - destruct (Hne e eq_refl).
Qed.

(** X16. A number that is no option is not asked for again: when the line
    has the right number of numbers and one of them is not the position
    of a player with ships, [menu] raises [KeyError]. *)
Theorem menu_unknown_number (self : Team) (team_size : Z)
    (selections : string) (chosen : list Z) (i : Z)
    (input : list string) (output : list event) :
  team_size ≤ Z.of_nat (participating self) →
  casefold_contains_q selections = false →
  chosen_numbers selections = Some chosen →
  Z.of_nat (length chosen) = team_size →
  i ∈ chosen →
  (∀ j p, elements (players self) !! j = Some p → ships p ≠ ∅ →
          i ≠ Z.of_nat j) →
  menu self team_size (mkConsole (selections :: input) output)
  = (Raises KeyError,
     mkConsole input (output ++ [Prompt team_size (menu_options self)])).
Proof.
  intros Hle Hq Hp Hlen Hi Hno.
  rewrite (menu_once _ _ _ _ _ _ Hle Hq Hp Hlen). cbv zeta.
  assert (Hnone : mapM (fun i => (list_to_map (menu_options self)
                                    : gmap Z string) !! i) chosen = None).
  { apply mapM_None, Exists_exists. exists i. split; [exact Hi|].
    destruct (_ !! i) as [nm|] eqn:Hlook; [|reflexivity].
    apply menu_options_lookup in Hlook as (j & p & -> & Hj & Hb & _).
    exfalso. apply (Hno j p Hj); [apply Player_bool_true, Hb|reflexivity]. }
  rewrite Hnone. reflexivity.
Qed.

(** X17. A repeated number is accepted: the line counts as [team_size]
    numbers, the team returned has fewer players, and the enumeration for
    that team size then yields nothing. *)
Theorem menu_repeated_number (self : Team) (r : RestrictionSet)
    (selections : string) (chosen : list Z)
    (input : list string) (output : list event)
    (division : Team) (c' : console) :
  wf_team self →
  casefold_contains_q selections = false →
  chosen_numbers selections = Some chosen →
  Z.of_nat (length chosen) = size_limit r →
  ¬ NoDup chosen →
  menu self (size_limit r) (mkConsole (selections :: input) output)
  = (Returns division, c') →
  Z.of_nat (size (players division)) < size_limit r
  ∧ generate_comps division r = Ok [].
Proof.
  intros Hwf Hq Hp Hlen Hdup Hmenu.
  assert (Hle : size_limit r ≤ Z.of_nat (participating self)).
  { destruct (Z.lt_ge_cases (Z.of_nat (participating self)) (size_limit r))
      as [Hlt|Hge]; [|exact Hge].
    exfalso. unfold menu in Hmenu. rewrite menu_options_length in Hmenu.
    apply Z.ltb_lt in Hlt. rewrite Hlt in Hmenu. discriminate. }
  rewrite (menu_once _ _ _ _ _ _ Hle Hq Hp Hlen) in Hmenu. cbv zeta in Hmenu.
  destruct (mapM _ chosen) as [names|] eqn:Hnames; [|discriminate].
  injection Hmenu as <- <-.
  pose proof (chosen_names_spec _ _ _ Hnames) as Hn.
  assert (Hnd : ¬ NoDup names).
  { rewrite Hn. intros Hnd. apply Hdup. exact (NoDup_fmap_1 _ _ Hnd). }
  pose proof (size_list_to_set_lt names Hnd) as Hlt.
  pose proof (select_size self (list_to_set names) Hwf) as Hsz.
  apply mapM_Some, Forall2_length in Hnames.
  assert (Hsmall : Z.of_nat (size (players (Team_select self
                                              (list_to_set names))))
                   < size_limit r) by lia.
  split; [exact Hsmall|].
  apply generate_comps_silent.
  pose proof (participating_le_size (Team_select self (list_to_set names))).
  lia.
Qed.

End MenuClaims.

Section MenuExamples.
Import Fleetcomp Console.

Lemma ex_team_wf : wf_team ex_team.
Proof.
  split; apply (bool_decide_unpack _); vm_compute; exact I.
Qed.

Lemma menu_returns_witness :
  wf_team ex_team
  ∧ ∃ division c',
      @menu ex_builtins ex_team 2 (mkConsole ["0,2"; "1"] [])
      = (Returns division, c')
      ∧ players division ⊆ players ex_team
      ∧ Z.of_nat (size (players division)) ≤ 2.
Proof.
  split; [exact ex_team_wf|].
  exists (Team_select ex_team (list_to_set ["A"; "B"])),
         (mkConsole ["1"] [Prompt 2 [(0, "A"); (1, "C"); (2, "B")]]).
  assert (Hmenu : @menu ex_builtins ex_team 2 (mkConsole ["0,2"; "1"] [])
                  = (Returns (Team_select ex_team (list_to_set ["A"; "B"])),
                     mkConsole ["1"]
                       [Prompt 2 [(0, "A"); (1, "C"); (2, "B")]]))
    by reflexivity.
  split; [exact Hmenu|].
  exact (proj2 (@menu_returns ex_builtins ex_team 2 _ _ _ ex_team_wf Hmenu)).
Defined.

Lemma menu_needs_positive_size_witness :
  0 ≤ 0
  ∧ ((@menu ex_builtins ex_team 0 (mkConsole ["0"; "q"] [])).1 = Quits
     ∨ (@menu ex_builtins ex_team 0 (mkConsole ["0"; "q"] [])).1
       = EndOfInput).
Proof.
  split; [lia|].
  apply (@menu_needs_positive_size ex_builtins ex_team 0). lia.
Defined.

Lemma menu_unknown_number_witness :
  @menu ex_builtins ex_team 2 (mkConsole ["0,7"] [])
  = (Raises KeyError,
     mkConsole [] ([] ++ [Prompt 2 (menu_options ex_team)])).
Proof.
  apply (@menu_unknown_number ex_builtins ex_team 2 "0,7" [0; 7] 7).
  - assert (Hp : participating ex_team = 3%nat) by reflexivity.
    rewrite Hp. lia.
  - reflexivity.
  - reflexivity.
  - reflexivity.
  - apply elem_of_cons. right. apply elem_of_cons. left. reflexivity.
  - intros j p Hj _. apply lookup_lt_Some in Hj.
    assert (Hl : length (elements (players ex_team)) = 3%nat) by reflexivity.
    rewrite Hl in Hj. lia.
Defined.

Lemma menu_repeated_number_witness :
  wf_team ex_team
  ∧ ¬ NoDup [0; 0]
  ∧ Z.of_nat (size (players (Team_select ex_team (list_to_set ["A"; "A"]))))
    < size_limit (ex_rs 2)
  ∧ generate_comps (Team_select ex_team (list_to_set ["A"; "A"])) (ex_rs 2)
    = Ok [].
Proof.
  assert (Hdup : ¬ NoDup [0; 0]).
  { intros Hnd. apply NoDup_cons in Hnd as [Hx _]. apply Hx.
    apply elem_of_cons. left. reflexivity. }
  split; [exact ex_team_wf|split; [exact Hdup|]].
  apply (@menu_repeated_number ex_builtins ex_team (ex_rs 2) "0,0" [0; 0]
           ["1"] [] _
           (mkConsole ["1"] [Prompt 2 [(0, "A"); (1, "C"); (2, "B")]])
           ex_team_wf).
  - reflexivity.
  - reflexivity.
  - reflexivity.
  - exact Hdup.
  - reflexivity.
Defined.

End MenuExamples.

(** * The dialogue: [comps] *)

Section Comps.
Import Fleetcomp Console.

Lemma numbered_app (n : nat) (l1 l2 : list (gset Ship)) :
  numbered n (l1 ++ l2) = numbered n l1 ++ numbered (n + length l1) l2.
Proof.
  unfold numbered. rewrite imap_app. f_equal.
  apply imap_ext. intros i comp _. simpl. f_equal. lia.
Qed.

Lemma numbered_only (n : nat) (l : list (gset Ship)) (ev : event) :
  ev ∈ numbered n l → ∃ i comp, ev = Composition (n + i) comp ∧ comp ∈ l.
Proof.
  intros Hev. apply elem_of_lookup_imap in Hev as (i & comp & -> & Hl).
  exists i, comp. split; [reflexivity|]. apply list_elem_of_lookup. eauto.
Qed.

Lemma take_take_drop {A} (l : list A) (t k : nat) :
  take t l ++ take k (drop t l) = take (length (take t l) + k) l.
Proof.
  assert (Happ : ∀ b d : list A,
            b ++ take k d = take (length b + k) (b ++ d)).
  { intros b d. rewrite take_app_add. reflexivity. }
  rewrite (Happ (take t l) (drop t l)), take_drop. reflexivity.
Qed.

Lemma take_length_take {A} (l : list A) (t : nat) :
  take (length (take t l)) l = take t l.
Proof.
  revert t. induction l as [|x l IH]; intros [|t]; simpl; f_equal; auto.
Qed.

Context `{Builtins}.

(** One round of the loop of [comps]. *)
Lemma comps_loop_unfold (compgen : list (gset Ship)) (n : nat) (to_take : Z)
    (input : list string) (output : list event) :
  comps_loop compgen n to_take input output
  = if bool_decide (to_take < 0 ∨ maxsize < to_take) then
      (Raises ValueError, mkConsole input output)
    else
      match take (Z.to_nat to_take) compgen with
      | [] => (Returns (), mkConsole input (output ++ [Expended n]))
      | comp :: rest =>
          match input with
          | [] => (EndOfInput,
                   mkConsole [] (output ++ numbered n (comp :: rest)))
          | instruction :: input =>
              if casefold_startswith_q instruction then
                (Returns (),
                 mkConsole input (output ++ numbered n (comp :: rest)))
              else
                comps_loop (drop (Z.to_nat to_take) compgen)
                  (n + length (comp :: rest)) (default 1 (int_ instruction))
                  input (output ++ numbered n (comp :: rest))
          end
      end.
Proof.
  destruct input; cbn [comps_loop];
    (destruct (bool_decide _); [reflexivity|]);
    destruct (take (Z.to_nat to_take) compgen); reflexivity.
Qed.

(** What the loop of [comps] prints: the next [k] compositions of the
    generator, numbered on from [n], and after them, at most, the closing
    line, which carries the number the next composition would have had. *)
Lemma comps_loop_prints (compgen : list (gset Ship)) (n : nat) (to_take : Z)
    (input : list string) (output : list event)
    (out : outcome unit) (c' : console) :
  comps_loop compgen n to_take input output = (out, c') →
  ∃ k, (k ≤ length compgen)%nat
       ∧ (stdout c' = output ++ numbered n (take k compgen)
          ∨ stdout c' = output ++ numbered n (take k compgen)
                        ++ [Expended (n + k)]).
Proof.
  revert compgen n to_take output.
  induction input as [|instruction input IH];
    intros compgen n to_take output; rewrite comps_loop_unfold;
    (case_bool_decide as Hbad;
     [intros [= <- <-]; exists 0%nat; split; [lia|left];
      rewrite take_0; cbn [stdout numbered imap]; rewrite app_nil_r;
      reflexivity|]);
    (destruct (take (Z.to_nat to_take) compgen) as [|comp batch] eqn:Hbatch;
     [intros [= <- <-]; exists 0%nat; split; [lia|right];
      rewrite take_0, Nat.add_0_r; reflexivity|]).
  - intros [= <- <-]. exists (length (comp :: batch)). split.
    + rewrite <- Hbatch, length_take. lia.
    + left. rewrite <- Hbatch, take_length_take. reflexivity.
  - assert (Hshown : ∀ k,
      numbered n (comp :: batch)
        ++ numbered (n + length (comp :: batch))
             (take k (drop (Z.to_nat to_take) compgen))
      = numbered n (take (length (comp :: batch) + k) compgen)).
    { intros k. rewrite <- numbered_app. f_equal.
      rewrite <- Hbatch. apply take_take_drop. }
    assert (Hk : ∀ k, (k ≤ length (drop (Z.to_nat to_take) compgen))%nat →
                      (length (comp :: batch) + k ≤ length compgen)%nat).
    { intros k Hk. rewrite <- Hbatch, length_take.
      rewrite length_drop in Hk. lia. }
    destruct (casefold_startswith_q instruction).
    + intros [= <- <-]. exists (length (comp :: batch) + 0)%nat. split.
      * apply Hk. lia.
      * left. cbn [stdout]. rewrite <- Hshown, take_0.
        cbn [numbered imap]. rewrite app_nil_r. reflexivity.
    + intros Hrun. destruct (IH _ _ _ _ Hrun) as (k & Hle & Hout).
      exists (length (comp :: batch) + k)%nat. split; [apply Hk, Hle|].
      rewrite <- Hshown, Nat.add_assoc.
      destruct Hout as [->| ->]; [left|right]; rewrite <- !(assoc_L (++));
        reflexivity.
Qed.

(** With a count between 1 and [sys.maxsize] at every step and as many
    answers as compositions, the loop shows every composition and ends
    with the closing line. *)
Lemma comps_loop_exhausts (compgen : list (gset Ship)) (n : nat) (to_take : Z)
    (input : list string) (output : list event) :
  1 ≤ maxsize →
  1 ≤ to_take ≤ maxsize →
  Forall (fun instruction =>
            casefold_startswith_q instruction = false
            ∧ ∀ z, int_ instruction = Some z → 1 ≤ z ≤ maxsize) input →
  (length compgen ≤ length input)%nat →
  ∃ m, comps_loop compgen n to_take input output
       = (Returns (),
          mkConsole (drop m input)
            (output ++ numbered n compgen ++ [Expended (n + length compgen)])).
Proof.
  intros Hmax. revert compgen n to_take output.
  induction input as [|instruction input IH];
    intros compgen n to_take output Hto Hall Hlen; rewrite comps_loop_unfold;
    rewrite bool_decide_eq_false_2 by lia.
  - destruct compgen; [|simpl in Hlen; lia].
    rewrite take_nil. exists 0%nat. simpl. rewrite Nat.add_0_r. reflexivity.
  - destruct (take (Z.to_nat to_take) compgen) as [|comp batch] eqn:Hbatch.
    + destruct compgen as [|comp rest].
      * exists 0%nat. simpl. rewrite Nat.add_0_r. reflexivity.
      * exfalso. destruct (Z.to_nat to_take) eqn:Ht; [lia|discriminate].
    + apply Forall_cons in Hall as [[Hq Hint] Hall]. rewrite Hq.
      assert (Hnext : 1 ≤ default 1 (int_ instruction) ≤ maxsize).
      { destruct (int_ instruction) as [z|] eqn:Hz; simpl;
          [apply Hint; reflexivity|lia]. }
      assert (Hrest : (length (drop (Z.to_nat to_take) compgen)
                       ≤ length input)%nat).
      { rewrite length_drop. simpl in Hlen.
        assert (0 < Z.to_nat to_take)%nat by lia. lia. }
      destruct (IH (drop (Z.to_nat to_take) compgen)
                  (n + length (comp :: batch))%nat
                  (default 1 (int_ instruction))
                  (output ++ numbered n (comp :: batch)) Hnext Hall Hrest)
        as (m & ->).
      exists (S m). cbn [drop]. f_equal. f_equal.
      assert (Hall' : compgen
                      = (comp :: batch) ++ drop (Z.to_nat to_take) compgen).
      { rewrite <- Hbatch, take_drop. reflexivity. }
      rewrite Hall' at 3 4.
      rewrite numbered_app, length_app, Nat.add_assoc, <- !(assoc_L (++)).
      reflexivity.
Qed.

(** The loop of [comps] ends by returning, at the end of the input, or
    with the [ValueError] of [islice]. *)
Lemma comps_loop_ends (compgen : list (gset Ship)) (n : nat) (to_take : Z)
    (input : list string) (output : list event)
    (out : outcome unit) (c' : console) :
  comps_loop compgen n to_take input output = (out, c') →
  out = Returns () ∨ out = EndOfInput ∨ out = Raises ValueError.
Proof.
  revert compgen n to_take output.
  induction input as [|instruction input IH];
    intros compgen n to_take output; rewrite comps_loop_unfold;
    (case_bool_decide; [intros [= <- <-]; auto|]);
    (destruct (take (Z.to_nat to_take) compgen);
     [intros [= <- <-]; auto|]).
  - intros [= <- <-]. auto.
  - destruct (casefold_startswith_q instruction);
      [intros [= <- <-]; auto|apply IH].
Qed.

(** [generate_comps] for a team as [Team.load] and [Team.select] build
    it. *)
Lemma generate_comps_legal (team : Team) (self : RestrictionSet)
    (compgen : list (gset Ship)) (comp : gset Ship) :
  wf_team team →
  generate_comps team self = Ok compgen →
  comp ∈ compgen →
  is_valid self comp = true
  ∧ Z.of_nat (size comp) = size_limit self
  ∧ distinct_owners comp.
Proof.
  intros Hwf Hgen Hc. unfold generate_comps in Hgen.
  destruct (size_limit self <? 0); [discriminate|].
  injection Hgen as <-.
  apply elem_of_flat_map in Hc as (group & Hgroup & Hc).
  apply combinations_spec in Hgroup as [Hsub _].
  destruct (wf_team_group _ _ Hwf Hsub) as [Hown Hnd].
  destruct (team_compositions_exact self group comp Hown Hnd Hc)
    as (Hsz & Hdist & Hv).
  auto.
Qed.

(** The loop of [menu] prints no composition. *)
Lemma menu_loop_prints (team_size : Z) (options : list (Z * string))
    (input : list string) (output : list event)
    (out : outcome (list Z)) (c' : console) (n : nat) (comp : gset Ship) :
  menu_loop team_size options input output = (out, c') →
  Composition n comp ∈ stdout c' → Composition n comp ∈ output.
Proof.
  assert (Hadd : ∀ (o : list event) ev,
            (∀ n' comp', ev ≠ Composition n' comp') →
            Composition n comp ∈ o ++ [ev] → Composition n comp ∈ o).
  { intros o ev Hev Hin. apply elem_of_app in Hin as [Hin|Hin]; [exact Hin|].
    apply list_elem_of_singleton in Hin. destruct (Hev _ _ (eq_sym Hin)). }
  assert (Hadd2 : ∀ (o : list event) ev ev',
            (∀ n' comp', ev ≠ Composition n' comp') →
            (∀ n' comp', ev' ≠ Composition n' comp') →
            Composition n comp ∈ (o ++ [ev]) ++ [ev'] →
            Composition n comp ∈ o).
  { intros o ev ev' Hev Hev' Hin.
    apply (Hadd o ev Hev), (Hadd _ ev' Hev'), Hin. }
  revert output. induction input as [|selections input IH]; intros output;
    cbn [menu_loop].
  - intros [= <- <-] Hin.
    eapply Hadd; [|exact Hin]. intros ? ?. discriminate.
  - destruct (casefold_contains_q selections).
    { intros [= <- <-] Hin.
      eapply Hadd; [|exact Hin]. intros ? ?. discriminate. }
    destruct (chosen_numbers selections) as [chosen|].
    + case_bool_decide.
      * intros Hrun Hin. specialize (IH _ Hrun Hin).
        eapply Hadd2; [| |exact IH]; intros ? ?; discriminate.
      * intros [= <- <-] Hin.
        eapply Hadd; [|exact Hin]. intros ? ?. discriminate.
    + intros Hrun Hin. specialize (IH _ Hrun Hin).
      eapply Hadd2; [| |exact IH]; intros ? ?; discriminate.
Qed.

(** What [comps] does once [menu] has returned: a team size that [menu]
    accepts is positive, so the generator raises nothing. *)
Lemma comps_run_after_menu (team : Team) (r : RestrictionSet)
    (c c1 : console) (division : Team) :
  menu team (size_limit r) c = (Returns division, c1) →
  ∃ compgen,
    generate_comps division r = Ok compgen
    ∧ comps_run team r c = comps_loop compgen 1 1 (stdin c1) (stdout c1).
Proof.
  intros Hmenu. unfold comps_run. rewrite Hmenu.
  unfold generate_comps.
  destruct (size_limit r <? 0) eqn:Hneg; [|eauto].
  apply Z.ltb_lt in Hneg. exfalso.
  unfold menu in Hmenu.
  destruct (Z.of_nat (length (menu_options team)) <? size_limit r);
    [discriminate|].
  destruct (menu_loop (size_limit r) (menu_options team) (stdin c) (stdout c))
    as [out c2] eqn:Hloop.
  destruct (menu_loop_ends _ _ _ _ _ _ Hloop) as (_ & Hret & _).
  destruct out as [chosen|e| |]; try discriminate.
  destruct (Hret chosen eq_refl) as (Hlen & _). lia.
Qed.

End Comps.

Section CompsClaims.
Import Fleetcomp Console.
Context `{Builtins}.

(** X18. Once [menu] has returned a division, [comps] prints the first [k]
    compositions that [generate_comps] yields for it, in that order and
    numbered from 1, and nothing else except, at most, the closing line;
    the number in the closing line is [k + 1], one more than the number
    of compositions shown. *)
Theorem comps_shows_in_order (team : Team) (r : RestrictionSet)
    (c c1 : console) (division : Team) :
  menu team (size_limit r) c = (Returns division, c1) →
  ∃ compgen k,
    generate_comps division r = Ok compgen
    ∧ (k ≤ length compgen)%nat
    ∧ (stdout (comps_run team r c).2
       = stdout c1 ++ numbered 1 (take k compgen)
       ∨ stdout (comps_run team r c).2
         = stdout c1 ++ numbered 1 (take k compgen) ++ [Expended (S k)]).
Proof.
  intros Hmenu.
  destruct (comps_run_after_menu _ _ _ _ _ Hmenu) as (compgen & Hgen & ->).
  destruct (comps_loop compgen 1 1 (stdin c1) (stdout c1)) as [out c'] eqn:Hl.
  destruct (comps_loop_prints _ _ _ _ _ _ _ Hl) as (k & Hk & Hout).
  exists compgen, k. split; [exact Hgen|split; [exact Hk|exact Hout]].
Qed.

(** X19. Every composition [comps] prints for a well-formed team is legal:
    valid for the restriction set, of exactly the team size, with at most
    one ship per player, and made of ships of the team's players. *)
Theorem comps_prints_legal (team : Team) (r : RestrictionSet) (c : console)
    (n : nat) (comp : gset Ship) :
  wf_team team →
  Composition n comp ∈ stdout (comps_run team r c).2 →
  Composition n comp ∈ stdout c
  ∨ (is_valid r comp = true
     ∧ Z.of_nat (size comp) = size_limit r
     ∧ distinct_owners comp
     ∧ ∀ s, s ∈ comp → ∃ p, p ∈ players team ∧ s ∈ ships p).
Proof.
  intros Hwf.
  destruct (menu team (size_limit r) c) as [out c1] eqn:Hmenu.
  assert (Hquiet : Composition n comp ∈ stdout c1 →
                   Composition n comp ∈ stdout c).
  { unfold menu in Hmenu.
    destruct (Z.of_nat (length (menu_options team)) <? size_limit r).
    { injection Hmenu as <- <-. auto. }
    destruct (menu_loop (size_limit r) (menu_options team) (stdin c)
                (stdout c)) as [out2 c2] eqn:Hloop.
    intros Hin. apply (menu_loop_prints _ _ _ _ _ _ _ _ Hloop).
    destruct out2 as [chosen|e| |];
      [destruct (mapM _ chosen)|..]; injection Hmenu as <- <-; exact Hin. }
  destruct out as [division|e| |];
    try (unfold comps_run; rewrite Hmenu; simpl; intros Hin; left;
         exact (Hquiet Hin)).
  destruct (comps_run_after_menu _ _ _ _ _ Hmenu) as (compgen & Hgen & ->).
  destruct (comps_loop compgen 1 1 (stdin c1) (stdout c1)) as [out c'] eqn:Hl.
  destruct (comps_loop_prints _ _ _ _ _ _ _ Hl) as (k & Hk & Hout).
  simpl. intros Hin.
  assert (Hcases : Composition n comp ∈ stdout c1
                   ∨ Composition n comp ∈ numbered 1 (take k compgen)).
  { destruct Hout as [Hout|Hout]; rewrite Hout in Hin;
      apply elem_of_app in Hin as [Hin|Hin]; auto.
    apply elem_of_app in Hin as [Hin|Hin]; auto.
    apply list_elem_of_singleton in Hin. discriminate. }
  destruct Hcases as [Hold|Hnew]; [left; exact (Hquiet Hold)|right].
  apply numbered_only in Hnew as (i & comp' & [= _ ->] & Hc).
  apply (subseteq_take k compgen) in Hc.
  assert (Hsel : ∃ names, division = Team_select team names).
  { unfold menu in Hmenu.
    destruct (Z.of_nat (length (menu_options team)) <? size_limit r);
      [discriminate|].
    destruct (menu_loop _ _ _ _) as [out2 c2].
    destruct out2 as [chosen|e| |]; try discriminate.
    destruct (mapM _ chosen) as [names|]; [|discriminate].
    injection Hmenu as <- _. eauto. }
  destruct Hsel as (names & ->).
  destruct (generate_comps_legal _ _ _ _ (Team_select_wf team names Hwf)
              Hgen Hc) as (Hv & Hsz & Hdist).
  split; [exact Hv|split; [exact Hsz|split; [exact Hdist|]]].
  intros s Hs.
  destruct (generate_comps_held _ _ _ _ s Hgen Hc Hs) as (p & Hp & Hsp).
  exists p. split; [|exact Hsp].
  apply elem_of_filter in Hp as [_ Hp]. exact Hp.
Qed.

(** X20. When no answer starts with [q], every answer is a count between
    1 and [sys.maxsize] or no number at all, and there are at least as
    many answers as compositions, [comps] shows every composition of the
    division and ends with the closing line. *)
Theorem comps_shows_all (team : Team) (r : RestrictionSet)
    (c c1 : console) (division : Team) (compgen : list (gset Ship)) :
  menu team (size_limit r) c = (Returns division, c1) →
  generate_comps division r = Ok compgen →
  1 ≤ maxsize →
  Forall (fun instruction =>
            casefold_startswith_q instruction = false
            ∧ ∀ z, int_ instruction = Some z → 1 ≤ z ≤ maxsize) (stdin c1) →
  (length compgen ≤ length (stdin c1))%nat →
  (comps_run team r c).1 = Returns ()
  ∧ stdout (comps_run team r c).2
    = stdout c1 ++ numbered 1 compgen ++ [Expended (S (length compgen))].
Proof.
  intros Hmenu Hgen Hmax Hall Hlen.
  destruct (comps_run_after_menu _ _ _ _ _ Hmenu) as (compgen' & Hgen' & ->).
  rewrite Hgen in Hgen'. injection Hgen' as <-.
  destruct (comps_loop_exhausts compgen 1 1 (stdin c1) (stdout c1) Hmax
              ltac:(lia) Hall Hlen) as (m & ->).
  split; reflexivity.
Qed.

(** X21. A count of zero ends the session with the closing line although
    compositions may be left; a negative count, or one above
    [sys.maxsize], is a [ValueError] of [islice]. *)
Theorem comps_loop_count_out_of_range (compgen : list (gset Ship)) (n : nat)
    (to_take z : Z) (instruction : string) (input : list string)
    (output : list event) :
  1 ≤ to_take ≤ maxsize →
  compgen ≠ [] →
  casefold_startswith_q instruction = false →
  int_ instruction = Some z →
  z ≤ 0 ∨ maxsize < z →
  let batch := take (Z.to_nat to_take) compgen in
  comps_loop compgen n to_take (instruction :: input) output
  = if bool_decide (z = 0)
    then (Returns (),
          mkConsole input
            (output ++ numbered n batch ++ [Expended (n + length batch)]))
    else (Raises ValueError, mkConsole input (output ++ numbered n batch)).
Proof.
  intros Hto Hne Hq Hz Hrange batch. rewrite comps_loop_unfold.
  rewrite bool_decide_eq_false_2 by lia. fold batch.
  destruct batch as [|comp rest] eqn:Hbatch.
  { exfalso. subst batch. destruct compgen; [congruence|].
    destruct (Z.to_nat to_take) eqn:Ht; [lia|discriminate]. }
  rewrite Hq, Hz. cbn [default]. rewrite comps_loop_unfold.
  destruct (decide (z = 0)) as [->|Hnz].
  - rewrite (bool_decide_eq_false_2 (0 < 0 ∨ maxsize < 0)) by lia.
    rewrite (bool_decide_eq_true_2 (0 = 0)) by reflexivity.
    rewrite take_0, <- (assoc_L (++)). reflexivity.
  - rewrite (bool_decide_eq_true_2 (z < 0 ∨ maxsize < z)) by lia.
    rewrite (bool_decide_eq_false_2 (z = 0)) by exact Hnz. reflexivity.
Qed.

End CompsClaims.

Section CompsExamples.
Import Fleetcomp Console.

Lemma comps_shows_in_order_witness :
  ∃ compgen k,
    generate_comps (Team_select ex_team (list_to_set ["A"; "B"])) (ex_rs 2)
    = Ok compgen
    ∧ (k ≤ length compgen)%nat
    ∧ (stdout (@comps_run ex_builtins ex_team (ex_rs 2)
                 (mkConsole ["0,2"; "1"] [])).2
       = [Prompt 2 [(0, "A"); (1, "C"); (2, "B")]]
         ++ numbered 1 (take k compgen)
       ∨ stdout (@comps_run ex_builtins ex_team (ex_rs 2)
                   (mkConsole ["0,2"; "1"] [])).2
         = [Prompt 2 [(0, "A"); (1, "C"); (2, "B")]]
           ++ numbered 1 (take k compgen) ++ [Expended (S k)]).
Proof.
  apply (@comps_shows_in_order ex_builtins ex_team (ex_rs 2)
           (mkConsole ["0,2"; "1"] [])
           (mkConsole ["1"] [Prompt 2 [(0, "A"); (1, "C"); (2, "B")]])
           (Team_select ex_team (list_to_set ["A"; "B"]))).
  reflexivity.
Defined.

Lemma ex_comps_output :
  stdout (@comps_run ex_builtins ex_team (ex_rs 2)
            (mkConsole ["0,2"; "1"] [])).2
  = [Prompt 2 [(0, "A"); (1, "C"); (2, "B")]; Composition 1 ex_comp;
     Expended 2].
Proof.
  reflexivity.
Qed.

Lemma comps_prints_legal_witness :
  wf_team ex_team
  ∧ Composition 1 ex_comp
    ∈ stdout (@comps_run ex_builtins ex_team (ex_rs 2)
                (mkConsole ["0,2"; "1"] [])).2
  ∧ is_valid (ex_rs 2) ex_comp = true
  ∧ Z.of_nat (size ex_comp) = size_limit (ex_rs 2).
Proof.
  assert (Hin : Composition 1 ex_comp
                ∈ stdout (@comps_run ex_builtins ex_team (ex_rs 2)
                            (mkConsole ["0,2"; "1"] [])).2).
  { rewrite ex_comps_output.
    apply elem_of_cons. right. apply elem_of_cons. left. reflexivity. }
  split; [exact ex_team_wf|split; [exact Hin|]].
  destruct (@comps_prints_legal ex_builtins ex_team (ex_rs 2) _ 1%nat ex_comp
              ex_team_wf Hin) as [Hold|(Hv & Hsz & _)].
  - inversion Hold.
  - split; [exact Hv|exact Hsz].
Defined.

Lemma comps_shows_all_witness :
  (@comps_run ex_builtins ex_team (ex_rs 2) (mkConsole ["0,2"; "1"] [])).1
  = Returns ()
  ∧ stdout (@comps_run ex_builtins ex_team (ex_rs 2)
              (mkConsole ["0,2"; "1"] [])).2
    = [Prompt 2 [(0, "A"); (1, "C"); (2, "B")]]
      ++ numbered 1 [ex_comp] ++ [Expended 2].
Proof.
  apply (@comps_shows_all ex_builtins ex_team (ex_rs 2)
           (mkConsole ["0,2"; "1"] [])
           (mkConsole ["1"] [Prompt 2 [(0, "A"); (1, "C"); (2, "B")]])
           (Team_select ex_team (list_to_set ["A"; "B"])) [ex_comp]).
  - reflexivity.
  - reflexivity.
  - simpl. lia.
  - constructor; [|constructor]. split; [reflexivity|].
    intros z [= <-]. simpl. lia.
  - simpl. lia.
Defined.

Lemma comps_loop_count_out_of_range_witness :
  @comps_loop ex_builtins [ex_comp; ex_comp] 1 1 ("0" :: []) []
  = (Returns (),
     mkConsole [] ([] ++ numbered 1 [ex_comp] ++ [Expended 2])).
Proof.
  apply (@comps_loop_count_out_of_range ex_builtins [ex_comp; ex_comp] 1 1 0
           "0" [] []).
  - simpl. lia.
  - discriminate.
  - reflexivity.
  - reflexivity.
  - left. lia.
Defined.

End CompsExamples.

(** * The heads of [comps] and [count] *)

Section Heads.
Context {R : Type}.

Lemma store_untouched_ret {A} (a : A) : store_untouched (mret a : M R A).
Proof. intros n rs rs'. reflexivity. Qed.

Lemma store_untouched_raise {A} (e : exn) :
  store_untouched (raise e : M R A).
Proof. intros n rs rs'. reflexivity. Qed.

Lemma store_untouched_lift {A} (r : result A) :
  store_untouched (lift r : M R A).
Proof. intros n rs rs'. destruct r; reflexivity. Qed.

Lemma store_untouched_fresh : store_untouched (fresh : M R positive).
Proof. intros n rs rs'. reflexivity. Qed.

Lemma store_untouched_bind {A B} (m : M R A) (f : A → M R B) :
  store_untouched m → (∀ a, store_untouched (f a)) →
  store_untouched (m ≫= f).
Proof.
  intros Hm Hf n rs rs'. unfold mbind, M_bind.
  rewrite (Hm n rs rs').
  destruct (m (mkHeap n rs)) as [[a [n1 rs1]]|e]; [|reflexivity].
  cbn [next_id].
  rewrite (Hf a n1 rs1 rs'), (Hf a n1 rs1 rs1).
  destruct (f a (mkHeap n1 rs1)) as [[b [n2 rs2]]|e]; reflexivity.
Qed.

Lemma bind_fail {A B} (m : M R A) (f : A → M R B) h e :
  m h = Raise e → (m ≫= f) h = Raise e.
Proof. intros Hm. unfold mbind, M_bind. rewrite Hm. reflexivity. Qed.

Lemma store_untouched_foldM {A B} (f : B → A → M R B) (l : list A) (b : B) :
  (∀ b a, store_untouched (f b a)) → store_untouched (foldM f b l).
Proof.
  intros Hf. revert b. induction l as [|a l IH]; intros b; simpl.
  - apply store_untouched_ret.
  - apply store_untouched_bind; [apply Hf|intros b'; apply IH].
Qed.

Lemma store_untouched_Player_init (name : string)
    (ships : gmap string (list string)) :
  store_untouched (Player_init name ships : M R Player).
Proof.
  unfold Player_init.
  apply store_untouched_bind; [apply store_untouched_fresh|intros i].
  apply store_untouched_bind; [|intros s; apply store_untouched_ret].
  apply store_untouched_foldM. intros shipset [ship_type_str ship_list].
  apply store_untouched_foldM. intros shipset' ship_name.
  apply store_untouched_bind; [apply store_untouched_lift|intros t].
  apply store_untouched_bind; [|intros s; apply store_untouched_ret].
  unfold Ship_init.
  apply store_untouched_bind; [apply store_untouched_fresh|intros i'].
  apply store_untouched_bind; [apply store_untouched_lift|intros t'].
  apply store_untouched_ret.
Qed.

End Heads.

Section HeadsClaims.
Import Fleetcomp Console.

Lemma store_untouched_Team_load
    (team_info : gmap string (gmap string (gmap string (list string))))
    (tier : Z) :
  store_untouched (Team_load team_info tier).
Proof.
  unfold Team_load.
  apply store_untouched_bind; [|intros s; apply store_untouched_ret].
  apply store_untouched_foldM. intros players [name player_info].
  destruct (player_info !! pretty tier) as [ships|];
    [|apply store_untouched_raise].
  apply store_untouched_bind; [|intros s; apply store_untouched_ret].
  apply store_untouched_Player_init.
Qed.

(** The heads of [comps] and [count] do the same although they order
    their steps differently. *)
Lemma comps_load_eq
    (team_data : gmap string (gmap string (gmap string (list string))))
    (restriction_data : gmap string json) (tso : option Z)
    (h : heap RestrictionSet) :
  comps_load team_data restriction_data tso h
  = count_load team_data restriction_data tso h.
Proof.
  destruct h as [n rs]. unfold comps_load, count_load.
  destruct (RestrictionSet_load restriction_data 7 (mkHeap n rs))
    as [[ref h1]|e] eqn:Hload; [|rewrite !(bind_fail _ _ _ _ Hload); reflexivity].
  rewrite !(bind_run _ _ _ _ _ Hload).
  assert (Hh1 : ∃ r, ref = length rs ∧ h1 = mkHeap n (rs ++ [r])).
  { unfold RestrictionSet_load, mbind, M_bind, lift, alloc in Hload.
    destruct (RestrictionSet_init restriction_data 7 10).2 as [r|e];
      [|discriminate].
    injection Hload as <- <-. eauto. }
  destruct Hh1 as (r & -> & ->).
  assert (Hread : read (length rs) (mkHeap n (rs ++ [r]))
                  = Ok (r, mkHeap n (rs ++ [r]))).
  { unfold read. cbn [rsets].
    rewrite (list_lookup_middle rs [] r (length rs) eq_refl). reflexivity. }
  rewrite (bind_run _ _ _ _ _ Hread).
  destruct (Team_load team_data (tier r) (mkHeap n (rs ++ [r])))
    as [[team [n2 rs2]]|e] eqn:Hteam.
  - assert (rs2 = rs ++ [r]) as ->.
    { pose proof (store_untouched_Team_load team_data (tier r) n
                    (rs ++ [r]) (rs ++ [r])) as Hsame.
      rewrite Hteam in Hsame. cbn [next_id] in Hsame. congruence. }
    rewrite (bind_run _ _ _ _ _ Hteam).
    destruct tso as [k|].
    + assert (Hnew : ∀ m, with_team_size (length rs) k (mkHeap m (rs ++ [r]))
                = Ok (length (rs ++ [r]),
                      mkHeap m ((rs ++ [r])
                                ++ [mkRestrictionSet k (tier r)
                                      (banned_ships r) (banned_types r)
                                      (restrictions r)]))).
      { intros m. apply (with_team_size_spec (mkHeap m (rs ++ [r]))).
        cbn [rsets]. apply (list_lookup_middle rs [] r (length rs) eq_refl). }
      rewrite !(bind_run _ _ _ _ _ (Hnew _)).
      set (r' := mkRestrictionSet k (tier r) (banned_ships r)
                   (banned_types r) (restrictions r)).
      assert (Hread' : read (length (rs ++ [r]))
                         (mkHeap n ((rs ++ [r]) ++ [r']))
                       = Ok (r', mkHeap n ((rs ++ [r]) ++ [r']))).
      { unfold read. cbn [rsets].
        rewrite (list_lookup_middle (rs ++ [r]) [] r' _ eq_refl).
        reflexivity. }
      rewrite (bind_run _ _ _ _ _ Hread').
      assert (Hteam' : Team_load team_data (tier r')
                         (mkHeap n ((rs ++ [r]) ++ [r']))
                       = Ok (team, mkHeap n2 ((rs ++ [r]) ++ [r']))).
      { rewrite (store_untouched_Team_load team_data (tier r') n
                   (rs ++ [r]) ((rs ++ [r]) ++ [r'])).
        cbn [tier r']. rewrite Hteam. reflexivity. }
      rewrite (bind_run _ _ _ _ _ Hteam'). reflexivity.
    + assert (Hret : (mret (length rs) : M RestrictionSet nat)
                       (mkHeap n (rs ++ [r]))
                     = Ok (length rs, mkHeap n (rs ++ [r]))) by reflexivity.
      rewrite (bind_run _ _ _ _ _ Hret), (bind_run _ _ _ _ _ Hread).
      rewrite (bind_run _ _ _ _ _ Hteam). reflexivity.
  - rewrite (bind_fail _ _ _ _ Hteam).
    destruct tso as [k|].
    + assert (Hnew : with_team_size (length rs) k (mkHeap n (rs ++ [r]))
                = Ok (length (rs ++ [r]),
                      mkHeap n ((rs ++ [r])
                                ++ [mkRestrictionSet k (tier r)
                                      (banned_ships r) (banned_types r)
                                      (restrictions r)]))).
      { apply (with_team_size_spec (mkHeap n (rs ++ [r]))).
        cbn [rsets]. apply (list_lookup_middle rs [] r (length rs) eq_refl). }
      rewrite (bind_run _ _ _ _ _ Hnew).
      set (r' := mkRestrictionSet k (tier r) (banned_ships r)
                   (banned_types r) (restrictions r)).
      assert (Hread' : read (length (rs ++ [r]))
                         (mkHeap n ((rs ++ [r]) ++ [r']))
                       = Ok (r', mkHeap n ((rs ++ [r]) ++ [r']))).
      { unfold read. cbn [rsets].
        rewrite (list_lookup_middle (rs ++ [r]) [] r' _ eq_refl).
        reflexivity. }
      rewrite (bind_run _ _ _ _ _ Hread').
      assert (Hteam' : Team_load team_data (tier r')
                         (mkHeap n ((rs ++ [r]) ++ [r'])) = Raise e).
      { rewrite (store_untouched_Team_load team_data (tier r') n
                   (rs ++ [r]) ((rs ++ [r]) ++ [r'])).
        cbn [tier r']. rewrite Hteam. reflexivity. }
      rewrite (bind_fail _ _ _ _ Hteam'). reflexivity.
    + assert (Hret : (mret (length rs) : M RestrictionSet nat)
                       (mkHeap n (rs ++ [r]))
                     = Ok (length rs, mkHeap n (rs ++ [r]))) by reflexivity.
      rewrite (bind_run _ _ _ _ _ Hret), (bind_run _ _ _ _ _ Hread).
      rewrite (bind_fail _ _ _ _ Hteam). reflexivity.
Qed.

Context `{Builtins}.

(** [comps] after the menu raises no [ConfigurationError]. *)
Lemma comps_run_refuses_iff (team : Team) (r : RestrictionSet) (c : console) :
  (comps_run team r c).1 = Raises ConfigurationError
  ↔ (menu team (size_limit r) c).1 = Raises ConfigurationError.
Proof.
  unfold comps_run.
  destruct (menu team (size_limit r) c) as [[division|e| |] c1];
    cbn [fst];
    [|split; intros [= ->]; reflexivity|split; discriminate..].
  split; [|discriminate].
  destruct (generate_comps division r) as [compgen|e] eqn:Hgen.
  - destruct (comps_loop compgen 1 1 (stdin c1) (stdout c1))
      as [out c'] eqn:Hl.
    destruct (comps_loop_ends _ _ _ _ _ _ _ Hl) as [->|[->| ->]];
      simpl; discriminate.
  - unfold generate_comps in Hgen.
    destruct (size_limit r <? 0); [|discriminate].
    injection Hgen as <-. simpl. discriminate.
Qed.

(** X22. [comps] and [count] start alike although they order their steps
    differently: for the same files and override they load the same team
    and the same restriction set object into the same store, or fail with
    the same exception; and [comps] gives up with [ConfigurationError]
    exactly when [count] does. *)
Theorem comps_starts_as_count
    (team_data : gmap string (gmap string (gmap string (list string))))
    (restriction_data : gmap string json) (tso : option Z)
    (h : heap RestrictionSet) (c : console) :
  comps_load team_data restriction_data tso h
  = count_load team_data restriction_data tso h
  ∧ ((comps team_data restriction_data tso h c).1 = Raises ConfigurationError
     ↔ count team_data restriction_data tso h = Raise ConfigurationError).
Proof.
  split; [apply comps_load_eq|].
  unfold comps, count.
  pose proof (comps_load_eq team_data restriction_data tso h) as Hsame.
  destruct (count_load team_data restriction_data tso h)
    as [[[team ref] h']|e] eqn:Hload.
  - rewrite (bind_run _ _ _ _ _ Hsame), (bind_run _ _ _ _ _ Hload).
    cbn [fst snd].
    destruct (rsets h' !! ref) as [r|] eqn:Href.
    + assert (Hread : read ref h' = Ok (r, h'))
        by (unfold read; rewrite Href; reflexivity).
      rewrite (bind_run _ _ _ _ _ Hread). cbn [mret M_ret].
      rewrite comps_run_refuses_iff, menu_refuses_iff.
      symmetry. apply count_run_refuses_iff, Href.
    + assert (Hread : read ref h' = (Raise ReferenceError
                                     : result (RestrictionSet * _)))
        by (unfold read; rewrite Href; reflexivity).
      rewrite (bind_fail _ _ _ _ Hread). cbn [fst].
      unfold count_run. rewrite (bind_fail _ _ _ _ Hread).
      split; discriminate.
  - rewrite (bind_fail _ _ _ _ Hsame), (bind_fail _ _ _ _ Hload). cbn [fst].
    split; intros [= ->]; reflexivity.
Qed.

End HeadsClaims.

(** * The dialogue of teamcomp.py *)

Section TeamcompDialogue.
Import Teamcomp Console TeamcompConsole.

Lemma teamcomp_options_lookup (self : Team) (i : Z) (nm : string) :
  (list_to_map (menu_options self) : gmap Z string) !! i = Some nm
  ↔ ∃ j p, i = Z.of_nat j ∧ elements (players self) !! j = Some p
           ∧ pname p = nm.
Proof.
  assert (Hkeys : NoDup (menu_options self).*1).
  { unfold menu_options. rewrite fmap_imap.
    apply NoDup_alt. intros j k x Hj Hk.
    apply list_lookup_imap_Some in Hj as (p & _ & ->).
    apply list_lookup_imap_Some in Hk as (q & _ & Hq).
    simpl in Hq. lia. }
  rewrite <- (elem_of_list_to_map _ _ _ Hkeys).
  unfold menu_options. rewrite elem_of_lookup_imap. split.
  - intros (j & p & [= -> ->] & Hl). eauto.
  - intros (j & p & -> & Hl & <-). eauto.
Qed.

Context `{Builtins}.

(** The loop of [comps] in teamcomp.py prints one block for each
    composition it is given, and returns only on a line that starts with
    [q]. *)
Lemma teamcomp_comps_loop_ends (compgen : list (gset Ship)) (n : nat)
    (to_take : Z) (input : list string) (output : list event)
    (out : outcome unit) (c' : console) :
  comps_loop compgen n to_take input output = (out, c') →
  (out = Returns () →
   Exists (fun instruction => casefold_startswith_q instruction = true) input)
  ∧ (compgen = [] → stdout c' = output).
Proof.
  revert compgen n to_take output.
  induction input as [|instruction input IH];
    intros compgen n to_take output; cbn [comps_loop];
    (case_bool_decide;
     [intros [= <- <-]; split; [discriminate|reflexivity]|]).
  - intros [= <- <-]. split; [discriminate|].
    intros ->. rewrite take_nil. simpl. apply app_nil_r.
  - destruct (casefold_startswith_q instruction) eqn:Hq.
    + intros [= <- <-]. split; [intros _; left; exact Hq|].
      intros ->. rewrite take_nil. simpl. apply app_nil_r.
    + intros Hrun. destruct (IH _ _ _ _ Hrun) as [Hret Hout]. split.
      * intros Hr. right. exact (Hret Hr).
      * intros ->. rewrite take_nil, drop_nil in Hrun.
        destruct (IH _ _ _ _ Hrun) as [_ Hout'].
        rewrite (Hout' eq_refl). simpl. apply app_nil_r.
Qed.

(** X23. In teamcomp.py the first line without [q] that parses is taken,
    however many numbers it has and whatever the team size: the team
    returned has the players at the positions entered, with or without
    ships. *)
Theorem teamcomp_menu_takes_any_line (self : Team) (team_size : Z)
    (selections : string) (chosen : list Z)
    (input : list string) (output : list event) :
  wf_team self →
  casefold_contains_q selections = false →
  chosen_numbers selections = Some chosen →
  (∀ i, i ∈ chosen → 0 ≤ i < Z.of_nat (size (players self))) →
  ∃ division,
    menu self team_size (mkConsole (selections :: input) output)
    = (Returns division,
       mkConsole input (output ++ [Prompt team_size (menu_options self)]))
    ∧ ∀ p, p ∈ players division ↔
           ∃ j, Z.of_nat j ∈ chosen ∧ elements (players self) !! j = Some p.
Proof.
  intros Hwf Hq Hp Hin. unfold menu. cbn [stdin stdout menu_loop].
  rewrite Hq, Hp.
  assert (Hnames : mapM (fun i => (list_to_map (menu_options self)
                                     : gmap Z string) !! i) chosen
                   = Some ((fun i => default "" ((list_to_map (menu_options self)
                                                    : gmap Z string) !! i))
                             <$> chosen)).
  { apply mapM_Some. apply Forall2_fmap_r, Forall_Forall2_diag, Forall_forall.
    intros i Hi. destruct (Hin i Hi) as [Hlo Hhi].
    destruct (lookup_lt_is_Some_2 (elements (players self)) (Z.to_nat i))
      as [p Hp']; [unfold size, set_size in Hhi; simpl in Hhi; lia|].
    assert (Hl : (list_to_map (menu_options self) : gmap Z string) !! i
                 = Some (pname p)).
    { apply teamcomp_options_lookup. exists (Z.to_nat i), p.
      split; [lia|split; [exact Hp'|reflexivity]]. }
    cbn beta. etrans; [exact Hl|]. f_equal. symmetry.
    exact (f_equal (default "") Hl). }
  rewrite Hnames. eexists. split; [reflexivity|].
  intros p. unfold Team_select. cbn [players].
  rewrite elem_of_filter, elem_of_list_to_set, list_elem_of_fmap. split.
  - intros [(i & Hnm & Hi) Hpl].
    destruct (Hin i Hi) as [Hlo Hhi].
    destruct (lookup_lt_is_Some_2 (elements (players self)) (Z.to_nat i))
      as [q Hq']; [unfold size, set_size in Hhi; simpl in Hhi; lia|].
    assert (Hl : (list_to_map (menu_options self) : gmap Z string) !! i
                 = Some (pname q)).
    { apply teamcomp_options_lookup. exists (Z.to_nat i), q.
      split; [lia|split; [exact Hq'|reflexivity]]. }
    pose proof (f_equal (default "") Hl) as Hd. simpl in Hd.
    assert (Hpq : pname q = pname p) by (etrans; [symmetry; exact Hd|]; symmetry; exact Hnm).
    assert (q = p) as ->.
    { destruct Hwf as [_ Hinj]. apply (Hinj q); [|exact Hpl|exact Hpq].
      apply elem_of_elements, list_elem_of_lookup. eauto. }
    exists (Z.to_nat i). split; [|exact Hq'].
    rewrite Z2Nat.id by lia. exact Hi.
  - intros (j & Hj & Hel). split.
    + exists (Z.of_nat j). split; [|exact Hj].
      assert (Hl : (list_to_map (menu_options self) : gmap Z string)
                   !! Z.of_nat j = Some (pname p)).
      { apply teamcomp_options_lookup. exists j, p. auto. }
      symmetry. exact (f_equal (default "") Hl).
    + apply elem_of_elements, list_elem_of_lookup. eauto.
Qed.

(** X24. When the division that [menu] returns has fewer than seven players,
    [comps] of teamcomp.py prints no composition, and it goes on asking
    until a line starts with [q]: it returns only then. *)
Theorem teamcomp_comps_small_division (team : Team) (r : RestrictionSet)
    (c c1 : console) (division : Team) :
  menu team (size_limit r) c = (Returns division, c1) →
  (size (players division) < 7)%nat →
  stdout (comps_run team r c).2 = stdout c1
  ∧ ((comps_run team r c).1 = Returns () →
     Exists (fun instruction => casefold_startswith_q instruction = true)
            (stdin c1)).
Proof.
  intros Hmenu Hsmall. unfold comps_run. rewrite Hmenu.
  assert (Hnone : generate_comps division r = []).
  { unfold generate_comps. rewrite combinations_too_wide; [reflexivity|].
    exact Hsmall. }
  rewrite Hnone.
  destruct (comps_loop [] 1 1 (stdin c1) (stdout c1)) as [out c'] eqn:Hl.
  destruct (teamcomp_comps_loop_ends _ _ _ _ _ _ _ Hl) as [Hret Hout].
  split; [exact (Hout eq_refl)|exact Hret].
Qed.

End TeamcompDialogue.

Section TeamcompDialogueExamples.
Import Teamcomp Console TeamcompConsole.

Lemma teamcomp_menu_takes_any_line_witness :
  wf_team ex_team
  ∧ ∃ division,
      @menu ex_builtins ex_team 7 (mkConsole ["2"; "q"] [])
      = (Returns division,
         mkConsole ["q"] ([] ++ [Prompt 7 (menu_options ex_team)]))
      ∧ ∀ p, p ∈ players division ↔
             ∃ j, Z.of_nat j ∈ [2]
                  ∧ elements (players ex_team) !! j = Some p.
Proof.
  split; [exact ex_team_wf|].
  apply (@teamcomp_menu_takes_any_line ex_builtins ex_team 7 "2" [2] ["q"] []
           ex_team_wf).
  - reflexivity.
  - reflexivity.
  - intros i Hi. apply list_elem_of_singleton in Hi as ->.
    assert (Hsz : size (players ex_team) = 3%nat) by reflexivity.
    rewrite Hsz. lia.
Defined.

Lemma teamcomp_comps_small_division_witness :
  (size (players (Team_select ex_team (list_to_set ["B"]))) < 7)%nat
  ∧ stdout (@comps_run ex_builtins ex_team (ex_rs_teamcomp 1)
              (mkConsole ["2"; "1"; "q"] [])).2
    = [Prompt 1 [(0, "A"); (1, "C"); (2, "B")]].
Proof.
  assert (Hsmall : (size (players (Team_select ex_team (list_to_set ["B"])))
                    < 7)%nat).
  { assert (Hsz : size (players (Team_select ex_team (list_to_set ["B"])))
                  = 1%nat) by reflexivity.
    rewrite Hsz. lia. }
  split; [exact Hsmall|].
  apply (@teamcomp_comps_small_division ex_builtins ex_team
           (ex_rs_teamcomp 1) (mkConsole ["2"; "1"; "q"] [])
           (mkConsole ["1"; "q"] [Prompt 1 [(0, "A"); (1, "C"); (2, "B")]])
           (Team_select ex_team (list_to_set ["B"]))).
  - reflexivity.
  - exact Hsmall.
Defined.

End TeamcompDialogueExamples.
